(** * rubcs: the cube model, the coordinate codec and the two-phase solver

    A shallow embedding of [cube.h]/[cube.cpp] (the 54-facelet cube, its
    moves, its cubie and coordinate queries, [scramble]), of [solver.cpp]
    (coordinate codec, piece-level move effects, the move tables of
    [Tables::init], move pruning, the two searches and [Solver::solve],
    the last three once more with the vector subscripts checked) and of
    the physical reference model of [tests/test_main.cpp], followed by the
    properties proved about them.

    Conventions.
    - [int] values are [Z]; the values that occur stay far inside 32 bits,
      so no wrap-around is written for them.  [uint8_t] stores go through
      [u8] (reduction modulo 256), the [uint64_t] node counter through
      [u64].  C++ [/] and [%] are [Z.quot] and [Z.rem].
    - [std::array<Color, 54>] is a [list Color]; the theorems carry the
      length as a hypothesis.  Array positions are [nat].
    - [enum class Color] and [enum class Move] are inductive types with the
      enumerators of the header, in the header's order. *)

From Stdlib Require Import ZArith List Bool Lia Permutation.
Import ListNotations.
Local Open Scope Z_scope.

(** ** Small array helpers *)

(** [a[i] = x] on a fixed-size array; positions past the end do not exist
    in the source and leave the list as it is. *)
Fixpoint upd {A : Type} (i : nat) (x : A) (l : list A) : list A :=
  match l, i with
  | [], _ => []
  | _ :: t, O => x :: t
  | h :: t, S j => h :: upd j x t
  end.

Definition u8 (x : Z) : Z := x mod 256.
Definition u64 (x : Z) : Z := x mod 18446744073709551616.

(** The index ranges of the [for] loops. *)
Definition range (n : nat) : list nat := seq 0 n.

Definition u16 (x : Z) : Z := x mod 65536.

(** The values of an [int] loop variable that runs from 0 to [n - 1]. *)
Fixpoint zrangeFrom (start : Z) (len : nat) : list Z :=
  match len with
  | O => []
  | S len' => start :: zrangeFrom (start + 1) len'
  end.

Definition zrange (n : Z) : list Z := zrangeFrom 0 (Z.to_nat n).

(** ** cube.h: colours, moves, faces *)

Inductive Color : Type := White | Yellow | Red | Orange | Green | Blue.

Definition colorIndex (c : Color) : Z :=
  match c with
  | White => 0 | Yellow => 1 | Red => 2 | Orange => 3 | Green => 4 | Blue => 5
  end.

Definition Color_eqb (a b : Color) : bool :=
  match a, b with
  | White, White | Yellow, Yellow | Red, Red
  | Orange, Orange | Green, Green | Blue, Blue => true
  | _, _ => false
  end.

Inductive Move : Type :=
  | U | Up | U2 | D | Dp | D2 | L | Lp | L2
  | R | Rp | R2 | F | Fp | F2 | B | Bp | B2.

(** [static_cast<int>(m)] *)
Definition moveIndex (m : Move) : Z :=
  match m with
  | U => 0 | Up => 1 | U2 => 2 | D => 3 | Dp => 4 | D2 => 5
  | L => 6 | Lp => 7 | L2 => 8 | R => 9 | Rp => 10 | R2 => 11
  | F => 12 | Fp => 13 | F2 => 14 | B => 15 | Bp => 16 | B2 => 17
  end.

Definition allMoves : list Move :=
  [U; Up; U2; D; Dp; D2; L; Lp; L2; R; Rp; R2; F; Fp; F2; B; Bp; B2].

(** [static_cast<Move>(i)]: defined on the enumerators' range only. *)
Definition moveOfIndex (i : Z) : option Move :=
  if (i <? 0) || (17 <? i) then None else nth_error allMoves (Z.to_nat i).

Definition FACE_U : nat := 0.
Definition FACE_D : nat := 1.
Definition FACE_L : nat := 2.
Definition FACE_R : nat := 3.
Definition FACE_F : nat := 4.
Definition FACE_B : nat := 5.

(** ** cube.cpp: the facelet engine *)

Module Cube.

(** [#define I(face, pos) ((face) * 9 + (pos))] *)
Definition I (face pos : nat) : nat := (face * 9 + pos)%nat.

Definition State : Type := list Color.

(** [state_[i]] as an rvalue and as an assignment. *)
Definition get (s : State) (i : nat) : Color := nth i s White.
Definition set (s : State) (i : nat) (c : Color) : State := upd i c s.

Definition kFaceColor : list Color := [White; Yellow; Green; Blue; Red; Orange].

Definition reset : State :=
  flat_map (fun f => map (fun _ => nth f kFaceColor White) (range 9)) (range 6).

Definition rotateFaceCW (face : nat) (s : State) : State :=
  let b := (face * 9)%nat in
  let tmp := get s (b + 0) in
  let s := set s (b + 0) (get s (b + 6)) in
  let s := set s (b + 6) (get s (b + 8)) in
  let s := set s (b + 8) (get s (b + 2)) in
  let s := set s (b + 2) tmp in
  let tmp := get s (b + 1) in
  let s := set s (b + 1) (get s (b + 3)) in
  let s := set s (b + 3) (get s (b + 7)) in
  let s := set s (b + 7) (get s (b + 5)) in
  let s := set s (b + 5) tmp in
  s.

Definition cycle4 (a b c d : nat) (s : State) : State :=
  let tmp := get s d in
  let s := set s d (get s c) in
  let s := set s c (get s b) in
  let s := set s b (get s a) in
  let s := set s a tmp in
  s.

(** The six [case]s of [applyMove] that turn a face clockwise; the other
    twelve call [applyMove] again on one of these. *)
Definition turnU (s : State) : State :=
  let s := rotateFaceCW FACE_U s in
  let s := cycle4 (I FACE_F 0) (I FACE_L 0) (I FACE_B 0) (I FACE_R 0) s in
  let s := cycle4 (I FACE_F 1) (I FACE_L 1) (I FACE_B 1) (I FACE_R 1) s in
  cycle4 (I FACE_F 2) (I FACE_L 2) (I FACE_B 2) (I FACE_R 2) s.

Definition turnD (s : State) : State :=
  let s := rotateFaceCW FACE_D s in
  let s := cycle4 (I FACE_F 6) (I FACE_R 6) (I FACE_B 6) (I FACE_L 6) s in
  let s := cycle4 (I FACE_F 7) (I FACE_R 7) (I FACE_B 7) (I FACE_L 7) s in
  cycle4 (I FACE_F 8) (I FACE_R 8) (I FACE_B 8) (I FACE_L 8) s.

Definition turnL (s : State) : State :=
  let s := rotateFaceCW FACE_L s in
  let s := cycle4 (I FACE_U 0) (I FACE_F 0) (I FACE_D 0) (I FACE_B 8) s in
  let s := cycle4 (I FACE_U 3) (I FACE_F 3) (I FACE_D 3) (I FACE_B 5) s in
  cycle4 (I FACE_U 6) (I FACE_F 6) (I FACE_D 6) (I FACE_B 2) s.

Definition turnR (s : State) : State :=
  let s := rotateFaceCW FACE_R s in
  let s := cycle4 (I FACE_U 2) (I FACE_B 6) (I FACE_D 2) (I FACE_F 2) s in
  let s := cycle4 (I FACE_U 5) (I FACE_B 3) (I FACE_D 5) (I FACE_F 5) s in
  cycle4 (I FACE_U 8) (I FACE_B 0) (I FACE_D 8) (I FACE_F 8) s.

Definition turnF (s : State) : State :=
  let s := rotateFaceCW FACE_F s in
  let s := cycle4 (I FACE_U 6) (I FACE_R 0) (I FACE_D 2) (I FACE_L 8) s in
  let s := cycle4 (I FACE_U 7) (I FACE_R 3) (I FACE_D 1) (I FACE_L 5) s in
  cycle4 (I FACE_U 8) (I FACE_R 6) (I FACE_D 0) (I FACE_L 2) s.

Definition turnB (s : State) : State :=
  let s := rotateFaceCW FACE_B s in
  let s := cycle4 (I FACE_U 2) (I FACE_L 0) (I FACE_D 6) (I FACE_R 8) s in
  let s := cycle4 (I FACE_U 1) (I FACE_L 3) (I FACE_D 7) (I FACE_R 5) s in
  cycle4 (I FACE_U 0) (I FACE_L 6) (I FACE_D 8) (I FACE_R 2) s.

Definition applyMove (m : Move) (s : State) : State :=
  match m with
  | U => turnU s
  | Up => turnU (turnU (turnU s))
  | U2 => turnU (turnU s)
  | D => turnD s
  | Dp => turnD (turnD (turnD s))
  | D2 => turnD (turnD s)
  | L => turnL s
  | Lp => turnL (turnL (turnL s))
  | L2 => turnL (turnL s)
  | R => turnR s
  | Rp => turnR (turnR (turnR s))
  | R2 => turnR (turnR s)
  | F => turnF s
  | Fp => turnF (turnF (turnF s))
  | F2 => turnF (turnF s)
  | B => turnB s
  | Bp => turnB (turnB (turnB s))
  | B2 => turnB (turnB s)
  end.

(** [for (auto m : seq) cube.applyMove(m);] *)
Definition applyMoves (ms : list Move) (s : State) : State :=
  fold_left (fun st m => applyMove m st) ms s.

(** [isSolved]: the two nested loops leave with [false] at the first
    facelet that differs from the centre of its face. *)
Definition isSolved (s : State) : bool :=
  forallb (fun f =>
    let center := get s (f * 9 + 4) in
    forallb (fun i => Color_eqb (get s (f * 9 + i)) center) (range 9))
  (range 6).

(** [inverseMove] *)
Definition inverseMove (m : Move) : Move :=
  let idx := moveIndex m in
  let face := Z.quot idx 3 in
  let type := Z.rem idx 3 in
  let cast i := match moveOfIndex i with Some r => r | None => m end in
  if type =? 0 then cast (face * 3 + 1)
  else if type =? 1 then cast (face * 3)
  else m.

(** *** Cubie tables *)

Definition cornerFacelets : list (list nat) :=
  [ [I FACE_U 8; I FACE_R 0; I FACE_F 2];
    [I FACE_U 6; I FACE_F 0; I FACE_L 2];
    [I FACE_U 0; I FACE_L 0; I FACE_B 2];
    [I FACE_U 2; I FACE_B 0; I FACE_R 2];
    [I FACE_D 2; I FACE_F 8; I FACE_R 6];
    [I FACE_D 0; I FACE_L 8; I FACE_F 6];
    [I FACE_D 6; I FACE_B 8; I FACE_L 6];
    [I FACE_D 8; I FACE_R 8; I FACE_B 6] ].

Definition cornerColors : list (list Color) :=
  [ [White; Blue; Red];
    [White; Red; Green];
    [White; Green; Orange];
    [White; Orange; Blue];
    [Yellow; Red; Blue];
    [Yellow; Green; Red];
    [Yellow; Orange; Green];
    [Yellow; Blue; Orange] ].

Definition edgeFacelets : list (list nat) :=
  [ [I FACE_U 5; I FACE_R 1];
    [I FACE_U 7; I FACE_F 1];
    [I FACE_U 3; I FACE_L 1];
    [I FACE_U 1; I FACE_B 1];
    [I FACE_D 5; I FACE_R 7];
    [I FACE_D 1; I FACE_F 7];
    [I FACE_D 3; I FACE_L 7];
    [I FACE_D 7; I FACE_B 7];
    [I FACE_F 5; I FACE_R 3];
    [I FACE_F 3; I FACE_L 5];
    [I FACE_B 5; I FACE_L 3];
    [I FACE_B 3; I FACE_R 5] ].

Definition edgeColors : list (list Color) :=
  [ [White; Blue];
    [White; Red];
    [White; Green];
    [White; Orange];
    [Yellow; Blue];
    [Yellow; Red];
    [Yellow; Green];
    [Yellow; Orange];
    [Red; Blue];
    [Red; Green];
    [Orange; Green];
    [Orange; Blue] ].

(** [table[i][k]] for the two-dimensional constant tables. *)
Definition at2 {A : Type} (d : A) (t : list (list A)) (i k : nat) : A :=
  nth k (nth i t []) d.

Definition cornerFacelet (pos k : nat) : nat := at2 O cornerFacelets pos k.
Definition cornerColor (c k : nat) : Color := at2 White cornerColors c k.
Definition edgeFacelet (pos k : nat) : nat := at2 O edgeFacelets pos k.
Definition edgeColor (e k : nat) : Color := at2 White edgeColors e k.

(** The body of [getCornerPermutation] once the three facelets are read:
    the first corner whose colours contain all three, the three being
    pairwise different; [-1] when the loop ends. *)
Definition cornerOf (c0 c1 c2 : Color) : Z :=
  let isOf x c :=
    Color_eqb x (cornerColor c 0) || Color_eqb x (cornerColor c 1)
    || Color_eqb x (cornerColor c 2) in
  match
    find (fun c =>
      (isOf c0 c && isOf c1 c && isOf c2 c)
      && (negb (Color_eqb c0 c1) && negb (Color_eqb c1 c2)
          && negb (Color_eqb c0 c2)))
    (range 8)
  with
  | Some c => Z.of_nat c
  | None => -1
  end.

Definition getCornerPermutation (pos : nat) (s : State) : Z :=
  cornerOf (get s (cornerFacelet pos 0)) (get s (cornerFacelet pos 1))
           (get s (cornerFacelet pos 2)).

(** The body of [getCornerOrientation] on the first two facelets. *)
Definition twistOf (c0 c1 : Color) : Z :=
  if Color_eqb c0 White || Color_eqb c0 Yellow then 0
  else if Color_eqb c1 White || Color_eqb c1 Yellow then 1
  else 2.

Definition getCornerOrientation (pos : nat) (s : State) : Z :=
  twistOf (get s (cornerFacelet pos 0)) (get s (cornerFacelet pos 1)).

(** The body of [getEdgePermutation] on the two facelets. *)
Definition edgeOf (c0 c1 : Color) : Z :=
  match
    find (fun e =>
      (Color_eqb c0 (edgeColor e 0) && Color_eqb c1 (edgeColor e 1))
      || (Color_eqb c0 (edgeColor e 1) && Color_eqb c1 (edgeColor e 0)))
    (range 12)
  with
  | Some e => Z.of_nat e
  | None => -1
  end.

Definition getEdgePermutation (pos : nat) (s : State) : Z :=
  edgeOf (get s (edgeFacelet pos 0)) (get s (edgeFacelet pos 1)).

(** The body of [getEdgeOrientation] on the two facelets. *)
Definition flipOf (c0 c1 : Color) : Z :=
  let ep := edgeOf c0 c1 in
  if ep <? 0 then 0
  else if Color_eqb c0 (edgeColor (Z.to_nat ep) 0) then 0 else 1.

Definition getEdgeOrientation (pos : nat) (s : State) : Z :=
  flipOf (get s (edgeFacelet pos 0)) (get s (edgeFacelet pos 1)).

(** *** [isSolvable] *)

(** First loop: [counts[idx]++] for every facelet, leaving with [false]
    on a value outside the enumeration. *)
Fixpoint countColors (s : list Color) (counts : list Z) : option (list Z) :=
  match s with
  | [] => Some counts
  | c :: rest =>
      let idx := colorIndex c in
      if (idx <? 0) || (idx >=? 6) then None
      else
        let k := Z.to_nat idx in
        countColors rest (upd k (nth k counts 0 + 1) counts)
  end.

(** The corner loop and the edge loop have one shape: read the piece and
    its orientation at position [i], leave with [false] when either is out
    of range or the piece was seen, otherwise record it and add the
    orientation into the running sum.  [n] is 8 or 12, [oriOK] the range
    test of the orientation and [modulus] 3 or 2. *)
Fixpoint scanPieces (getP getO : nat -> Z) (n : Z) (oriOK : Z -> bool)
    (modulus : Z) (positions : list nat)
    (seen : list bool) (perm : list Z) (oSum : Z) : option (list Z * Z) :=
  match positions with
  | [] => Some (perm, oSum)
  | i :: rest =>
      let p := getP i in
      let o := getO i in
      if (p <? 0) || (p >=? n) then None
      else if negb (oriOK o) then None
      else if nth (Z.to_nat p) seen false then None
      else
        scanPieces getP getO n oriOK modulus rest
          (upd (Z.to_nat p) true seen) (upd i p perm)
          (Z.rem (oSum + o) modulus)
  end.

(** The [parity] lambda: [inv++] for every pair [i < j] with
    [p[i] > p[j]], then [inv & 1]. *)
Definition inversions (p : list Z) (n : nat) : Z :=
  fold_left (fun inv i =>
    fold_left (fun inv j =>
      inv + (if nth i p 0 >? nth j p 0 then 1 else 0))
      (seq (i + 1) (n - (i + 1))) inv)
    (range n) 0.

Definition parity (p : list Z) (n : nat) : Z := Z.land (inversions p n) 1.

Definition isSolvable (s : State) : bool :=
  match countColors s (repeat 0 6) with
  | None => false
  | Some counts =>
  if negb (forallb (fun i => nth i counts 0 =? 9) (range 6)) then false else
  match
    scanPieces (fun i => getCornerPermutation i s)
               (fun i => getCornerOrientation i s)
               8 (fun co => negb ((co <? 0) || (co >=? 3))) 3
               (range 8) (repeat false 8) (repeat 0 8) 0
  with
  | None => false
  | Some (cornerPerm, coSum) =>
  if negb (coSum =? 0) then false else
  match
    scanPieces (fun i => getEdgePermutation i s)
               (fun i => getEdgeOrientation i s)
               12 (fun eo => (eo =? 0) || (eo =? 1)) 2
               (range 12) (repeat false 12) (repeat 0 12) 0
  with
  | None => false
  | Some (edgePerm, eoSum) =>
  if negb (eoSum =? 0) then false else
  if negb (parity cornerPerm 8 =? parity edgePerm 12) then false else true
  end end end.

(** *** The rest of [cube.cpp] *)

(** [faceletIndexFor]: the [switch] gives a row and a column or leaves
    with [-1]; [face] is an [int] and any value off the six faces takes the
    [default] branch. *)
Definition faceletIndexFor (face x y z : Z) : Z :=
  let rowcol :=
    match face with
    | 0 => if negb (y =? 1) then None else Some (z + 1, x + 1)
    | 1 => if negb (y =? -1) then None else Some (1 - z, x + 1)
    | 2 => if negb (x =? -1) then None else Some (1 - y, z + 1)
    | 3 => if negb (x =? 1) then None else Some (1 - y, 1 - z)
    | 4 => if negb (z =? 1) then None else Some (1 - y, x + 1)
    | 5 => if negb (z =? -1) then None else Some (1 - y, 1 - x)
    | _ => None
    end in
  match rowcol with
  | None => -1
  | Some (row, col) =>
      if (row <? 0) || (row >? 2) || (col <? 0) || (col >? 2) then -1
      else row * 3 + col
  end.

Definition rotateFaceCCW (face : nat) (s : State) : State :=
  rotateFaceCW face (rotateFaceCW face (rotateFaceCW face s)).

(** [applyMove(static_cast<Move>(v))] for an [int] [v]: a value that is
    no enumerator takes the [default: break] of the [switch]. *)
Definition applyMoveInt (v : Z) (s : State) : State :=
  match moveOfIndex v with
  | Some m => applyMove m s
  | None => s
  end.

(** [scramble].  The generator is seeded from the clock: [draws i] stands
    for the value of the [i]-th call [dist(rng)].  The guard at the end
    depends on the build: with [NDEBUG] an unsolvable result is replaced by
    the reset cube, without it the [assert] ends the process ([None]). *)
Definition scramble (ndebug : bool) (draws : nat -> Z) (numMoves : Z)
    (s : State) : option State :=
  let s :=
    fold_left (fun st i => applyMoveInt (draws i) st)
      (range (Z.to_nat numMoves)) s in
  if ndebug then Some (if negb (isSolvable s) then reset else s)
  else if isSolvable s then Some s else None.

Definition cornerOrientationCoord (s : State) : Z :=
  fold_left (fun coord i => coord * 3 + getCornerOrientation i s) (range 7) 0.

Definition edgeOrientationCoord (s : State) : Z :=
  fold_left (fun coord i => coord * 2 + getEdgeOrientation i s) (range 11) 0.

(** The [binom] lambda of [udSliceCoord]. *)
Definition binom (n k : Z) : Z :=
  if (k <? 0) || (k >? n) then 0
  else if (k =? 0) || (k =? n) then 1
  else
    let k := if k >? n - k then n - k else k in
    fold_left (fun res i => Z.quot (res * (n - k + Z.of_nat i)) (Z.of_nat i))
      (seq 1 (Z.to_nat k)) 1.

Definition udSliceCoord (s : State) : Z :=
  let isSlice := map (fun i => getEdgePermutation i s >=? 8) (range 12) in
  fst (fold_left (fun '(coord, k) i =>
         if nth i isSlice false then (coord, k - 1)
         else if k >? 0 then (coord + binom (Z.of_nat i) k, k)
         else (coord, k))
       (rev (range 12)) (0, 4)).

(** The loop that [cornerPermutationCoord], [phase2EdgePermutationCoord]
    and [udSlicePermutationCoord] each end with, for [n] = 8, 8 and 4:
    the factorial is recomputed by the innermost loop. *)
Definition lehmerLoop (n : nat) (perm : list Z) (coord : Z) : Z :=
  fold_left (fun coord i =>
    let cnt :=
      fold_left (fun cnt j =>
        cnt + (if nth j perm 0 <? nth i perm 0 then 1 else 0))
        (seq (i + 1) (n - (i + 1))) 0 in
    let fact :=
      fold_left (fun fact k => fact * Z.of_nat k) (seq 1 (n - 1 - i)) 1 in
    coord + cnt * fact)
  (range n) coord.

(** [cornerPermutationCoord].  Its first loop runs its body once, for
    [i = 7]: it counts [s], sets [coord = 0] and leaves by [break]; the
    second loop starts again from [coord = 0]. *)
Definition cornerPermutationCoord (s : State) : Z :=
  let perm := map (fun i => getCornerPermutation i s) (range 8) in
  let coord := 0 in
  let coord :=
    let s_ :=
      fold_left (fun s_ j => s_ + (if nth j perm 0 >? nth 7 perm 0 then 1 else 0))
        (range 7) 0 in
    0 in
  let coord := 0 in
  lehmerLoop 8 perm coord.

Definition phase2EdgePermutationCoord (s : State) : Z :=
  let perm := map (fun i => getEdgePermutation i s) (range 8) in
  lehmerLoop 8 perm 0.

Definition udSlicePermutationCoord (s : State) : Z :=
  let slicePos := map (fun i => getEdgePermutation (i + 8) s - 8) (range 4) in
  lehmerLoop 4 slicePos 0.

End Cube.

(** ** solver.cpp: cubie representation and coordinate codec *)

Module Solver.

Definition kNumMoves : nat := 18.
Definition kNumPhase2Moves : nat := 10.
Definition kPhase2Moves : list Z := [0; 1; 2; 3; 4; 5; 8; 11; 14; 17].

Definition kCO : Z := 2187.
Definition kEO : Z := 2048.
Definition kSLICE : Z := 495.
Definition kCP : Z := 40320.
Definition kEP : Z := 40320.
Definition kSP : Z := 24.

(** [kBinom[n][k]] for [n <= 12], [k <= 4], row by row as the
    initialising lambda fills it. *)
Fixpoint kBinomRow (n : nat) : list Z :=
  let prev := match n with O => [] | S n' => kBinomRow n' end in
  map (fun k =>
    if (k =? 0)%nat then 1
    else if (n <? k)%nat then 0
    else if (k =? n)%nat then 1
    else nth (k - 1) prev 0 + nth k prev 0)
  (range 5).

Definition kBinom (n k : nat) : Z := nth k (kBinomRow n) 0.

Definition kFact8 : list Z := [1; 1; 2; 6; 24; 120; 720; 5040; 40320].
Definition kFact4 : list Z := [1; 1; 2; 6; 24].

Record CubieCube : Type := mkCubie {
  cp : list Z;  (* which corner cubie is at each corner position *)
  co : list Z;  (* corner orientation (0..2) *)
  ep : list Z;  (* which edge cubie is at each edge position *)
  eo : list Z   (* edge orientation (0..1) *)
}.

Definition toCubie (cube : Cube.State) : CubieCube :=
  {| cp := map (fun i => u8 (Cube.getCornerPermutation i cube)) (range 8);
     co := map (fun i => u8 (Cube.getCornerOrientation i cube)) (range 8);
     ep := map (fun i => u8 (Cube.getEdgePermutation i cube)) (range 12);
     eo := map (fun i => u8 (Cube.getEdgeOrientation i cube)) (range 12) |}.

Definition cornerOriCoord (co : list Z) : Z :=
  fold_left (fun coord i => coord * 3 + Z.rem (nth i co 0) 3) (range 7) 0.

(** The loop runs [i = 6 .. 0]; its state is [(co, sum, coord)]. *)
Definition cornerOriFromCoord (coord : Z) : list Z :=
  let '(co, sum, _) :=
    fold_left (fun '(co, sum, coord) i =>
      let co := upd i (u8 (Z.rem coord 3)) co in
      (co, sum + nth i co 0, Z.quot coord 3))
    (rev (range 7)) (repeat 0 8, 0, coord) in
  upd 7 (u8 (Z.rem (3 - Z.rem sum 3) 3)) co.

Definition edgeOriCoord (eo : list Z) : Z :=
  fold_left (fun coord i => coord * 2 + Z.land (nth i eo 0) 1) (range 11) 0.

Definition edgeOriFromCoord (coord : Z) : list Z :=
  let '(eo, sum, _) :=
    fold_left (fun '(eo, sum, coord) i =>
      let eo := upd i (u8 (Z.land coord 1)) eo in
      (eo, Z.lxor sum (nth i eo 0), Z.shiftr coord 1))
    (rev (range 11)) (repeat 0 12, 0, coord) in
  upd 11 (u8 (Z.land sum 1)) eo.

(** The loop runs [i = 11 .. 0]; its state is [(coord, k)].  [k] is the
    [int] of the source and may go below zero. *)
Definition sliceCoord (ep : list Z) : Z :=
  fst (fold_left (fun '(coord, k) i =>
         let isSlice := nth i ep 0 >=? 8 in
         if isSlice then (coord, k - 1)
         else if k >? 0 then (coord + kBinom i (Z.to_nat k), k)
         else (coord, k))
       (rev (range 12)) (0, 4)).

Definition sliceFromCoord (coord : Z) : list Z :=
  let '(isSlicePos, _, _) :=
    fold_left (fun '(isSlicePos, coord, k) i =>
      if k =? 0 then (upd i false isSlicePos, coord, k)
      else
        let c := kBinom i (Z.to_nat k) in
        if coord >=? c then (upd i false isSlicePos, coord - c, k)
        else (upd i true isSlicePos, coord, k - 1))
    (rev (range 12)) (repeat false 12, coord, 4) in
  let '(ep, _, _) :=
    fold_left (fun '(ep, nextNS, nextSlice) i =>
      if nth i isSlicePos false
      then (upd i (u8 nextSlice) ep, nextNS, nextSlice + 1)
      else (upd i (u8 nextNS) ep, nextNS + 1, nextSlice))
    (range 12) (repeat 0 12, 0, 8) in
  ep.

(** [perm8Coord] and [perm4Coord] are one body, with [n] and the factorial
    table changed. *)
Definition permCoord (n : nat) (kFact : list Z) (p : list Z) : Z :=
  fold_left (fun coord i =>
    let cnt :=
      fold_left (fun cnt j =>
        cnt + (if nth j p 0 <? nth i p 0 then 1 else 0))
        (seq (i + 1) (n - (i + 1))) 0 in
    coord + cnt * nth (n - 1 - i) kFact 0)
  (range n) 0.

Definition perm8Coord (p : list Z) : Z := permCoord 8 kFact8 p.
Definition perm4Coord (p : list Z) : Z := permCoord 4 kFact4 p.

(** [perm8FromCoord] and [perm4FromCoord]: the loop state is
    [(p, elems, coord, remaining)]; the inner loop closes the gap left by
    the element taken out. *)
Definition permFromCoord (n : nat) (kFact : list Z) (coord : Z) : list Z :=
  let '(p, _, _, _) :=
    fold_left (fun '(p, elems, coord, remaining) i =>
      let fact := nth (remaining - 1) kFact 0 in
      let idx := Z.to_nat (Z.quot coord fact) in
      let coord := Z.rem coord fact in
      let p := upd i (nth idx elems 0) p in
      let elems :=
        fold_left (fun elems j => upd j (nth (j + 1) elems 0) elems)
          (seq idx (remaining - 1 - idx)) elems in
      (p, elems, coord, (remaining - 1)%nat))
    (range n) (repeat 0 n, map Z.of_nat (range n), coord, n) in
  p.

Definition perm8FromCoord (coord : Z) : list Z := permFromCoord 8 kFact8 coord.
Definition perm4FromCoord (coord : Z) : list Z := permFromCoord 4 kFact4 coord.

(** *** [struct Tables]

    The four move-effect arrays and [invMove] are grouped in
    [MoveEffects]; they are all that [Tables::applyMove] reads. *)

Record MoveEffects : Type := mkEffects {
  cPos : list (list Z);
  cOri : list (list Z);
  ePos : list (list Z);
  eOri : list (list Z);
  invMove : list Z
}.

Record Tables : Type := mkTables {
  effects : MoveEffects;
  coMove : list (list Z);     (* [2187][18] *)
  eoMove : list (list Z);     (* [2048][18] *)
  sliceMove : list (list Z);  (* [495][18] *)
  cpMove : list (list Z);     (* [40320][10] *)
  epMove : list (list Z);     (* [40320][10] *)
  spMove : list (list Z);     (* [24][10] *)
  pruneCoSlice : list Z;      (* [2187*495] *)
  pruneEoSlice : list Z;      (* [2048*495] *)
  pruneCpSp : list Z;         (* [40320*24] *)
  pruneEpSp : list Z          (* [40320*24] *)
}.

(** [v[i]] and [v[i][k]] with [int] indices.  The source does not check
    them; an index outside the vector, which the source leaves undefined,
    reads 0 here.  [SolverChecked] below has the searches with these reads
    checked. *)
Definition idx1 (v : list Z) (i : Z) : Z := nth (Z.to_nat i) v 0.
Definition idx2 (v : list (list Z)) (i k : Z) : Z :=
  nth (Z.to_nat k) (nth (Z.to_nat i) v []) 0.

(** [Tables::applyMove] *)
Definition applyMove (e : MoveEffects) (cc : CubieCube) (move : Z) : CubieCube :=
  {| cp := map (fun i =>
             let oldPos := idx2 (cPos e) move (Z.of_nat i) in
             idx1 (cp cc) oldPos) (range 8);
     co := map (fun i =>
             let oldPos := idx2 (cPos e) move (Z.of_nat i) in
             u8 (Z.rem (idx1 (co cc) oldPos + idx2 (cOri e) move (Z.of_nat i)) 3))
           (range 8);
     ep := map (fun i =>
             let oldPos := idx2 (ePos e) move (Z.of_nat i) in
             idx1 (ep cc) oldPos) (range 12);
     eo := map (fun i =>
             let oldPos := idx2 (ePos e) move (Z.of_nat i) in
             u8 (Z.lxor (idx1 (eo cc) oldPos) (idx2 (eOri e) move (Z.of_nat i))))
           (range 12) |}.

(** [Tables::init], its first loop: the effect of each of the 18 moves on
    a freshly reset cube, read back through [toCubie]. *)
Definition initEffects : MoveEffects :=
  let mv m := toCubie (Cube.applyMove m Cube.reset) in
  {| cPos := map (fun m => cp (mv m)) allMoves;
     cOri := map (fun m => co (mv m)) allMoves;
     ePos := map (fun m => ep (mv m)) allMoves;
     eOri := map (fun m => eo (mv m)) allMoves;
     invMove := map (fun m => moveIndex (Cube.inverseMove m)) allMoves |}.

(** The [assert]s of [Tables::init] on the reset cube. *)
Definition initAsserts : bool :=
  let solved := toCubie Cube.reset in
  forallb (fun i => nth i (cp solved) 0 =? Z.of_nat i) (range 8)
  && forallb (fun i => nth i (ep solved) 0 =? Z.of_nat i) (range 12).

Definition moveAllowedPrune (move lastMove : Z) : bool :=
  if lastMove <? 0 then true
  else
    let face := Z.quot move 3 in
    let lastFace := Z.quot lastMove 3 in
    if face =? lastFace then false
    else if (Z.quot face 2 =? Z.quot lastFace 2) && (face <? lastFace) then false
    else true.

(** [Solver::moveAllowed] *)
Definition moveAllowed (move lastMove : Z) : bool :=
  if lastMove <? 0 then true
  else
    let face := Z.quot move 3 in
    let lastFace := Z.quot lastMove 3 in
    if face =? lastFace then false
    else if (Z.quot face 2 =? Z.quot lastFace 2) && (face <? lastFace) then false
    else true.

Definition edgePermCoord8_fromEp (ep : list Z) : Z :=
  perm8Coord (map (fun i => nth i ep 0) (range 8)).

Definition slicePermCoord_fromEp (ep : list Z) : Z :=
  perm4Coord (map (fun i => u8 (nth (8 + i) ep 0 - 8)) (range 4)).

(** *** What [solve] shares with its caller

    The caller's cube (passed by reference), the cancel flag and the
    progress counters (both by pointer, either may be null).  Another
    thread may write the cancel flag at any time: [cancel] gives the value
    the [k]-th load observes, and [polls] counts the loads made so far. *)

Record SolverProgress : Type := mkProgress { nodes : Z; depth : Z }.

Record World : Type := mkWorld {
  cube : Cube.State;
  cancel : option (nat -> bool);
  polls : nat;
  progress : option SolverProgress
}.

(** [cancel && cancel->load(std::memory_order_relaxed)] *)
Definition cancelled (w : World) : bool * World :=
  match cancel w with
  | None => (false, w)
  | Some flag =>
      (flag (polls w),
       {| cube := cube w; cancel := cancel w; polls := S (polls w);
          progress := progress w |})
  end.

Definition withProgress (f : SolverProgress -> SolverProgress) (w : World) : World :=
  {| cube := cube w; cancel := cancel w; polls := polls w;
     progress := option_map f (progress w) |}.

(** [if (progress) progress->nodes.fetch_add(1, ...)] *)
Definition countNode : World -> World :=
  withProgress (fun p => {| nodes := u64 (nodes p + 1); depth := depth p |}).

(** [if (progress) progress->depth.store(d, ...)] *)
Definition storeDepth (d : Z) : World -> World :=
  withProgress (fun p => {| nodes := nodes p; depth := d |}).

(** [if (progress) progress->nodes.store(0, ...)] *)
Definition storeNodes (n : Z) : World -> World :=
  withProgress (fun p => {| nodes := n; depth := depth p |}).

(** A [for] loop whose body may [return]: [inl s] is the state after the
    last iteration, [inr r] the value returned from inside the loop. *)
Fixpoint forUntil {X S R : Type} (body : X -> S -> S + R) (xs : list X) (s : S)
    : S + R :=
  match xs with
  | [] => inl s
  | x :: rest =>
      match body x s with
      | inl s' => forUntil body rest s'
      | inr r => inr r
      end
  end.

(** [searchPhase2]; [path] is passed by reference, so it is returned next
    to the result.  [depth] only counts down from a non-negative start. *)
Fixpoint searchPhase2 (t : Tables) (cp ep sp : Z) (depth : nat) (lastMove : Z)
    (path : list Z) (w : World) : bool * list Z * World :=
  let (c, w) := cancelled w in
  if c then (false, path, w) else
  let w := countNode w in
  let idx := cp * kSP + sp in
  let h1 := idx1 (pruneCpSp t) idx in
  let h2 := idx1 (pruneEpSp t) (ep * kSP + sp) in
  let h := Z.max h1 h2 in
  if h >? Z.of_nat depth then (false, path, w) else
  match depth with
  | O => ((cp =? 0) && (ep =? 0) && (sp =? 0), path, w)
  | S depth' =>
      match
        forUntil (fun mi '(path, w) =>
          let move := nth mi kPhase2Moves 0 in
          if negb (moveAllowedPrune move lastMove) then inl (path, w) else
          let ncp := idx2 (cpMove t) cp (Z.of_nat mi) in
          let nep := idx2 (epMove t) ep (Z.of_nat mi) in
          let nsp := idx2 (spMove t) sp (Z.of_nat mi) in
          let path := path ++ [move] in
          let '(found, path, w) :=
            searchPhase2 t ncp nep nsp depth' move path w in
          if found then inr (true, path, w)
          else inl (removelast path, w))
        (range kNumPhase2Moves) (path, w)
      with
      | inl (path, w) => (false, path, w)
      | inr r => r
      end
  end.

(** The references [searchPhase1] writes through. *)
Record Phase1State : Type := mkP1 {
  p1_cc : CubieCube;
  p1_path1 : list Z;
  p1_outPhase2 : list Z;
  p1_world : World
}.

Fixpoint searchPhase1 (t : Tables) (depth : nat) (lastMove : Z)
    (maxTotalDepth : Z) (st : Phase1State) : bool * Phase1State :=
  let '(mkP1 cc path1 outPhase2 w) := st in
  let (c, w) := cancelled w in
  if c then (false, mkP1 cc path1 outPhase2 w) else
  let w := countNode w in
  let co_ := cornerOriCoord (co cc) in
  let eo_ := edgeOriCoord (eo cc) in
  let sl := sliceCoord (ep cc) in
  let h1 := idx1 (pruneCoSlice t) (co_ * kSLICE + sl) in
  let h2 := idx1 (pruneEoSlice t) (eo_ * kSLICE + sl) in
  let h := Z.max h1 h2 in
  if h >? Z.of_nat depth then (false, mkP1 cc path1 outPhase2 w) else
  match depth with
  | O =>
      if negb ((co_ =? 0) && (eo_ =? 0) && (sl =? 0))
      then (false, mkP1 cc path1 outPhase2 w) else
      let cp_ := perm8Coord (cp cc) in
      let ep_ := edgePermCoord8_fromEp (ep cc) in
      let sp_ := slicePermCoord_fromEp (ep cc) in
      let maxDepth2 := maxTotalDepth - Z.of_nat (length path1) in
      match
        forUntil (fun d2 '(outPhase2, w) =>
          let '(found, path2, w) := searchPhase2 t cp_ ep_ sp_ d2 (-1) [] w in
          if found then inr (true, path2, w)
          else
            let (c, w) := cancelled w in
            if c then inr (false, outPhase2, w) else inl (outPhase2, w))
        (range (Z.to_nat (maxDepth2 + 1))) (outPhase2, w)
      with
      | inl (outPhase2, w) => (false, mkP1 cc path1 outPhase2 w)
      | inr (r, outPhase2, w) => (r, mkP1 cc path1 outPhase2 w)
      end
  | S depth' =>
      match
        forUntil (fun mi st =>
          let m := Z.of_nat mi in
          if negb (moveAllowedPrune m lastMove) then inl st else
          let '(mkP1 cc path1 outPhase2 w) := st in
          let cc := applyMove (effects t) cc m in
          let path1 := path1 ++ [m] in
          let '(found, st) :=
            searchPhase1 t depth' m maxTotalDepth (mkP1 cc path1 outPhase2 w) in
          if found then inr (true, st)
          else
            let '(mkP1 cc path1 outPhase2 w) := st in
            inl (mkP1 (applyMove (effects t) cc (idx1 (invMove (effects t)) m))
                      (removelast path1) outPhase2 w))
        (range kNumMoves) (mkP1 cc path1 outPhase2 w)
      with
      | inl st => (false, st)
      | inr r => r
      end
  end.

(** [static_cast<Move>(m)] on the entries of a path; they are loop indices
    below 18 or entries of [kPhase2Moves]. *)
Definition toMove (i : Z) : Move :=
  match moveOfIndex i with Some m => m | None => U end.

Definition kMaxPhase1 : nat := 12.
Definition kMaxTotal : Z := 31.

(** [Solver::solve(cube, cancel, progress)].  [t] is what [tables()]
    returns. *)
Definition solve (t : Tables) (w : World) : list Move * World :=
  if Cube.isSolved (cube w) then ([], w) else
  if negb (Cube.isSolvable (cube w)) then ([], w) else
  let (c, w) := cancelled w in
  if c then ([], w) else
  let w := storeDepth (-1) (storeNodes 0 w) in
  let w := storeDepth 0 w in
  let start := toCubie (cube w) in
  match
    forUntil (fun d1 w =>
      let (c, w) := cancelled w in
      if c then inr ([], w) else
      let w := storeDepth (Z.of_nat d1) w in
      let '(found, st) :=
        searchPhase1 t d1 (-1) kMaxTotal (mkP1 start [] [] w) in
      if found
      then inr (map toMove (p1_path1 st) ++ map toMove (p1_outPhase2 st),
                p1_world st)
      else inl (p1_world st))
    (range (S kMaxPhase1)) w
  with
  | inl w => ([], w)
  | inr r => r
  end.

(** *** [Tables::init]: the six move tables

    One row for each coordinate value, one column for each move; a row is
    made from the solved cubie state with one array replaced by the
    decoded coordinate.  The four pruning vectors, filled breadth-first
    from these tables, are not built here: the searches take them as they
    come in [Tables]. *)

(** [CubieCube solved = toCubie(base)] *)
Definition solved : CubieCube := toCubie Cube.reset.

Definition initCoMove : list (list Z) :=
  map (fun co_ =>
      let cc := mkCubie (cp solved) (cornerOriFromCoord co_) (ep solved)
                  (eo solved) in
      map (fun m =>
          let t := applyMove initEffects cc (Z.of_nat m) in
          u16 (cornerOriCoord (co t)))
        (range kNumMoves))
    (zrange kCO).

Definition initEoMove : list (list Z) :=
  map (fun eo_ =>
      let cc := mkCubie (cp solved) (co solved) (ep solved)
                  (edgeOriFromCoord eo_) in
      map (fun m =>
          let t := applyMove initEffects cc (Z.of_nat m) in
          u16 (edgeOriCoord (eo t)))
        (range kNumMoves))
    (zrange kEO).

Definition initSliceMove : list (list Z) :=
  map (fun sl =>
      let cc := mkCubie (cp solved) (co solved) (sliceFromCoord sl)
                  (eo solved) in
      map (fun m =>
          let t := applyMove initEffects cc (Z.of_nat m) in
          u16 (sliceCoord (ep t)))
        (range kNumMoves))
    (zrange kSLICE).

Definition initCpMove : list (list Z) :=
  map (fun cp_ =>
      let cc := mkCubie (perm8FromCoord cp_) (co solved) (ep solved)
                  (eo solved) in
      map (fun mi =>
          let move := nth mi kPhase2Moves 0 in
          let t := applyMove initEffects cc move in
          u16 (perm8Coord (cp t)))
        (range kNumPhase2Moves))
    (zrange kCP).

(** The eight entries of [perm] go to the positions 0..7 and the slice
    edges stay at 8..11. *)
Definition initEpMove : list (list Z) :=
  map (fun ep_ =>
      let perm := perm8FromCoord ep_ in
      let cc := mkCubie (cp solved) (co solved)
                  (map (fun i => nth i perm 0) (range 8)
                   ++ map (fun i => u8 (Z.of_nat i)) (seq 8 4))
                  (eo solved) in
      map (fun mi =>
          let move := nth mi kPhase2Moves 0 in
          let t := applyMove initEffects cc move in
          let p := map (fun i => nth i (ep t) 0) (range 8) in
          u16 (perm8Coord p))
        (range kNumPhase2Moves))
    (zrange kEP).

Definition initSpMove : list (list Z) :=
  map (fun sp_ =>
      let p4 := perm4FromCoord sp_ in
      let cc := mkCubie (cp solved) (co solved)
                  (map (fun i => u8 (Z.of_nat i)) (range 8)
                   ++ map (fun i => u8 (8 + nth i p4 0)) (range 4))
                  (eo solved) in
      map (fun mi =>
          let move := nth mi kPhase2Moves 0 in
          let t := applyMove initEffects cc move in
          let q := map (fun i => u8 (nth (8 + i) (ep t) 0 - 8)) (range 4) in
          u8 (perm4Coord q))
        (range kNumPhase2Moves))
    (zrange kSP).

End Solver.

(** ** solver.cpp: the searches with their vector subscripts checked

    [Solver.idx1] and [Solver.idx2] give a value at every index.  The
    source subscripts its [std::vector] tables with [operator[]], which has
    no defined result outside the vector and ends the process in a build
    that checks bounds.  The three functions below are [searchPhase2],
    [searchPhase1] and [Solver::solve] again, statement for statement,
    with every subscript of a [std::vector] checked against its length:
    [None] is a run that reaches a subscript outside its vector.  The
    [std::array] subscripts of [Tables::applyMove] and [invMove] are loop
    variables and entries of the effect arrays and stay as in [Solver]. *)

Module SolverChecked.
Import Solver.

(** [v[i]] on a [std::vector]: defined inside the vector only. *)
Definition vectorAt (v : list Z) (i : Z) : option Z :=
  if (0 <=? i) && (i <? Z.of_nat (length v)) then Some (idx1 v i) else None.

(** [v[i][k]] on a [std::vector] of [std::array] rows. *)
Definition tableAt (v : list (list Z)) (i k : Z) : option Z :=
  if (0 <=? i) && (i <? Z.of_nat (length v))
  then vectorAt (nth (Z.to_nat i) v []) k
  else None.

Notation "'read' x <- e 'orelse' stop ; k" :=
  (match e with Some x => k | None => stop end)
  (at level 10, x name, e at level 200, stop at level 200, k at level 200,
   only parsing).

Fixpoint searchPhase2 (t : Tables) (cp ep sp : Z) (depth : nat) (lastMove : Z)
    (path : list Z) (w : World) : option (bool * list Z * World) :=
  let (c, w) := cancelled w in
  if c then Some (false, path, w) else
  let w := countNode w in
  let idx := cp * kSP + sp in
  read h1 <- vectorAt (pruneCpSp t) idx orelse None;
  read h2 <- vectorAt (pruneEpSp t) (ep * kSP + sp) orelse None;
  let h := Z.max h1 h2 in
  if h >? Z.of_nat depth then Some (false, path, w) else
  match depth with
  | O => Some ((cp =? 0) && (ep =? 0) && (sp =? 0), path, w)
  | S depth' =>
      match
        forUntil (fun mi '(path, w) =>
          let move := nth mi kPhase2Moves 0 in
          if negb (moveAllowedPrune move lastMove) then inl (path, w) else
          read ncp <- tableAt (cpMove t) cp (Z.of_nat mi) orelse inr None;
          read nep <- tableAt (epMove t) ep (Z.of_nat mi) orelse inr None;
          read nsp <- tableAt (spMove t) sp (Z.of_nat mi) orelse inr None;
          let path := path ++ [move] in
          read r <- searchPhase2 t ncp nep nsp depth' move path w orelse inr None;
          let '(found, path, w) := r in
          if found then inr (Some (true, path, w))
          else inl (removelast path, w))
        (range kNumPhase2Moves) (path, w)
      with
      | inl (path, w) => Some (false, path, w)
      | inr r => r
      end
  end.

Fixpoint searchPhase1 (t : Tables) (depth : nat) (lastMove : Z)
    (maxTotalDepth : Z) (st : Phase1State) : option (bool * Phase1State) :=
  let '(mkP1 cc path1 outPhase2 w) := st in
  let (c, w) := cancelled w in
  if c then Some (false, mkP1 cc path1 outPhase2 w) else
  let w := countNode w in
  let co_ := cornerOriCoord (co cc) in
  let eo_ := edgeOriCoord (eo cc) in
  let sl := sliceCoord (ep cc) in
  read h1 <- vectorAt (pruneCoSlice t) (co_ * kSLICE + sl) orelse None;
  read h2 <- vectorAt (pruneEoSlice t) (eo_ * kSLICE + sl) orelse None;
  let h := Z.max h1 h2 in
  if h >? Z.of_nat depth then Some (false, mkP1 cc path1 outPhase2 w) else
  match depth with
  | O =>
      if negb ((co_ =? 0) && (eo_ =? 0) && (sl =? 0))
      then Some (false, mkP1 cc path1 outPhase2 w) else
      let cp_ := perm8Coord (cp cc) in
      let ep_ := edgePermCoord8_fromEp (ep cc) in
      let sp_ := slicePermCoord_fromEp (ep cc) in
      let maxDepth2 := maxTotalDepth - Z.of_nat (length path1) in
      match
        forUntil (fun d2 '(outPhase2, w) =>
          read r <- searchPhase2 t cp_ ep_ sp_ d2 (-1) [] w orelse inr None;
          let '(found, path2, w) := r in
          if found then inr (Some (true, path2, w))
          else
            let (c, w) := cancelled w in
            if c then inr (Some (false, outPhase2, w)) else inl (outPhase2, w))
        (range (Z.to_nat (maxDepth2 + 1))) (outPhase2, w)
      with
      | inl (outPhase2, w) => Some (false, mkP1 cc path1 outPhase2 w)
      | inr None => None
      | inr (Some (r, outPhase2, w)) => Some (r, mkP1 cc path1 outPhase2 w)
      end
  | S depth' =>
      match
        forUntil (fun mi st =>
          let m := Z.of_nat mi in
          if negb (moveAllowedPrune m lastMove) then inl st else
          let '(mkP1 cc path1 outPhase2 w) := st in
          let cc := applyMove (effects t) cc m in
          let path1 := path1 ++ [m] in
          read r <- searchPhase1 t depth' m maxTotalDepth
                      (mkP1 cc path1 outPhase2 w) orelse inr None;
          let '(found, st) := r in
          if found then inr (Some (true, st))
          else
            let '(mkP1 cc path1 outPhase2 w) := st in
            inl (mkP1 (applyMove (effects t) cc (idx1 (invMove (effects t)) m))
                      (removelast path1) outPhase2 w))
        (range kNumMoves) (mkP1 cc path1 outPhase2 w)
      with
      | inl st => Some (false, st)
      | inr r => r
      end
  end.

(** [Solver::solve]; [t] is what [tables()] returns.  The subscripts that
    [Tables::init] itself takes while it fills the pruning vectors are not
    part of this model. *)
Definition solve (t : Tables) (w : World) : option (list Move * World) :=
  if Cube.isSolved (cube w) then Some ([], w) else
  if negb (Cube.isSolvable (cube w)) then Some ([], w) else
  let (c, w) := cancelled w in
  if c then Some ([], w) else
  let w := storeDepth (-1) (storeNodes 0 w) in
  let w := storeDepth 0 w in
  let start := toCubie (cube w) in
  match
    forUntil (fun d1 w =>
      let (c, w) := cancelled w in
      if c then inr (Some ([], w)) else
      let w := storeDepth (Z.of_nat d1) w in
      read r <- searchPhase1 t d1 (-1) kMaxTotal (mkP1 start [] [] w)
        orelse inr None;
      let '(found, st) := r in
      if found
      then inr (Some (map toMove (p1_path1 st) ++ map toMove (p1_outPhase2 st),
                      p1_world st))
      else inl (p1_world st))
    (range (S kMaxPhase1)) w
  with
  | inl w => Some ([], w)
  | inr r => r
  end.

End SolverChecked.

(** ** tests/test_main.cpp: the physical reference model

    The test program moves stickers by rotating cubie coordinates, with no
    use of [Cube::applyMove], and compares the two on the reset cube. *)

Module Physical.

Record Vec3i : Type := mkVec { vx : Z; vy : Z; vz : Z }.

(** [pos]: cubie position, components in {-1, 0, 1}; [dir]: the face the
    sticker looks out of. *)
Record StickerLoc : Type := mkLoc { pos : Vec3i; dir : Z }.

Definition dirToVec (dir : Z) : Vec3i :=
  match dir with
  | 0 => mkVec 0 1 0
  | 1 => mkVec 0 (-1) 0
  | 2 => mkVec (-1) 0 0
  | 3 => mkVec 1 0 0
  | 4 => mkVec 0 0 1
  | 5 => mkVec 0 0 (-1)
  | _ => mkVec 0 0 0
  end.

Definition vecToDir (v : Vec3i) : Z :=
  if (vx v =? 0) && (vy v =? 1) && (vz v =? 0) then 0
  else if (vx v =? 0) && (vy v =? -1) && (vz v =? 0) then 1
  else if (vx v =? -1) && (vy v =? 0) && (vz v =? 0) then 2
  else if (vx v =? 1) && (vy v =? 0) && (vz v =? 0) then 3
  else if (vx v =? 0) && (vy v =? 0) && (vz v =? 1) then 4
  else if (vx v =? 0) && (vy v =? 0) && (vz v =? -1) then 5
  else -1.

Definition rotate90 (v : Vec3i) (axis sign : Z) : Vec3i :=
  if negb (sign =? 1) && negb (sign =? -1) then v
  else
    match axis with
    | 0 => if sign >? 0 then mkVec (vx v) (- vz v) (vy v)
           else mkVec (vx v) (vz v) (- vy v)
    | 1 => if sign >? 0 then mkVec (vz v) (vy v) (- vx v)
           else mkVec (- vz v) (vy v) (vx v)
    | 2 => if sign >? 0 then mkVec (- vy v) (vx v) (vz v)
           else mkVec (vy v) (- vx v) (vz v)
    | _ => v
    end.

Definition rotateSticker (loc : StickerLoc) (axis turns : Z) : StickerLoc :=
  if turns =? 0 then loc
  else
    let sign := if turns >? 0 then 1 else -1 in
    let n := if turns >? 0 then turns else - turns in
    fold_left (fun loc _ =>
        let p := rotate90 (pos loc) axis sign in
        let dv := rotate90 (dirToVec (dir loc)) axis sign in
        mkLoc p (vecToDir dv))
      (range (Z.to_nat n)) loc.

Definition indexToLoc (globalIndex : Z) : StickerLoc :=
  let face := Z.quot globalIndex 9 in
  let p := Z.rem globalIndex 9 in
  let row := Z.quot p 3 in
  let col := Z.rem p 3 in
  match face with
  | 0 => mkLoc (mkVec (col - 1) 1 (row - 1)) face
  | 1 => mkLoc (mkVec (col - 1) (-1) (1 - row)) face
  | 2 => mkLoc (mkVec (-1) (1 - row) (col - 1)) face
  | 3 => mkLoc (mkVec 1 (1 - row) (1 - col)) face
  | 4 => mkLoc (mkVec (col - 1) (1 - row) 1) face
  | 5 => mkLoc (mkVec (1 - col) (1 - row) (-1)) face
  | _ => mkLoc (mkVec 0 0 0) face
  end.

Definition locToIndex (loc : StickerLoc) : Z :=
  let p := Cube.faceletIndexFor (dir loc) (vx (pos loc)) (vy (pos loc))
             (vz (pos loc)) in
  if p <? 0 then -1 else dir loc * 9 + p.

Definition kAxis : list Z := [1; 1; 0; 0; 2; 2].
Definition kLayer : list Z := [1; -1; -1; 1; 1; -1].
Definition kCwTurns : list Z := [-1; 1; 1; -1; -1; 1].

(** The three values [moveToAxisLayerTurns] writes through its reference
    parameters. *)
Definition moveToAxisLayerTurns (m : Move) : Z * Z * Z :=
  let idx := moveIndex m in
  let face := Z.to_nat (Z.quot idx 3) in
  let type := Z.rem idx 3 in
  let axis := nth face kAxis 0 in
  let layer := nth face kLayer 0 in
  let cw := nth face kCwTurns 0 in
  let turns := if type =? 0 then cw else if type =? 1 then - cw else 2 in
  (axis, layer, turns).

(** [applyMovePhysical]: [out] starts value-initialised, that is all
    [Color::White]; [written] is filled next to it and never read. *)
Definition applyMovePhysical (inp : Cube.State) (m : Move) : Cube.State :=
  let '(axis, layer, turns) := moveToAxisLayerTurns m in
  let '(out, _) :=
    fold_left (fun '(out, written) i =>
        let loc := indexToLoc (Z.of_nat i) in
        let coord :=
          if axis =? 0 then vx (pos loc)
          else if axis =? 1 then vy (pos loc) else vz (pos loc) in
        let loc := if coord =? layer then rotateSticker loc axis turns else loc in
        let j := locToIndex loc in
        if (j <? 0) || (j >=? 54) then (out, written)
        else (Cube.set out (Z.to_nat j) (Cube.get inp i),
              upd (Z.to_nat j) true written))
      (range 54) (repeat White 54, repeat false 54) in
  out.

End Physical.

(** * Vocabulary of the statements

    The definitions the properties below are stated with: counts, piece
    lists, invariants, test inputs.  None of them is part of the program. *)

(** [start, start+1, ...], [len] integers. *)
Fixpoint zseq (start : Z) (len : nat) : list Z :=
  match len with
  | O => []
  | S len' => start :: zseq (start + 1) len'
  end.

(** A boolean test run on [0 .. n-1]; when it passes, the test holds at
    every integer of that range: the bridge from an exhaustive run to a
    quantified fact. *)
Definition allBelow (n : Z) (P : Z -> bool) : bool :=
  forallb P (zseq 0 (Z.to_nat n)).

(** Modelled on the spec's words: the face a move turns, in the order
    [U, D, L, R, F, B = 0..5], and the three pairs of opposite faces. *)
Definition faceOfMove (m : Move) : Z :=
  match m with
  | U | Up | U2 => 0
  | D | Dp | D2 => 1
  | L | Lp | L2 => 2
  | R | Rp | R2 => 3
  | F | Fp | F2 => 4
  | B | Bp | B2 => 5
  end.

Definition oppositeFaces (f g : Z) : bool :=
  match f, g with
  | 0, 1 | 1, 0 | 2, 3 | 3, 2 | 4, 5 | 5, 4 => true
  | _, _ => false
  end.

(** Modelled on the spec's words: clockwise and counter-clockwise quarter
    turns of a face are exchanged, half turns stay. *)
Definition flipTurn (m : Move) : Move :=
  match m with
  | U => Up | Up => U | U2 => U2
  | D => Dp | Dp => D | D2 => D2
  | L => Lp | Lp => L | L2 => L2
  | R => Rp | Rp => R | R2 => R2
  | F => Fp | Fp => F | F2 => F2
  | B => Bp | Bp => B | B2 => B2
  end.

(** [f x == x], as a test to run. *)
Definition fixedAt (f : Z -> Z) (x : Z) : bool := f x =? x.

(** The twelve edge positions with the four slice edges in the positions
    [UR, UF, UL, UB]. *)
Definition sliceEdgesOnTop : list Z := [8; 9; 10; 11; 0; 1; 2; 3; 4; 5; 6; 7].

(** [w'] is [w] after some loads of the cancel flag and some stores to the
    progress counters: same cube, same flag. *)
Definition sameCube (w w' : Solver.World) : Prop :=
  Solver.cube w' = Solver.cube w /\ Solver.cancel w' = Solver.cancel w.

(** What a phase-2 search does to [path]: a failed search leaves it as it
    was, a successful one has appended exactly [d] moves. *)
Definition path2Post (d : nat) (path : list Z)
    (r : bool * list Z * Solver.World) : Prop :=
  let '(found, path', _) := r in
  if found then length path' = (length path + d)%nat else path' = path.

(** What a phase-1 search does to [path1] and [outPhase2]: a failed search
    leaves [path1] as it was; a successful one has appended [d] moves and
    left in [outPhase2] no more moves than the total depth allows. *)
Definition path1Post (d : nat) (maxTotalDepth : Z) (st : Solver.Phase1State)
    (r : bool * Solver.Phase1State) : Prop :=
  let '(found, st') := r in
  if found
  then length (Solver.p1_path1 st') = (length (Solver.p1_path1 st) + d)%nat
       /\ Z.of_nat (length (Solver.p1_path1 st'))
          + Z.of_nat (length (Solver.p1_outPhase2 st')) <= maxTotalDepth
  else Solver.p1_path1 st' = Solver.p1_path1 st.

(** Tables with the move effects of [Tables::init] and nothing else: the
    statements below hold for any content of the tables, and this is the
    one the examples run on. *)
Definition effectsOnly : Solver.Tables :=
  Solver.mkTables Solver.initEffects [] [] [] [] [] [] [] [] [] [].

(** The colours at a corner position, in the order of [cornerFacelets],
    and at an edge position, in the order of [edgeFacelets]. *)
Definition cornerTriple (s : Cube.State) (pos : nat) : Color * Color * Color :=
  (Cube.get s (Cube.cornerFacelet pos 0),
   Cube.get s (Cube.cornerFacelet pos 1),
   Cube.get s (Cube.cornerFacelet pos 2)).

Definition edgePair (s : Cube.State) (pos : nat) : Color * Color :=
  (Cube.get s (Cube.edgeFacelet pos 0), Cube.get s (Cube.edgeFacelet pos 1)).

Definition cornerOf3 (c : Color * Color * Color) : Z :=
  let '(c0, c1, c2) := c in Cube.cornerOf c0 c1 c2.
Definition twistOf3 (c : Color * Color * Color) : Z :=
  let '(c0, c1, _) := c in Cube.twistOf c0 c1.
Definition edgeOf2 (c : Color * Color) : Z := Cube.edgeOf (fst c) (snd c).
Definition flipOf2 (c : Color * Color) : Z := Cube.flipOf (fst c) (snd c).

(** A corner twisted by [t] thirds of a turn: the colour that was read
    first is read at place [t]. An edge flipped [f] times. *)
Definition rot3 (t : Z) (c : Color * Color * Color) : Color * Color * Color :=
  let '(c0, c1, c2) := c in
  if t =? 0 then (c0, c1, c2)
  else if t =? 1 then (c2, c0, c1)
  else (c1, c2, c0).

Definition flip2 (f : Z) (c : Color * Color) : Color * Color :=
  if f =? 0 then c else (snd c, fst c).

(** The entries of the move-effect arrays that [Tables::init] derives. *)
Definition srcCorner (m : Move) (i : nat) : nat :=
  Z.to_nat (Solver.idx2 (Solver.cPos Solver.initEffects) (moveIndex m) (Z.of_nat i)).
Definition twCorner (m : Move) (i : nat) : Z :=
  Solver.idx2 (Solver.cOri Solver.initEffects) (moveIndex m) (Z.of_nat i).
Definition srcEdge (m : Move) (i : nat) : nat :=
  Z.to_nat (Solver.idx2 (Solver.ePos Solver.initEffects) (moveIndex m) (Z.of_nat i)).
Definition flEdge (m : Move) (i : nat) : Z :=
  Solver.idx2 (Solver.eOri Solver.initEffects) (moveIndex m) (Z.of_nat i).

(** A 54-facelet array in which every corner position and every edge
    position shows the colours of a cubie of the real cube. *)
Definition allCubiesReal (s : Cube.State) : Prop :=
  (forall i, (i < 8)%nat -> Cube.getCornerPermutation i s <> -1)
  /\ (forall i, (i < 12)%nat -> Cube.getEdgePermutation i s <> -1).

Definition allCubiesRealb (s : Cube.State) : bool :=
  forallb (fun i => negb (Cube.getCornerPermutation i s =? -1)) (range 8)
  && forallb (fun i => negb (Cube.getEdgePermutation i s =? -1)) (range 12).

(** The reset cube with the stickers [U8] and [F0] exchanged: the corner
    position [URF] shows red, blue, red. *)
Definition stickersSwapped : Cube.State := upd 8 Red (upd 36 White Cube.reset).

(** The arrays of a [CubieCube] as the struct declares them: 8, 8, 12 and
    12 entries of type [uint8_t]. *)
Definition isByte (x : Z) : Prop := 0 <= x < 256.

Definition wfCubie (cc : Solver.CubieCube) : Prop :=
  (length (Solver.cp cc) = 8%nat /\ Forall isByte (Solver.cp cc))
  /\ (length (Solver.co cc) = 8%nat /\ Forall isByte (Solver.co cc))
  /\ (length (Solver.ep cc) = 12%nat /\ Forall isByte (Solver.ep cc))
  /\ (length (Solver.eo cc) = 12%nat /\ Forall isByte (Solver.eo cc)).

Definition sumZ (l : list Z) : Z := fold_right Z.add 0 l.

(** Membership in G1 as the solver tests it at a phase-1 leaf. *)
Definition inG1 (cc : Solver.CubieCube) : Prop :=
  Solver.cornerOriCoord (Solver.co cc) = 0
  /\ Solver.edgeOriCoord (Solver.eo cc) = 0
  /\ Solver.sliceCoord (Solver.ep cc) = 0.

(** [sliceCoord] looks at an edge only through the test [ep[i] >= 8]; the
    4096 patterns of that test over twelve positions can be run. *)
Definition slicePattern (ep : list Z) : list bool := map (fun x => x >=? 8) ep.

Definition patternEp (bs : list bool) : list Z :=
  map (fun b : bool => if b then 8 else 0) bs.

Fixpoint allPatterns (n : nat) : list (list bool) :=
  match n with
  | O => [[]]
  | S n' =>
      map (cons true) (allPatterns n') ++ map (cons false) (allPatterns n')
  end.

Definition topFourSlice (bs : list bool) : bool :=
  nth 8 bs false && nth 9 bs false && nth 10 bs false && nth 11 bs false.

(** A cubie state of G1 for the example: the cube after [U R2 F2 D']. *)
Definition g1Example : Solver.CubieCube :=
  Solver.toCubie (Cube.applyMoves [U; R2; F2; Dp] Cube.reset).

(** All pieces home, the corner at [DRB] twisted once: CO, EO and SLICE
    do not see the eighth corner. *)
Definition lastCornerTwisted : Solver.CubieCube :=
  {| Solver.cp := [0; 1; 2; 3; 4; 5; 6; 7];
     Solver.co := [0; 0; 0; 0; 0; 0; 0; 1];
     Solver.ep := [0; 1; 2; 3; 4; 5; 6; 7; 8; 9; 10; 11];
     Solver.eo := [0; 0; 0; 0; 0; 0; 0; 0; 0; 0; 0; 0] |}.

(** The number of facelets of colour [c]. *)
Definition countColor (c : Color) (s : list Color) : Z :=
  fold_right (fun x n => (if Color_eqb c x then 1 else 0) + n) 0 s.

Definition pieceOK (getP getO : nat -> Z) (n : Z) (oriOK : Z -> bool)
    (i : nat) : bool :=
  (0 <=? getP i) && (getP i <? n) && oriOK (getO i).

(** The pieces and orientations the queries report, position by
    position. *)
Definition cornerPerms (s : Cube.State) : list Z :=
  map (fun i => Cube.getCornerPermutation i s) (range 8).
Definition cornerOris (s : Cube.State) : list Z :=
  map (fun i => Cube.getCornerOrientation i s) (range 8).
Definition edgePerms (s : Cube.State) : list Z :=
  map (fun i => Cube.getEdgePermutation i s) (range 12).
Definition edgeOris (s : Cube.State) : list Z :=
  map (fun i => Cube.getEdgeOrientation i s) (range 12).

(** The running sum [sum = (sum + o) % modulus] over a list. *)
Definition oriSum (modulus : Z) (os : list Z) : Z :=
  fold_left (fun acc o => Z.rem (acc + o) modulus) os 0.

(** Each piece number below [n], none twice. *)
Definition validPieces (n : Z) (ps : list Z) : Prop :=
  Forall (fun p => 0 <= p < n) ps /\ NoDup ps.

(** The five checks of [isSolvable], as a proposition. *)
Definition Solvable (s : Cube.State) : Prop :=
  (forall c, countColor c s = 9)
  /\ validPieces 8 (cornerPerms s)
  /\ oriSum 3 (cornerOris s) = 0
  /\ validPieces 12 (edgePerms s)
  /\ oriSum 2 (edgeOris s) = 0
  /\ Cube.parity (cornerPerms s) 8 = Cube.parity (edgePerms s) 12.

Definition sumOver (g : nat -> Z) (js : list nat) : Z :=
  fold_right (fun j r => g j + r) 0 js.

Definition sumList (h : Z -> Z) (t : list Z) : Z :=
  fold_right (fun y r => h y + r) 0 t.

Definition above (x y : Z) : Z := if x >? y then 1 else 0.

(** The inversions of a list, element by element: each element against
    those after it. *)
Fixpoint invList (l : list Z) : Z :=
  match l with
  | [] => 0
  | x :: t => sumList (above x) t + invList t
  end.

(** Exchange of the entries at positions [k] and [k+1]. *)
Fixpoint adjSwap (k : nat) (l : list Z) : list Z :=
  match k, l with
  | O, a :: b :: t => b :: a :: t
  | S k', a :: t => a :: adjSwap k' t
  | _, _ => l
  end.

Definition swaps (ks : list nat) (l : list Z) : list Z :=
  fold_left (fun acc k => adjSwap k acc) ks l.

(** The list read through a position map: entry [i] is entry [src i] of
    [P]. *)
Definition permuteBy (src : nat -> nat) (n : nat) (P : list Z) : list Z :=
  map (fun i => nth (src i) P 0) (range n).

(** The exchanges of neighbours that a bubble sort of [l] makes, one pass
    with the carried element [a], then [fuel] passes. *)
Fixpoint bubblePass (a : nat) (t : list nat) (pos : nat)
    : list nat * list nat :=
  match t with
  | [] => ([], [a])
  | b :: t' =>
      if (b <? a)%nat
      then let (ks, r) := bubblePass a t' (S pos) in (pos :: ks, b :: r)
      else let (ks, r) := bubblePass b t' (S pos) in (ks, a :: r)
  end.

Fixpoint bubbleSwaps (fuel : nat) (l : list nat) : list nat :=
  match fuel, l with
  | S fuel', a :: t =>
      let (ks, r) := bubblePass a t 0 in ks ++ bubbleSwaps fuel' r
  | _, _ => []
  end.

(** Exchanges that take a list to the list read through [src]. *)
Definition swapsOf (src : nat -> nat) (n : nat) : list nat :=
  rev (bubbleSwaps n (map src (range n))).

Definition cornerSwaps (m : Move) : list nat := swapsOf (srcCorner m) 8.
Definition edgeSwaps (m : Move) : list nat := swapsOf (srcEdge m) 12.

(** All lists of [n] digits below [base]. *)
Fixpoint allLists (base : nat) (n : nat) : list (list Z) :=
  match n with
  | O => [[]]
  | S n' =>
      flat_map (fun d => map (cons (Z.of_nat d)) (allLists base n')) (range base)
  end.

(** The orientations after a move, by the rule of [Tables::applyMove]. *)
Definition movedCornerOris (m : Move) (os : list Z) : list Z :=
  map (fun i => Z.rem (nth (srcCorner m i) os 0 + twCorner m i) 3) (range 8).

Definition movedEdgeOris (m : Move) (os : list Z) : list Z :=
  map (fun i => Z.lxor (nth (srcEdge m i) os 0) (flEdge m i)) (range 12).

Definition centers (s : Cube.State) : list Color :=
  map (fun f => Cube.get s (f * 9 + 4)) (range 6).

(** What the induction over the move sequence carries. *)
Definition Reached (s : Cube.State) : Prop :=
  length s = 54%nat /\ Solvable s /\ centers s = Cube.kFaceColor.

(** The reset cube with the centre stickers of [U] and [D] exchanged.
    [isSolvable] does not look at the centres. *)
Definition centersSwapped : Cube.State := upd 4 Yellow (upd 13 White Cube.reset).

Definition triple_eqb (a b : Color * Color * Color) : bool :=
  let '(a0, a1, a2) := a in
  let '(b0, b1, b2) := b in
  Color_eqb a0 b0 && Color_eqb a1 b1 && Color_eqb a2 b2.

(** The three colours, read clockwise, are those of a corner cubie read
    clockwise from one of its facelets: a real corner, not its mirror
    image. *)
Definition handed (c : Color * Color * Color) : bool :=
  existsb (fun k =>
    existsb (fun t =>
      triple_eqb c
        (rot3 t (Cube.cornerColor k 0, Cube.cornerColor k 1, Cube.cornerColor k 2)))
      [0; 1; 2])
    (range 8).

(** Kept by every move: the centres, and the handedness of the eight
    corners. *)
Definition CentersSwappedInv (s : Cube.State) : Prop :=
  length s = 54%nat
  /\ centers s = [Yellow; White; Green; Blue; Red; Orange]
  /\ forall i, (i < 8)%nat -> handed (cornerTriple s i) = true.

(** ** Vocabulary for the coordinate queries, the move tables and the
    searches *)

(** The cubie position [(x, y, z)] has a sticker on [face]: its component
    along the outward direction of the face is 1. *)
Definition onFace (face x y z : Z) : Prop :=
  0 <= face <= 5
  /\ x * Physical.vx (Physical.dirToVec face)
     + y * Physical.vy (Physical.dirToVec face)
     + z * Physical.vz (Physical.dirToVec face) = 1.

Definition unitCoord (x : Z) : Prop := -1 <= x <= 1.

(** Quarter turns a move makes, clockwise: 1, 3 or 2. *)
Definition quarterTurns (m : Move) : Z :=
  let type := Z.rem (moveIndex m) 3 in
  if type =? 0 then 1 else if type =? 1 then 3 else 2.

(** The single move, if any, that two moves of one face amount to. *)
Definition sameFaceProduct (l m : Move) : option Move :=
  let q := (quarterTurns l + quarterTurns m) mod 4 in
  let face := Z.quot (moveIndex l) 3 in
  if q =? 0 then None
  else moveOfIndex (face * 3 + (if q =? 1 then 0 else if q =? 3 then 1 else 2)).

(** The moves a run of [scramble] applies: the draws that are enumerators
    of [Move], in order. *)
Definition scrambleMoves (draws : nat -> Z) (numMoves : Z) : list Move :=
  flat_map (fun i => match moveOfIndex (draws i) with
                     | Some m => [m] | None => [] end)
    (range (Z.to_nat numMoves)).

(** The inner count of the Lehmer loops: entries after position [i] that
    are smaller than the entry at [i]. *)
Definition cntBelow (p : list Z) (i n : nat) : Z :=
  fold_left (fun cnt j => cnt + (if nth j p 0 <? nth i p 0 then 1 else 0))
    (seq (i + 1) (n - (i + 1))) 0.

Fixpoint zlist_eqb (a b : list Z) : bool :=
  match a, b with
  | [], [] => true
  | x :: a', y :: b' => (x =? y) && zlist_eqb a' b'
  | _, _ => false
  end.

(** All insertions of [a] into a list, and all orders of a list. *)
Fixpoint insertions (a : Z) (l : list Z) : list (list Z) :=
  match l with
  | [] => [[a]]
  | x :: t => (a :: l) :: map (cons x) (insertions a t)
  end.

Fixpoint orders (l : list Z) : list (list Z) :=
  match l with
  | [] => [[]]
  | a :: t => flat_map (insertions a) (orders t)
  end.

(** Boolean forms of "an orientation array that obeys the sum rule" and of
    "an arrangement of [0 .. n-1]". *)
Definition validOri (modulus : Z) (n : nat) (os : list Z) : bool :=
  (length os =? n)%nat
  && forallb (fun x => (0 <=? x) && (x <? modulus)) os
  && (sumZ os mod modulus =? 0).

Definition isOrderOf (n : nat) (p : list Z) : bool :=
  (length p =? n)%nat
  && forallb (fun k => existsb (fun x => x =? Z.of_nat k) p) (range n).

Definition identityList (n : nat) : list Z := map Z.of_nat (range n).

(** A sequence of move indices applied to a cubie state, first move
    first. *)
Definition cubieMoves (e : Solver.MoveEffects) (ms : list Z)
    (cc : Solver.CubieCube) : Solver.CubieCube :=
  fold_left (Solver.applyMove e) ms cc.

(** The cubie states of a real cube: both piece arrays are arrangements of
    all pieces and both orientation arrays obey their sum rule. *)
Definition ValidCubie (cc : Solver.CubieCube) : Prop :=
  Permutation (Solver.cp cc) (identityList 8)
  /\ (length (Solver.co cc) = 8%nat
      /\ Forall (fun o => 0 <= o < 3) (Solver.co cc)
      /\ sumZ (Solver.co cc) mod 3 = 0)
  /\ Permutation (Solver.ep cc) (identityList 12)
  /\ (length (Solver.eo cc) = 12%nat
      /\ Forall (fun o => 0 <= o < 2) (Solver.eo cc)
      /\ sumZ (Solver.eo cc) mod 2 = 0).

(** The states phase 2 works on: nothing twisted, nothing flipped, the
    four slice edges in the four slice positions. *)
Definition G1Cubie (cc : Solver.CubieCube) : Prop :=
  ValidCubie cc
  /\ Solver.co cc = repeat 0 8
  /\ Solver.eo cc = repeat 0 12
  /\ forall j, (8 <= j < 12)%nat -> 8 <= nth j (Solver.ep cc) 0.

(** What the soundness of the searches needs of [Tables]: the move
    effects and the three phase-2 move tables as [Tables::init] builds
    them.  The phase-1 move tables and the four pruning vectors are left
    free. *)
Definition MoveTablesBuilt (t : Solver.Tables) : Prop :=
  Solver.effects t = Solver.initEffects
  /\ Solver.cpMove t = Solver.initCpMove
  /\ Solver.epMove t = Solver.initEpMove
  /\ Solver.spMove t = Solver.initSpMove.

(** The tables of [Tables::init] with the pruning vectors left empty. *)
Definition builtTables : Solver.Tables :=
  Solver.mkTables Solver.initEffects Solver.initCoMove Solver.initEoMove
    Solver.initSliceMove Solver.initCpMove Solver.initEpMove
    Solver.initSpMove [] [] [] [].

(** The tables of [Tables::init] with each pruning vector as
    [buildPrunePhase1] and [buildPrunePhase2] allocate it, before they
    fill it: [sizeA * sizeB] entries [0xFF]. *)
Definition allocatedTables : Solver.Tables :=
  Solver.mkTables Solver.initEffects Solver.initCoMove Solver.initEoMove
    Solver.initSliceMove Solver.initCpMove Solver.initEpMove Solver.initSpMove
    (repeat 255 (Z.to_nat (Solver.kCO * Solver.kSLICE)))
    (repeat 255 (Z.to_nat (Solver.kEO * Solver.kSLICE)))
    (repeat 255 (Z.to_nat (Solver.kCP * Solver.kSP)))
    (repeat 255 (Z.to_nat (Solver.kEP * Solver.kSP))).

(** The twenty moves that flip all twelve edges in place, then [L] and
    [R]: every edge is flipped and the four slice edges stand at the
    positions 4 to 7. *)
Definition superflipLR : list Move :=
  [U; R2; F; B; R; B2; R; U2; L; B2; R; Up; Dp; R2; F; Rp; L; B2; U2; F2; L; R].

(** What a result of [searchPhase2] from the coordinates of [cc] means:
    on success the path grew by phase-2 moves that take [cc] to the solved
    state, otherwise the path is as it was. *)
Definition phase2Sound (cc : Solver.CubieCube) (path : list Z)
    (r : bool * list Z * Solver.World) : Prop :=
  let '(found, path', _) := r in
  if found
  then exists ms, path' = path ++ ms
         /\ Forall (fun m => In m Solver.kPhase2Moves) ms
         /\ cubieMoves Solver.initEffects ms cc = Solver.solved
  else path' = path.

(** The same for [searchPhase1]: on success the moves added to [path1]
    followed by [outPhase2] take [cc] to the solved state, otherwise the
    cubie state and the path are restored. *)
Definition phase1Sound (cc : Solver.CubieCube) (path1 : list Z)
    (r : bool * Solver.Phase1State) : Prop :=
  let '(found, st') := r in
  if found
  then exists ms1, Solver.p1_path1 st' = path1 ++ ms1
         /\ Forall (fun m => 0 <= m < 18) ms1
         /\ Forall (fun m => In m Solver.kPhase2Moves) (Solver.p1_outPhase2 st')
         /\ cubieMoves Solver.initEffects (ms1 ++ Solver.p1_outPhase2 st') cc
            = Solver.solved
  else Solver.p1_cc st' = cc /\ Solver.p1_path1 st' = path1.

(** Every move of the sequence passes [moveAllowedPrune] against the move
    before it, the first one against [lastMove]. *)
Fixpoint allowedChain (lastMove : Z) (ms : list Z) : Prop :=
  match ms with
  | [] => True
  | m :: rest =>
      Solver.moveAllowedPrune m lastMove = true /\ allowedChain m rest
  end.

Definition phase2Shape (d : nat) (lastMove : Z) (path : list Z)
    (r : bool * list Z * Solver.World) : Prop :=
  let '(found, path', _) := r in
  if found
  then exists ms, path' = path ++ ms
         /\ length ms = d
         /\ Forall (fun m => In m Solver.kPhase2Moves) ms
         /\ allowedChain lastMove ms
  else path' = path.

Definition phase1Shape (d : nat) (lastMove maxTotalDepth : Z)
    (path1 : list Z) (r : bool * Solver.Phase1State) : Prop :=
  let '(found, st') := r in
  if found
  then exists ms1, Solver.p1_path1 st' = path1 ++ ms1
         /\ length ms1 = d
         /\ Forall (fun m => 0 <= m < 18) ms1
         /\ allowedChain lastMove ms1
         /\ Forall (fun m => In m Solver.kPhase2Moves) (Solver.p1_outPhase2 st')
         /\ allowedChain (-1) (Solver.p1_outPhase2 st')
         /\ Z.of_nat (length (Solver.p1_path1 st'))
            + Z.of_nat (length (Solver.p1_outPhase2 st')) <= maxTotalDepth
  else Solver.p1_path1 st' = path1.

(** Every corner of the cube carries its three colours in the rotational
    order of a real corner piece. *)
Definition Handed (s : Cube.State) : Prop :=
  forall i, (i < 8)%nat -> handed (cornerTriple s i) = true.

(** A cancel flag that is never cleared once set, and a world whose polls
    so far all read it as clear. *)
Definition staysSet (flag : nat -> bool) : Prop :=
  forall i j, (i <= j)%nat -> flag i = true -> flag j = true.

Definition neverSeenSet (flag : nat -> bool) (w : Solver.World) : Prop :=
  forall k, (k < Solver.polls w)%nat -> flag k = false.

(** * Properties *)

(** ** Generic facts about the helpers *)

Lemma upd_length {A : Type} (i : nat) (x : A) (l : list A) :
  length (upd i x l) = length l.
Proof.
  revert i; induction l as [|h t IH]; intros [|j]; simpl; auto.
Qed.

Lemma Color_eqb_eq (a b : Color) : Color_eqb a b = true <-> a = b.
Proof. destruct a, b; simpl; split; intro H; try reflexivity; discriminate. Qed.

Lemma Color_eqb_refl (a : Color) : Color_eqb a a = true.
Proof. destruct a; reflexivity. Qed.

Lemma in_zseq (len : nat) (start x : Z) :
  start <= x < start + Z.of_nat len -> In x (zseq start len).
Proof.
  revert start; induction len as [|len IH]; intros start Hx; simpl.
  - lia.
  - destruct (Z.eq_dec start x) as [->|Hne]; [left; reflexivity|].
    right. apply IH. lia.
Qed.

Lemma allBelow_spec (n : Z) (P : Z -> bool) :
  allBelow n P = true -> forall x, 0 <= x < n -> P x = true.
Proof.
  unfold allBelow. intros H x Hx.
  rewrite forallb_forall in H.
  apply H, in_zseq. lia.
Qed.

Lemma forallb_range_nat (P : nat -> bool) (n : nat) :
  forallb P (range n) = true -> forall k, (k < n)%nat -> P k = true.
Proof.
  intros H k Hk. rewrite forallb_forall in H. apply H, in_seq. lia.
Qed.

(** A list of known length is its elements: turns a quantification over
    54-facelet arrays into one over 54 colours. *)
Ltac explode_list l H :=
  repeat (destruct l as [|? l]; [discriminate H|]);
  destruct l; [clear H | discriminate H].

(** ** The move-pruning predicate (C8) *)

(** C8. [moveAllowed] and [moveAllowedPrune] are one function; both answer
    [true] when [lastMove < 0]; for two moves of the enumeration they
    answer [false] exactly when the moves turn the same face, or turn
    opposite faces with the face of [move] the smaller-indexed one. *)
Theorem moveAllowed_characterised :
  (forall move lastMove, Solver.moveAllowedPrune move lastMove
                         = Solver.moveAllowed move lastMove)
  /\ (forall move lastMove, lastMove < 0 ->
        Solver.moveAllowed move lastMove = true)
  /\ (forall m l : Move,
        Solver.moveAllowed (moveIndex m) (moveIndex l) = false
        <-> (faceOfMove m = faceOfMove l
             \/ (oppositeFaces (faceOfMove m) (faceOfMove l) = true
                 /\ faceOfMove m < faceOfMove l))).
Proof.
  split; [reflexivity|].
  split.
  - intros move lastMove Hneg. unfold Solver.moveAllowed.
    destruct (Z.ltb_spec lastMove 0) as [_|Hge]; [reflexivity | lia].
  - intros m l.
    destruct m, l; vm_compute; split;
      solve [ intros _; first [ reflexivity
                              | left; reflexivity
                              | right; split; reflexivity ]
            | intros H; discriminate H
            | intros [H | [H1 H2]];
              first [ discriminate H | discriminate H1 | discriminate H2 ] ].
Qed.

Lemma moveAllowed_characterised_witness :
  Solver.moveAllowed 4 (-1) = true.
Proof.
  apply (proj1 (proj2 moveAllowed_characterised) 4 (-1)). lia.
Defined.

(** ** Move followed by its inverse (C5) *)

(** C5. On every 54-facelet array, a move followed by [inverseMove] of it
    gives the array back, and [inverseMove] is the exchange of the two
    quarter turns of each face. *)
Theorem move_then_inverse_is_identity :
  (forall (m : Move) (s : Cube.State), length s = 54%nat ->
     Cube.applyMove (Cube.inverseMove m) (Cube.applyMove m s) = s)
  /\ (forall m : Move, Cube.inverseMove m = flipTurn m).
Proof.
  split.
  - intros m s Hlen.
    explode_list s Hlen.
    destruct m; vm_compute; reflexivity.
  - intros m; destruct m; reflexivity.
Qed.

Lemma move_then_inverse_is_identity_witness :
  Cube.applyMove (Cube.inverseMove Fp)
    (Cube.applyMove Fp (Cube.applyMoves [R; U; B2] Cube.reset))
  = Cube.applyMoves [R; U; B2] Cube.reset.
Proof.
  apply (proj1 move_then_inverse_is_identity Fp). reflexivity.
Defined.

(** ** The orientation queries never report an error (C10) *)

Lemma twistOf_range (c0 c1 : Color) : In (Cube.twistOf c0 c1) [0; 1; 2].
Proof. destruct c0, c1; simpl; tauto. Qed.

Lemma flipOf_range (c0 c1 : Color) : In (Cube.flipOf c0 c1) [0; 1].
Proof. destruct c0, c1; vm_compute; tauto. Qed.

Lemma flipOf_no_edge (c0 c1 : Color) :
  Cube.edgeOf c0 c1 = -1 -> Cube.flipOf c0 c1 = 0.
Proof. unfold Cube.flipOf. intros ->. reflexivity. Qed.

Lemma cornerOf_range (c0 c1 c2 : Color) :
  Cube.cornerOf c0 c1 c2 = -1 \/ 0 <= Cube.cornerOf c0 c1 c2 < 8.
Proof. destruct c0, c1, c2; vm_compute; intuition discriminate. Qed.

Lemma edgeOf_range (c0 c1 : Color) :
  Cube.edgeOf c0 c1 = -1 \/ 0 <= Cube.edgeOf c0 c1 < 12.
Proof. destruct c0, c1; vm_compute; intuition discriminate. Qed.

(** C10. On every 54-facelet array and at every position,
    [getCornerOrientation] answers 0, 1 or 2 and [getEdgeOrientation]
    answers 0 or 1.  The edge query answers 0 where [getEdgePermutation]
    finds no edge, the corner query answers 2 where neither of the first
    two facelets is white or yellow.  Only the permutation queries have an
    error value: each answers [-1] or a piece number, and the all-white
    array makes both answer [-1]. *)
Theorem orientation_queries_have_no_error_value :
  (forall s : Cube.State, length s = 54%nat ->
     (forall pos, (pos < 8)%nat ->
        In (Cube.getCornerOrientation pos s) [0; 1; 2]
        /\ (Cube.get s (Cube.cornerFacelet pos 0) <> White ->
            Cube.get s (Cube.cornerFacelet pos 0) <> Yellow ->
            Cube.get s (Cube.cornerFacelet pos 1) <> White ->
            Cube.get s (Cube.cornerFacelet pos 1) <> Yellow ->
            Cube.getCornerOrientation pos s = 2)
        /\ (Cube.getCornerPermutation pos s = -1
            \/ 0 <= Cube.getCornerPermutation pos s < 8))
     /\ (forall pos, (pos < 12)%nat ->
        In (Cube.getEdgeOrientation pos s) [0; 1]
        /\ (Cube.getEdgePermutation pos s = -1 ->
            Cube.getEdgeOrientation pos s = 0)
        /\ (Cube.getEdgePermutation pos s = -1
            \/ 0 <= Cube.getEdgePermutation pos s < 12)))
  /\ (Cube.getCornerPermutation 0 (repeat White 54) = -1
      /\ Cube.getCornerOrientation 0 (repeat White 54) = 0
      /\ Cube.getEdgePermutation 0 (repeat White 54) = -1
      /\ Cube.getEdgeOrientation 0 (repeat White 54) = 0).
Proof.
  split; [| repeat split; reflexivity].
  intros s _; split; intros pos _.
  - unfold Cube.getCornerOrientation, Cube.getCornerPermutation.
    split; [apply twistOf_range | split; [| apply cornerOf_range]].
    generalize (Cube.get s (Cube.cornerFacelet pos 0)),
               (Cube.get s (Cube.cornerFacelet pos 1)).
    intros c0 c1 H1 H2 H3 H4.
    destruct c0, c1; try reflexivity; congruence.
  - unfold Cube.getEdgeOrientation, Cube.getEdgePermutation.
    split; [apply flipOf_range | split; [apply flipOf_no_edge | apply edgeOf_range]].
Qed.

Lemma orientation_queries_have_no_error_value_witness :
  In (Cube.getCornerOrientation 3 (Cube.applyMove R Cube.reset)) [0; 1; 2]
  /\ In (Cube.getEdgeOrientation 8 (Cube.applyMove F Cube.reset)) [0; 1].
Proof.
  destruct (proj1 orientation_queries_have_no_error_value
              (Cube.applyMove R Cube.reset) eq_refl) as [Hc _].
  destruct (proj1 orientation_queries_have_no_error_value
              (Cube.applyMove F Cube.reset) eq_refl) as [_ He].
  split.
  - apply (Hc 3%nat). lia.
  - apply (He 8%nat). lia.
Defined.

(** ** Decoding then encoding a coordinate (C4) *)

Lemma fixedAt_true (f : Z -> Z) (x : Z) : fixedAt f x = true -> f x = x.
Proof. unfold fixedAt. apply Z.eqb_eq. Qed.

Lemma roundtripCO_all :
  allBelow 2187
    (fixedAt (fun x => Solver.cornerOriCoord (Solver.cornerOriFromCoord x)))
  = true.
Proof. vm_compute. reflexivity. Qed.

Lemma roundtripEO_all :
  allBelow 2048
    (fixedAt (fun x => Solver.edgeOriCoord (Solver.edgeOriFromCoord x)))
  = true.
Proof. vm_compute. reflexivity. Qed.

Lemma roundtripPerm8_all :
  allBelow 40320
    (fixedAt (fun x => Solver.perm8Coord (Solver.perm8FromCoord x)))
  = true.
Proof. vm_compute. reflexivity. Qed.

Lemma roundtripPerm4_all :
  allBelow 24
    (fixedAt (fun x => Solver.perm4Coord (Solver.perm4FromCoord x)))
  = true.
Proof. vm_compute. reflexivity. Qed.

(** The orientation and permutation codecs do round-trip on their whole
    ranges: CO on 0..2186, EO on 0..2047, CP and EP (both through
    [perm8]) on 0..40319, SP on 0..23. *)
Lemma roundtrip_orientations_and_permutations :
  (forall x, 0 <= x <= 2186 ->
     Solver.cornerOriCoord (Solver.cornerOriFromCoord x) = x)
  /\ (forall x, 0 <= x <= 2047 ->
     Solver.edgeOriCoord (Solver.edgeOriFromCoord x) = x)
  /\ (forall x, 0 <= x <= 40319 ->
     Solver.perm8Coord (Solver.perm8FromCoord x) = x)
  /\ (forall x, 0 <= x <= 23 ->
     Solver.perm4Coord (Solver.perm4FromCoord x) = x).
Proof.
  split; [|split; [|split]]; intros x Hx.
  - apply (fixedAt_true
             (fun x => Solver.cornerOriCoord (Solver.cornerOriFromCoord x))).
    apply (allBelow_spec _ _ roundtripCO_all). lia.
  - apply (fixedAt_true
             (fun x => Solver.edgeOriCoord (Solver.edgeOriFromCoord x))).
    apply (allBelow_spec _ _ roundtripEO_all). lia.
  - apply (fixedAt_true
             (fun x => Solver.perm8Coord (Solver.perm8FromCoord x))).
    apply (allBelow_spec _ _ roundtripPerm8_all). lia.
  - apply (fixedAt_true
             (fun x => Solver.perm4Coord (Solver.perm4FromCoord x))).
    apply (allBelow_spec _ _ roundtripPerm4_all). lia.
Qed.

(** C4, at the SLICE coordinate.  The decoder sends 1 to the placement of
    the solved cube, which encodes to 0, so [sliceCoord (sliceFromCoord 1)]
    is not 1; only 178 of the 495 values come back.  The encoder adds
    [kBinom[i][k]] where the count of the placements passed over is
    [kBinom[i][k-1]]: it gives two placements the same number and leaves
    the range 0..494, with 792 for the slice edges on top and 627 on the
    cube after the moves [R B]. *)
Theorem slice_roundtrip_fails :
  Solver.sliceFromCoord 1 = [0; 1; 2; 3; 4; 5; 6; 7; 8; 9; 10; 11]
  /\ Solver.sliceCoord (Solver.sliceFromCoord 1) = 0
  /\ length (filter
        (fixedAt (fun x => Solver.sliceCoord (Solver.sliceFromCoord x)))
        (zseq 0 495)) = 178%nat
  /\ Solver.sliceCoord [0; 1; 2; 3; 4; 5; 6; 8; 9; 7; 10; 11] = 36
  /\ Solver.sliceCoord [8; 0; 1; 2; 3; 4; 5; 6; 7; 9; 10; 11] = 36
  /\ Solver.sliceCoord sliceEdgesOnTop = 792
  /\ Solver.sliceCoord
       (Solver.ep (Solver.toCubie (Cube.applyMoves [R; B] Cube.reset))) = 627.
Proof.
  split; [|split; [|split; [|split; [|split; [|split]]]]];
    vm_compute; reflexivity.
Qed.

(** ** What [solve] does to the world it shares with its caller (C9) *)

Section Frame.

Import Solver.

(** Invariants of a loop that may [return]. *)
Lemma forUntil_inv {X S R : Type} (P : S -> Prop) (Q : R -> Prop)
    (body : X -> S -> S + R) (xs : list X) :
  (forall x s, P s -> match body x s with inl s' => P s' | inr r => Q r end) ->
  forall s, P s ->
  match forUntil body xs s with inl s' => P s' | inr r => Q r end.
Proof.
  intros Hbody. induction xs as [|x rest IH]; intros s Hs; simpl.
  - exact Hs.
  - specialize (Hbody x s Hs).
    destruct (body x s) as [s'|r]; [apply IH; exact Hbody | exact Hbody].
Qed.

Lemma forUntil_inv_In {X S R : Type} (P : S -> Prop) (Q : R -> Prop)
    (body : X -> S -> S + R) (xs : list X) :
  (forall x s, In x xs -> P s ->
     match body x s with inl s' => P s' | inr r => Q r end) ->
  forall s, P s ->
  match forUntil body xs s with inl s' => P s' | inr r => Q r end.
Proof.
  induction xs as [|x rest IH]; intros Hbody s Hs; simpl.
  - exact Hs.
  - pose proof (Hbody x s (or_introl eq_refl) Hs) as Hx.
    destruct (body x s) as [s'|r]; [|exact Hx].
    apply IH; [|exact Hx].
    intros y s0 Hy. apply Hbody. right. exact Hy.
Qed.

Lemma sameCube_refl (w : World) : sameCube w w.
Proof. split; reflexivity. Qed.

Lemma sameCube_trans (w1 w2 w3 : World) :
  sameCube w1 w2 -> sameCube w2 w3 -> sameCube w1 w3.
Proof. intros [H1 H2] [H3 H4]; split; congruence. Qed.

Lemma cancelled_sameCube (w : World) : sameCube w (snd (cancelled w)).
Proof.
  unfold cancelled. destruct (cancel w) eqn:E; simpl; split; auto.
Qed.

Lemma withProgress_sameCube (f : SolverProgress -> SolverProgress) (w : World) :
  sameCube w (withProgress f w).
Proof. split; reflexivity. Qed.

Lemma searchPhase2_sameCube (t : Tables) (d : nat) :
  forall cp ep sp lastMove path w,
    sameCube w (snd (searchPhase2 t cp ep sp d lastMove path w)).
Proof.
  induction d as [|d IH]; intros cp_ ep_ sp_ lastMove path w;
    cbn [searchPhase2];
    pose proof (cancelled_sameCube w) as Hc;
    destruct (cancelled w) as [c w1]; cbn [snd] in Hc;
    (destruct c; [exact Hc|]);
    assert (Hn : sameCube w (countNode w1))
      by (eapply sameCube_trans; [exact Hc | apply withProgress_sameCube]);
    match goal with |- context [if ?b then _ else _] => destruct b end;
    try exact Hn.
  pose proof
    (forUntil_inv (X := nat)
       (fun s : list Z * World => sameCube w (snd s))
       (fun r : bool * list Z * World => sameCube w (snd r))) as Hloop.
  match goal with
  | |- context [forUntil ?body ?xs ?s] =>
      specialize (Hloop body xs); set (loop := forUntil body xs s) in *
  end.
  assert (Hres : match loop with
                 | inl s' => sameCube w (snd s')
                 | inr r => sameCube w (snd r)
                 end).
  { apply Hloop; [| exact Hn].
    intros mi [path' w'] Hw'; cbn [snd] in Hw'.
    destruct (negb _); [exact Hw'|].
    match goal with
    | |- context [searchPhase2 t ?a ?b ?c d ?m ?p w'] =>
        pose proof (IH a b c m p w') as Hrec;
        destruct (searchPhase2 t a b c d m p w') as [[found path''] w'']
    end.
    cbn [snd] in Hrec.
    destruct found; cbn [snd]; eapply sameCube_trans; eauto. }
  destruct loop as [[path' w']|r]; exact Hres.
Qed.

Lemma searchPhase1_sameCube (t : Tables) (d : nat) :
  forall lastMove maxTotalDepth st,
    sameCube (p1_world st)
      (p1_world (snd (searchPhase1 t d lastMove maxTotalDepth st))).
Proof.
  induction d as [|d IH]; intros lastMove maxTotalDepth [cc path1 out w];
    cbn [searchPhase1 p1_world];
    pose proof (cancelled_sameCube w) as Hc;
    destruct (cancelled w) as [c w1]; cbn [snd] in Hc;
    (destruct c; [exact Hc|]);
    assert (Hn : sameCube w (countNode w1))
      by (eapply sameCube_trans; [exact Hc | apply withProgress_sameCube]);
    match goal with |- context [if ?b then _ else _] => destruct b end;
    try exact Hn.
  - (* the leaf: the loop over [d2] *)
    match goal with |- context [if ?b then _ else _] => destruct b end;
      [exact Hn|].
    pose proof
      (forUntil_inv (X := nat)
         (fun s : list Z * World => sameCube w (snd s))
         (fun r : bool * list Z * World => sameCube w (snd r))) as Hloop.
    match goal with
    | |- context [forUntil ?body ?xs ?s] =>
        specialize (Hloop body xs); set (loop := forUntil body xs s) in *
    end.
    assert (Hres : match loop with
                   | inl s' => sameCube w (snd s')
                   | inr r => sameCube w (snd r)
                   end).
    { apply Hloop; [| exact Hn].
      intros d2 [out' w'] Hw'; cbn [snd] in Hw'.
      match goal with
      | |- context [searchPhase2 t ?a ?b ?c d2 ?m ?p w'] =>
          pose proof (searchPhase2_sameCube t d2 a b c m p w') as Hrec;
          destruct (searchPhase2 t a b c d2 m p w') as [[found path2] w'']
      end.
      cbn [snd] in Hrec.
      destruct found; cbn [snd]; [eapply sameCube_trans; eauto|].
      pose proof (cancelled_sameCube w'') as Hc2.
      destruct (cancelled w'') as [c2 w3]; cbn [snd] in Hc2.
      destruct c2; cbn [snd];
        (eapply sameCube_trans; [exact Hw'|]);
        (eapply sameCube_trans; [exact Hrec | exact Hc2]). }
    destruct loop as [[out' w']|[[r out'] w']]; exact Hres.
  - (* an inner node: the loop over the 18 moves *)
    pose proof
      (forUntil_inv (X := nat)
         (fun s : Phase1State => sameCube w (p1_world s))
         (fun r : bool * Phase1State => sameCube w (p1_world (snd r))))
      as Hloop.
    match goal with
    | |- context [forUntil ?body ?xs ?s] =>
        specialize (Hloop body xs); set (loop := forUntil body xs s) in *
    end.
    assert (Hres : match loop with
                   | inl s' => sameCube w (p1_world s')
                   | inr r => sameCube w (p1_world (snd r))
                   end).
    { apply Hloop; [| exact Hn].
      intros mi [cc' path1' out' w'] Hw'; cbn [p1_world] in Hw'.
      destruct (negb _); [exact Hw'|].
      match goal with
      | |- context [searchPhase1 t d ?m ?mx ?s] =>
          pose proof (IH m mx s) as Hrec;
          destruct (searchPhase1 t d m mx s) as [found [cc2 path2 out2 w2]]
      end.
      cbn [snd p1_world] in Hrec.
      destruct found; cbn [snd p1_world]; eapply sameCube_trans; eauto. }
    destruct loop as [s'|r]; exact Hres.
Qed.

Lemma solve_sameCube (t : Tables) (w : World) :
  sameCube w (snd (solve t w)).
Proof.
  unfold solve.
  destruct (Cube.isSolved (cube w)); [apply sameCube_refl|].
  destruct (negb (Cube.isSolvable (cube w))); [apply sameCube_refl|].
  pose proof (cancelled_sameCube w) as Hc.
  destruct (cancelled w) as [c w1]; cbn [snd] in Hc.
  destruct c; [exact Hc|].
  set (w2 := storeDepth 0 (storeDepth (-1) (storeNodes 0 w1))).
  assert (H2 : sameCube w w2).
  { eapply sameCube_trans; [exact Hc|].
    split; reflexivity. }
  pose proof
    (forUntil_inv (X := nat)
       (fun s : World => sameCube w s)
       (fun r : list Move * World => sameCube w (snd r))) as Hloop.
  match goal with
  | |- context [forUntil ?body ?xs ?s] =>
      specialize (Hloop body xs); set (loop := forUntil body xs s) in *
  end.
  assert (Hres : match loop with
                 | inl s' => sameCube w s'
                 | inr r => sameCube w (snd r)
                 end).
  { apply Hloop; [| exact H2].
    intros d1 w' Hw'.
    pose proof (cancelled_sameCube w') as Hc'.
    destruct (cancelled w') as [c' w3]; cbn [snd] in Hc'.
    destruct c'; [cbn [snd]; eapply sameCube_trans; eauto|].
    match goal with
    | |- context [searchPhase1 t d1 ?m ?mx ?s] =>
        pose proof (searchPhase1_sameCube t d1 m mx s) as Hrec;
        destruct (searchPhase1 t d1 m mx s) as [found st]
    end.
    cbn [snd p1_world] in Hrec.
    assert (sameCube w (p1_world st)).
    { eapply sameCube_trans; [exact Hw'|].
      eapply sameCube_trans; [exact Hc'|].
      eapply sameCube_trans; [| exact Hrec].
      split; reflexivity. }
    destruct found; cbn [snd]; assumption. }
  destruct loop as [s'|r]; exact Hres.
Qed.

End Frame.

(** ** The length of what [solve] returns *)

Section Length.

Import Solver.

Lemma searchPhase2_path (t : Tables) (d : nat) :
  forall cp ep sp lastMove path w,
    path2Post d path (searchPhase2 t cp ep sp d lastMove path w).
Proof.
  induction d as [|d IH]; intros cp_ ep_ sp_ lastMove path w;
    cbn [searchPhase2];
    destruct (cancelled w) as [c w1];
    (destruct c; [reflexivity|]);
    match goal with |- context [if ?b then _ else _] => destruct b end;
    try reflexivity.
  - unfold path2Post. destruct (_ && _); [lia | reflexivity].
  - pose proof
      (forUntil_inv (X := nat)
         (fun s : list Z * World => fst s = path)
         (fun r : bool * list Z * World =>
            fst (fst r) = true
            /\ length (snd (fst r)) = (length path + S d)%nat))
      as Hloop.
    match goal with
    | |- context [forUntil ?body ?xs ?s] =>
        specialize (Hloop body xs); set (loop := forUntil body xs s) in *
    end.
    assert (Hres : match loop with
                   | inl s' => fst s' = path
                   | inr r => fst (fst r) = true
                              /\ length (snd (fst r)) = (length path + S d)%nat
                   end).
    { apply Hloop; [| reflexivity].
      intros mi [path' w'] Hp; cbn [fst] in Hp. subst path'.
      destruct (negb _); [reflexivity|].
      match goal with
      | |- context [searchPhase2 t ?a ?b ?c d ?m ?p w'] =>
          pose proof (IH a b c m p w') as Hrec;
          destruct (searchPhase2 t a b c d m p w') as [[found path''] w'']
      end.
      unfold path2Post in Hrec.
      destruct found; cbn [fst snd].
      - split; [reflexivity|]. rewrite Hrec, length_app. simpl. lia.
      - rewrite Hrec. apply removelast_last. }
    destruct loop as [[path' w']|[[found path'] w']]; unfold path2Post.
    + cbn [fst] in Hres. exact Hres.
    + cbn [fst snd] in Hres. destruct Hres as [-> Hl]. exact Hl.
Qed.

Lemma searchPhase1_path (t : Tables) (d : nat) :
  forall lastMove maxTotalDepth st,
    path1Post d maxTotalDepth st (searchPhase1 t d lastMove maxTotalDepth st).
Proof.
  induction d as [|d IH]; intros lastMove maxTotalDepth [cc path1 out w];
    cbn [searchPhase1];
    destruct (cancelled w) as [c w1];
    (destruct c; [reflexivity|]);
    match goal with |- context [if ?b then _ else _] => destruct b end;
    try reflexivity.
  - (* the leaf: the loop over [d2] *)
    match goal with |- context [if ?b then _ else _] => destruct b end;
      [reflexivity|].
    pose proof
      (forUntil_inv_In (X := nat)
         (fun s : list Z * World => True)
         (fun r : bool * list Z * World =>
            fst (fst r) = true ->
            Z.of_nat (length path1) + Z.of_nat (length (snd (fst r)))
            <= maxTotalDepth))
      as Hloop.
    match goal with
    | |- context [forUntil ?body ?xs ?s] =>
        specialize (Hloop body xs); set (loop := forUntil body xs s) in *
    end.
    assert (Hres : match loop with
                   | inl s' => True
                   | inr r =>
                       fst (fst r) = true ->
                       Z.of_nat (length path1)
                       + Z.of_nat (length (snd (fst r))) <= maxTotalDepth
                   end).
    { apply Hloop; [| exact I].
      intros d2 [out' w'] Hd2 _. apply in_seq in Hd2.
      match goal with
      | |- context [searchPhase2 t ?a ?b ?c d2 ?m ?p w'] =>
          pose proof (searchPhase2_path t d2 a b c m p w') as Hrec;
          destruct (searchPhase2 t a b c d2 m p w') as [[found path2] w'']
      end.
      unfold path2Post in Hrec.
      destruct found; cbn [fst snd].
      - intros _. rewrite Hrec. simpl. lia.
      - destruct (cancelled w'') as [c2 w3].
        destruct c2; [cbn [fst]; discriminate | exact I]. }
    destruct loop as [[out' w']|[[found out'] w']]; unfold path1Post;
      cbn [p1_path1 p1_outPhase2]; [reflexivity|].
    cbn [fst snd] in Hres.
    destruct found; [|reflexivity].
    split; [lia | apply Hres; reflexivity].
  - (* an inner node: the loop over the 18 moves *)
    pose proof
      (forUntil_inv (X := nat)
         (fun s : Phase1State => p1_path1 s = path1)
         (fun r : bool * Phase1State =>
            fst r = true
            /\ length (p1_path1 (snd r)) = (length path1 + S d)%nat
            /\ Z.of_nat (length (p1_path1 (snd r)))
               + Z.of_nat (length (p1_outPhase2 (snd r))) <= maxTotalDepth))
      as Hloop.
    match goal with
    | |- context [forUntil ?body ?xs ?s] =>
        specialize (Hloop body xs); set (loop := forUntil body xs s) in *
    end.
    assert (Hres : match loop with
                   | inl s' => p1_path1 s' = path1
                   | inr r =>
                       fst r = true
                       /\ length (p1_path1 (snd r)) = (length path1 + S d)%nat
                       /\ Z.of_nat (length (p1_path1 (snd r)))
                          + Z.of_nat (length (p1_outPhase2 (snd r)))
                          <= maxTotalDepth
                   end).
    { apply Hloop; [| reflexivity].
      intros mi [cc' path1' out' w'] Hp; cbn [p1_path1] in Hp. subst path1'.
      destruct (negb _); [reflexivity|].
      match goal with
      | |- context [searchPhase1 t d ?m ?mx ?s] =>
          pose proof (IH m mx s) as Hrec;
          destruct (searchPhase1 t d m mx s) as [found [cc2 path2 out2 w2]]
      end.
      unfold path1Post in Hrec. cbn [p1_path1 p1_outPhase2] in Hrec.
      destruct found; cbn [fst snd p1_path1 p1_outPhase2].
      - destruct Hrec as [Hl Hb]. split; [reflexivity|]. split; [|exact Hb].
        rewrite Hl, length_app. simpl. lia.
      - rewrite Hrec. apply removelast_last. }
    destruct loop as [st'|[found st']]; unfold path1Post;
      cbn [p1_path1].
    + exact Hres.
    + cbn [fst snd] in Hres. destruct Hres as (-> & Hl & Hb).
      split; assumption.
Qed.

(** Whatever the tables and the cube, [solve] returns at most 31 moves. *)
Lemma solve_length_at_most_31 (t : Tables) (w : World) :
  (length (fst (solve t w)) <= 31)%nat.
Proof.
  unfold solve.
  destruct (Cube.isSolved (cube w)); [simpl; lia|].
  destruct (negb (Cube.isSolvable (cube w))); [simpl; lia|].
  destruct (cancelled w) as [c w1].
  destruct c; [simpl; lia|].
  pose proof
    (forUntil_inv (X := nat)
       (fun s : World => True)
       (fun r : list Move * World => (length (fst r) <= 31)%nat)) as Hloop.
  match goal with
  | |- context [forUntil ?body ?xs ?s] =>
      specialize (Hloop body xs); set (loop := forUntil body xs s) in *
  end.
  assert (Hres : match loop with
                 | inl s' => True
                 | inr r => (length (fst r) <= 31)%nat
                 end).
  { apply Hloop; [| exact I].
    intros d1 w' _.
    destruct (cancelled w') as [c' w3].
    destruct c'; [simpl; lia|].
    match goal with
    | |- context [searchPhase1 t d1 ?m ?mx ?s] =>
        pose proof (searchPhase1_path t d1 m mx s) as Hrec;
        destruct (searchPhase1 t d1 m mx s) as [found st]
    end.
    unfold path1Post, kMaxTotal in Hrec.
    destruct found; [|exact I].
    cbn [fst]. rewrite length_app, !length_map. lia. }
  destruct loop as [s'|r]; [simpl; lia | exact Hres].
Qed.

End Length.

(** C9. Whatever the cube, the tables, the cancel flag and the progress
    counters, the caller's 54 facelets after [solve] returns are the 54
    facelets at entry (and the cancel flag is not written either): [solve]
    reads the cube through [isSolved], [isSolvable] and [toCubie], and the
    searches work on the [CubieCube] made at entry. *)
Theorem solve_leaves_cube_unchanged :
  forall (t : Solver.Tables) (w : Solver.World),
    Solver.cube (snd (Solver.solve t w)) = Solver.cube w
    /\ Solver.cancel (snd (Solver.solve t w)) = Solver.cancel w.
Proof. intros t w. apply solve_sameCube. Qed.

(** ** The piece-level move rule against the facelet engine (C2) *)

(** What the facelet engine does to the three facelets of a corner
    position and to the two of an edge position, on any 54 colours, is what
    the arrays derived from the reset cube say. *)
Lemma corner_facelets_follow_effects (m : Move) (s : Cube.State) (i : nat) :
  length s = 54%nat -> (i < 8)%nat ->
  cornerTriple (Cube.applyMove m s) i
  = rot3 (twCorner m i) (cornerTriple s (srcCorner m i)).
Proof.
  intros Hlen Hi.
  explode_list s Hlen.
  destruct m;
    do 8 (destruct i as [|i]; [vm_compute; reflexivity|]);
    exfalso; lia.
Qed.

Lemma edge_facelets_follow_effects (m : Move) (s : Cube.State) (i : nat) :
  length s = 54%nat -> (i < 12)%nat ->
  edgePair (Cube.applyMove m s) i
  = flip2 (flEdge m i) (edgePair s (srcEdge m i)).
Proof.
  intros Hlen Hi.
  explode_list s Hlen.
  destruct m;
    do 12 (destruct i as [|i]; [vm_compute; reflexivity|]);
    exfalso; lia.
Qed.

Lemma effects_in_range (m : Move) :
  (forall i, (i < 8)%nat ->
     (srcCorner m i < 8)%nat /\ 0 <= twCorner m i < 3
     /\ Solver.idx2 (Solver.cPos Solver.initEffects) (moveIndex m) (Z.of_nat i)
        = Z.of_nat (srcCorner m i))
  /\ (forall i, (i < 12)%nat ->
     (srcEdge m i < 12)%nat /\ 0 <= flEdge m i < 2
     /\ Solver.idx2 (Solver.ePos Solver.initEffects) (moveIndex m) (Z.of_nat i)
        = Z.of_nat (srcEdge m i)).
Proof.
  split; intros i Hi.
  - destruct m;
      do 8 (destruct i as [|i]; [vm_compute; intuition (discriminate || lia)|]);
      exfalso; lia.
  - destruct m;
      do 12 (destruct i as [|i]; [vm_compute; intuition (discriminate || lia)|]);
      exfalso; lia.
Qed.

Lemma cornerOf_rot3 (t : Z) (c : Color * Color * Color) :
  cornerOf3 (rot3 t c) = cornerOf3 c.
Proof.
  destruct c as [[c0 c1] c2]. unfold rot3.
  destruct (t =? 0); [reflexivity|].
  destruct (t =? 1); destruct c0, c1, c2; reflexivity.
Qed.

Lemma twistOf_rot3 (t : Z) (c : Color * Color * Color) :
  0 <= t < 3 -> cornerOf3 c <> -1 ->
  twistOf3 (rot3 t c) = Z.rem (twistOf3 c + t) 3.
Proof.
  intros Ht. destruct c as [[c0 c1] c2].
  assert (Hcases : t = 0 \/ t = 1 \/ t = 2) by lia.
  destruct Hcases as [-> | [-> | ->]];
    destruct c0, c1, c2; vm_compute; congruence.
Qed.

Lemma edgeOf_flip2 (f : Z) (c : Color * Color) :
  edgeOf2 (flip2 f c) = edgeOf2 c.
Proof.
  destruct c as [c0 c1]. unfold flip2.
  destruct (f =? 0); [reflexivity|].
  destruct c0, c1; reflexivity.
Qed.

Lemma flipOf_flip2 (f : Z) (c : Color * Color) :
  0 <= f < 2 -> edgeOf2 c <> -1 ->
  flipOf2 (flip2 f c) = Z.lxor (flipOf2 c) f.
Proof.
  intros Hf. destruct c as [c0 c1].
  assert (Hcases : f = 0 \/ f = 1) by lia.
  destruct Hcases as [-> | ->];
    destruct c0, c1; vm_compute; congruence.
Qed.

Lemma u8_small (x : Z) : 0 <= x < 256 -> u8 x = x.
Proof. intros H. unfold u8. apply Z.mod_small. exact H. Qed.

Lemma twistOf3_range (c : Color * Color * Color) : 0 <= twistOf3 c < 3.
Proof.
  destruct c as [[c0 c1] c2].
  pose proof (twistOf_range c0 c1) as H. simpl in H |- *. lia.
Qed.

Lemma flipOf2_range (c : Color * Color) : 0 <= flipOf2 c < 2.
Proof.
  destruct c as [c0 c1].
  pose proof (flipOf_range c0 c1) as H. unfold flipOf2. simpl in H |- *. lia.
Qed.

(** Reading entry [z] of an array filled by a loop over [0 .. n-1]. *)
Lemma idx1_map_range (f : nat -> Z) (n : nat) (k : nat) :
  (k < n)%nat -> Solver.idx1 (map f (range n)) (Z.of_nat k) = f k.
Proof.
  intros Hk. unfold Solver.idx1, range. rewrite Nat2Z.id.
  rewrite (nth_indep _ 0 (f O)) by (rewrite length_map, length_seq; exact Hk).
  rewrite map_nth, seq_nth by exact Hk. reflexivity.
Qed.

(** C2, as amended.  On every 54-facelet array whose corner and edge
    positions all show real cubies, and for every move [m], applying [m] to
    the cubie representation by the rule of [Tables::applyMove], with the
    effect arrays that [Tables::init] derives from the reset cube, gives
    the cubie representation of the array after the facelet engine has
    applied [m]. *)
Theorem piece_rule_matches_facelet_engine :
  forall (m : Move) (s : Cube.State),
    length s = 54%nat -> allCubiesReal s ->
    Solver.toCubie (Cube.applyMove m s)
    = Solver.applyMove Solver.initEffects (Solver.toCubie s) (moveIndex m).
Proof.
  intros m s Hlen [Hcorners Hedges].
  destruct (effects_in_range m) as [HC HE].
  unfold Solver.toCubie, Solver.applyMove; cbn [Solver.cp Solver.co Solver.ep Solver.eo].
  f_equal; apply map_ext_in; intros i Hi; apply in_seq in Hi;
    assert (Hlt : (i < 8)%nat \/ (i < 12)%nat) by lia.
  - (* cp *)
    assert (Hi8 : (i < 8)%nat) by lia.
    destruct (HC i Hi8) as (Hsrc & Htw & Hidx).
    rewrite Hidx, idx1_map_range by exact Hsrc.
    change (Cube.getCornerPermutation i (Cube.applyMove m s))
      with (cornerOf3 (cornerTriple (Cube.applyMove m s) i)).
    rewrite corner_facelets_follow_effects, cornerOf_rot3 by assumption.
    reflexivity.
  - (* co *)
    assert (Hi8 : (i < 8)%nat) by lia.
    destruct (HC i Hi8) as (Hsrc & Htw & Hidx).
    rewrite Hidx, idx1_map_range by exact Hsrc.
    change (Cube.getCornerOrientation i (Cube.applyMove m s))
      with (twistOf3 (cornerTriple (Cube.applyMove m s) i)).
    change (Cube.getCornerOrientation (srcCorner m i) s)
      with (twistOf3 (cornerTriple s (srcCorner m i))).
    rewrite corner_facelets_follow_effects by assumption.
    rewrite twistOf_rot3 by (try exact Htw; apply Hcorners; exact Hsrc).
    rewrite (u8_small (twistOf3 _))
      by (pose proof (twistOf3_range (cornerTriple s (srcCorner m i))); lia).
    reflexivity.
  - (* ep *)
    assert (Hi12 : (i < 12)%nat) by lia.
    destruct (HE i Hi12) as (Hsrc & Hfl & Hidx).
    rewrite Hidx, idx1_map_range by exact Hsrc.
    change (Cube.getEdgePermutation i (Cube.applyMove m s))
      with (edgeOf2 (edgePair (Cube.applyMove m s) i)).
    rewrite edge_facelets_follow_effects, edgeOf_flip2 by assumption.
    reflexivity.
  - (* eo *)
    assert (Hi12 : (i < 12)%nat) by lia.
    destruct (HE i Hi12) as (Hsrc & Hfl & Hidx).
    rewrite Hidx, idx1_map_range by exact Hsrc.
    change (Cube.getEdgeOrientation i (Cube.applyMove m s))
      with (flipOf2 (edgePair (Cube.applyMove m s) i)).
    change (Cube.getEdgeOrientation (srcEdge m i) s)
      with (flipOf2 (edgePair s (srcEdge m i))).
    rewrite edge_facelets_follow_effects by assumption.
    rewrite flipOf_flip2 by (try exact Hfl; apply Hedges; exact Hsrc).
    rewrite (u8_small (flipOf2 _))
      by (pose proof (flipOf2_range (edgePair s (srcEdge m i))); lia).
    reflexivity.
Qed.

Lemma allCubiesRealb_spec (s : Cube.State) :
  allCubiesRealb s = true -> allCubiesReal s.
Proof.
  unfold allCubiesRealb. intros H.
  apply andb_true_iff in H. destruct H as [Hc He].
  split; intros i Hi.
  - apply (forallb_range_nat _ _ Hc) in Hi.
    apply negb_true_iff, Z.eqb_neq in Hi. exact Hi.
  - apply (forallb_range_nat _ _ He) in Hi.
    apply negb_true_iff, Z.eqb_neq in Hi. exact Hi.
Qed.

Lemma piece_rule_matches_facelet_engine_witness :
  Solver.toCubie (Cube.applyMove F (Cube.applyMoves [R; U; Bp] Cube.reset))
  = Solver.applyMove Solver.initEffects
      (Solver.toCubie (Cube.applyMoves [R; U; Bp] Cube.reset)) (moveIndex F).
Proof.
  apply piece_rule_matches_facelet_engine.
  - reflexivity.
  - apply allCubiesRealb_spec. reflexivity.
Defined.

(** C2 as stated fails on an array with a position that shows no real
    cubie.  After [F] the corner that was at [URF] is at [DFR]; it has no
    white or yellow facelet, so [getCornerOrientation] answers 2 there as
    it did before, while the rule answers [(2 + 2) mod 3 = 1]. *)
Lemma piece_rule_fails_without_real_cubies :
  Solver.toCubie (Cube.applyMove F stickersSwapped)
  <> Solver.applyMove Solver.initEffects (Solver.toCubie stickersSwapped)
       (moveIndex F).
Proof. vm_compute. intros H. discriminate H. Qed.

(** ** The phase-2 moves and the subgroup G1 (C7) *)

Ltac split_Forall :=
  repeat match goal with
         | H : Forall _ (_ :: _) |- _ => inversion_clear H
         | H : Forall _ [] |- _ => clear H
         end.

Lemma land1_range (x : Z) : 0 <= Z.land x 1 < 2.
Proof.
  change 1 with (Z.ones 1). rewrite Z.land_ones by lia.
  apply Z.mod_pos_bound. reflexivity.
Qed.

Lemma land1_mod2 (x : Z) : Z.land x 1 = x mod 2.
Proof. change 1 with (Z.ones 1). rewrite Z.land_ones by lia. reflexivity. Qed.

Lemma mod_cancel_l (n a b : Z) :
  0 < n -> a mod n = 0 -> (a + b) mod n = 0 -> b mod n = 0.
Proof.
  intros Hn Ha Hab.
  rewrite Z.add_mod, Ha, Z.add_0_l, Z.mod_mod in Hab by lia. exact Hab.
Qed.

(** CO = 0 fixes the first seven orientations, the sum rule the eighth. *)
Lemma CO_zero_all_untwisted (co : list Z) :
  length co = 8%nat -> Forall isByte co ->
  Solver.cornerOriCoord co = 0 -> (sumZ co) mod 3 = 0 ->
  forall j, (j < 8)%nat -> Z.rem (nth j co 0) 3 = 0.
Proof.
  intros Hlen Hb Hco Hsum.
  explode_list co Hlen. split_Forall. unfold isByte in *.
  cbv [Solver.cornerOriCoord fold_left range seq nth] in Hco.
  cbv [sumZ fold_right] in Hsum.
  repeat match goal with
         | H : 0 <= ?a < 256 |- _ =>
             pose proof (Z.rem_bound_pos a 3 (proj1 H) eq_refl);
             pose proof (Z.rem_mod_nonneg a 3 (proj1 H) eq_refl);
             apply proj1 in H
         end.
  assert (Hdigits :
    Z.rem z 3 = 0 /\ Z.rem z0 3 = 0 /\ Z.rem z1 3 = 0 /\ Z.rem z2 3 = 0
    /\ Z.rem z3 3 = 0 /\ Z.rem z4 3 = 0 /\ Z.rem z5 3 = 0) by lia.
  destruct Hdigits as (D0 & D1 & D2 & D3 & D4 & D5 & D6).
  assert (D7 : Z.rem z6 3 = 0).
  { repeat match goal with
           | E : Z.rem ?a 3 = ?a mod 3 |- _ => rewrite E in *; clear E
           end.
    do 7 (apply mod_cancel_l in Hsum; [| lia | assumption]).
    rewrite Z.add_0_r in Hsum. exact Hsum. }
  intros j Hj.
  do 8 (destruct j as [|j]; [cbn [nth]; assumption|]).
  exfalso; lia.
Qed.

Lemma CO_zero_of_untwisted (co : list Z) :
  (forall j, (j < 7)%nat -> Z.rem (nth j co 0) 3 = 0) ->
  Solver.cornerOriCoord co = 0.
Proof.
  intros H. cbv [Solver.cornerOriCoord fold_left range seq].
  rewrite !H by lia. reflexivity.
Qed.

Lemma EO_zero_all_unflipped (eo : list Z) :
  length eo = 12%nat -> Forall isByte eo ->
  Solver.edgeOriCoord eo = 0 -> (sumZ eo) mod 2 = 0 ->
  forall j, (j < 12)%nat -> Z.land (nth j eo 0) 1 = 0.
Proof.
  intros Hlen Hb Heo Hsum.
  explode_list eo Hlen. split_Forall. unfold isByte in *.
  cbv [Solver.edgeOriCoord fold_left range seq nth] in Heo.
  cbv [sumZ fold_right] in Hsum.
  repeat match goal with
         | H : 0 <= ?a < 256 |- _ =>
             pose proof (land1_range a);
             pose proof (land1_mod2 a);
             clear H
         end.
  assert (Hdigits :
    Z.land z 1 = 0 /\ Z.land z0 1 = 0 /\ Z.land z1 1 = 0 /\ Z.land z2 1 = 0
    /\ Z.land z3 1 = 0 /\ Z.land z4 1 = 0 /\ Z.land z5 1 = 0
    /\ Z.land z6 1 = 0 /\ Z.land z7 1 = 0 /\ Z.land z8 1 = 0
    /\ Z.land z9 1 = 0) by lia.
  destruct Hdigits as (D0 & D1 & D2 & D3 & D4 & D5 & D6 & D7 & D8 & D9 & D10).
  assert (D11 : Z.land z10 1 = 0).
  { repeat match goal with
           | E : Z.land ?a 1 = ?a mod 2 |- _ => rewrite E in *; clear E
           end.
    do 11 (apply mod_cancel_l in Hsum; [| lia | assumption]).
    rewrite Z.add_0_r in Hsum. exact Hsum. }
  intros j Hj.
  do 12 (destruct j as [|j]; [cbn [nth]; assumption|]).
  exfalso; lia.
Qed.

Lemma EO_zero_of_unflipped (eo : list Z) :
  (forall j, (j < 11)%nat -> Z.land (nth j eo 0) 1 = 0) ->
  Solver.edgeOriCoord eo = 0.
Proof.
  intros H. cbv [Solver.edgeOriCoord fold_left range seq].
  rewrite !H by lia. reflexivity.
Qed.

Lemma allPatterns_complete (bs : list bool) : In bs (allPatterns (length bs)).
Proof.
  induction bs as [|b bs IH]; simpl.
  - left; reflexivity.
  - apply in_or_app. destruct b; [left | right]; apply in_map; exact IH.
Qed.

Lemma fold_left_ext_eq {A B : Type} (f g : A -> B -> A) (l : list B) (a : A) :
  (forall x y, f x y = g x y) -> fold_left f l a = fold_left g l a.
Proof.
  intros H. revert a. induction l as [|y l IH]; intros a; simpl.
  - reflexivity.
  - rewrite H. apply IH.
Qed.

Lemma nth_map_fixing {A B : Type} (f : A -> B) (l : list A) (i : nat)
    (a : A) (b : B) :
  f a = b -> nth i (map f l) b = f (nth i l a).
Proof. intros <-. apply map_nth. Qed.

Lemma sliceCoord_pattern (ep : list Z) :
  Solver.sliceCoord ep = Solver.sliceCoord (patternEp (slicePattern ep)).
Proof.
  unfold Solver.sliceCoord. f_equal.
  apply fold_left_ext_eq. intros [coord k] i.
  unfold patternEp, slicePattern. rewrite map_map.
  rewrite (nth_map_fixing _ ep i 0 0) by reflexivity.
  destruct (nth i ep 0 >=? 8) eqn:E; reflexivity.
Qed.

Lemma SLICE_zero_patterns :
  forallb (fun bs =>
    Bool.eqb (Solver.sliceCoord (patternEp bs) =? 0) (topFourSlice bs))
  (allPatterns 12) = true.
Proof. vm_compute. reflexivity. Qed.

(** SLICE = 0 says exactly that the four slice positions hold slice
    edges. *)
Lemma SLICE_zero_iff (ep : list Z) :
  length ep = 12%nat ->
  (Solver.sliceCoord ep = 0
   <-> forall j, (8 <= j < 12)%nat -> 8 <= nth j ep 0).
Proof.
  intros Hlen.
  pose proof SLICE_zero_patterns as Hall.
  rewrite forallb_forall in Hall.
  specialize (Hall (slicePattern ep)).
  assert (Hin : In (slicePattern ep) (allPatterns 12)).
  { replace 12%nat with (length (slicePattern ep)).
    - apply allPatterns_complete.
    - unfold slicePattern. rewrite length_map. exact Hlen. }
  specialize (Hall Hin). apply Bool.eqb_prop in Hall.
  rewrite <- sliceCoord_pattern in Hall.
  assert (Htop : topFourSlice (slicePattern ep) = true
                 <-> forall j, (8 <= j < 12)%nat -> 8 <= nth j ep 0).
  { unfold topFourSlice, slicePattern.
    rewrite !(nth_map_fixing _ ep _ 0 false) by reflexivity.
    rewrite !andb_true_iff.
    rewrite !Z.geb_le. split.
    - intros [[[H8 H9] H10] H11] j Hj.
      assert (Hc : j = 8%nat \/ j = 9%nat \/ j = 10%nat \/ j = 11%nat) by lia.
      destruct Hc as [-> | [-> | [-> | ->]]]; assumption.
    - intros H. repeat split; apply H; lia. }
  rewrite <- Htop, <- Hall. symmetry. apply Z.eqb_eq.
Qed.

(** What the ten phase-2 moves do to the pieces: no twist, no flip, and
    the slice positions receive from slice positions. *)
Lemma phase2_effects (m : Z) :
  In m Solver.kPhase2Moves ->
  (forall i, (i < 8)%nat ->
     Solver.idx2 (Solver.cOri Solver.initEffects) m (Z.of_nat i) = 0
     /\ exists src, (src < 8)%nat
        /\ Solver.idx2 (Solver.cPos Solver.initEffects) m (Z.of_nat i)
           = Z.of_nat src)
  /\ (forall i, (i < 12)%nat ->
     Solver.idx2 (Solver.eOri Solver.initEffects) m (Z.of_nat i) = 0
     /\ exists src, (src < 12)%nat /\ ((8 <= i)%nat -> (8 <= src)%nat)
        /\ Solver.idx2 (Solver.ePos Solver.initEffects) m (Z.of_nat i)
           = Z.of_nat src).
Proof.
  intros Hm.
  assert (Hnat : forall z, 0 <= z < 12 -> z = Z.of_nat (Z.to_nat z))
    by (intros z Hz; rewrite Z2Nat.id; lia).
  split; intros i Hi.
  - split.
    + cbv [Solver.kPhase2Moves In] in Hm.
      repeat (destruct Hm as [<- | Hm]);
        try contradiction;
        do 8 (destruct i as [|i]; [vm_compute; reflexivity|]);
        exfalso; lia.
    + exists (Z.to_nat (Solver.idx2 (Solver.cPos Solver.initEffects) m (Z.of_nat i))).
      cbv [Solver.kPhase2Moves In] in Hm.
      repeat (destruct Hm as [<- | Hm]);
        try contradiction;
        do 8 (destruct i as [|i]; [vm_compute; split; [lia | reflexivity]|]);
        exfalso; lia.
  - split.
    + cbv [Solver.kPhase2Moves In] in Hm.
      repeat (destruct Hm as [<- | Hm]);
        try contradiction;
        do 12 (destruct i as [|i]; [vm_compute; reflexivity|]);
        exfalso; lia.
    + exists (Z.to_nat (Solver.idx2 (Solver.ePos Solver.initEffects) m (Z.of_nat i))).
      cbv [Solver.kPhase2Moves In] in Hm.
      repeat (destruct Hm as [<- | Hm]);
        try contradiction;
        do 12 (destruct i as [|i];
               [vm_compute; split; [lia | split; [lia | reflexivity]]|]);
        exfalso; lia.
Qed.

Lemma nth_map_range (f : nat -> Z) (n k : nat) :
  (k < n)%nat -> nth k (map f (range n)) 0 = f k.
Proof.
  intros Hk. pose proof (idx1_map_range f n k Hk) as H.
  unfold Solver.idx1 in H. rewrite Nat2Z.id in H. exact H.
Qed.

Lemma idx1_of_nat (v : list Z) (k : nat) :
  Solver.idx1 v (Z.of_nat k) = nth k v 0.
Proof. unfold Solver.idx1. rewrite Nat2Z.id. reflexivity. Qed.

Lemma Forall_isByte_nth (v : list Z) (k : nat) :
  Forall isByte v -> (k < length v)%nat -> isByte (nth k v 0).
Proof. intros H Hk. apply Forall_nth; assumption. Qed.

(** C7, as amended.  For every cubie state whose corner orientations sum
    to 0 modulo 3 and whose edge orientations sum to 0 modulo 2, as on
    every solvable cube, and whose coordinates are CO = 0, EO = 0 and
    SLICE = 0, each of the ten phase-2 moves gives a state with CO = 0,
    EO = 0 and SLICE = 0. *)
Theorem phase2_moves_preserve_G1 :
  forall (cc : Solver.CubieCube) (m : Z),
    wfCubie cc ->
    (sumZ (Solver.co cc)) mod 3 = 0 ->
    (sumZ (Solver.eo cc)) mod 2 = 0 ->
    In m Solver.kPhase2Moves ->
    inG1 cc ->
    inG1 (Solver.applyMove Solver.initEffects cc m).
Proof.
  intros cc m (_ & (Hlco & Hbco) & (Hlep & _) & (Hleo & Hbeo)) Hsco Hseo Hm
         (HCO & HEO & HSL).
  destruct (phase2_effects m Hm) as [PC PE].
  pose proof (CO_zero_all_untwisted _ Hlco Hbco HCO Hsco) as Hco.
  pose proof (EO_zero_all_unflipped _ Hleo Hbeo HEO Hseo) as Heo.
  pose proof (proj1 (SLICE_zero_iff _ Hlep) HSL) as Hsl.
  unfold inG1, Solver.applyMove; cbn [Solver.co Solver.eo Solver.ep].
  split; [|split].
  - apply CO_zero_of_untwisted. intros j Hj.
    rewrite nth_map_range by lia.
    destruct (PC j) as [Htw [src [Hsrc Hidx]]]; [lia|].
    rewrite Htw, Hidx, idx1_of_nat, Z.add_0_r, (Hco src Hsrc).
    reflexivity.
  - apply EO_zero_of_unflipped. intros j Hj.
    rewrite nth_map_range by lia.
    destruct (PE j) as [Hfl [src [Hsrc [_ Hidx]]]]; [lia|].
    rewrite Hfl, Hidx, idx1_of_nat, Z.lxor_0_r.
    rewrite u8_small
      by (apply (Forall_isByte_nth _ _ Hbeo); rewrite Hleo; exact Hsrc).
    apply Heo. exact Hsrc.
  - apply SLICE_zero_iff; [rewrite length_map; apply length_seq|].
    intros j Hj.
    rewrite nth_map_range by lia.
    destruct (PE j) as [_ [src [Hsrc [Hslice Hidx]]]]; [lia|].
    rewrite Hidx, idx1_of_nat. apply Hsl. lia.
Qed.

Lemma Forall_isByte_dec (v : list Z) :
  forallb (fun x => (0 <=? x) && (x <? 256)) v = true -> Forall isByte v.
Proof.
  intros H. rewrite forallb_forall in H. apply Forall_forall.
  intros x Hx. specialize (H x Hx).
  apply andb_true_iff in H. unfold isByte. lia.
Qed.

Lemma phase2_moves_preserve_G1_witness :
  inG1 (Solver.applyMove Solver.initEffects g1Example 11).
Proof.
  apply phase2_moves_preserve_G1.
  - repeat split; try reflexivity; apply Forall_isByte_dec; reflexivity.
  - reflexivity.
  - reflexivity.
  - simpl; tauto.
  - repeat split; reflexivity.
Defined.

(** C7 as stated fails on a cubie state outside the orientation rule: the
    move [D] brings the twisted corner to [DBL], the seventh position, and
    CO becomes 1. *)
Lemma phase2_move_leaves_G1_when_sum_rule_fails :
  wfCubie lastCornerTwisted
  /\ In 3 Solver.kPhase2Moves
  /\ inG1 lastCornerTwisted
  /\ ~ inG1 (Solver.applyMove Solver.initEffects lastCornerTwisted 3).
Proof.
  split; [|split; [|split]].
  - repeat split; try reflexivity; apply Forall_isByte_dec; reflexivity.
  - simpl; tauto.
  - repeat split; reflexivity.
  - intros [HCO _]. vm_compute in HCO. discriminate HCO.
Qed.

(** ** What [isSolvable] checks *)

Lemma nth_upd_same {A : Type} (i : nat) (x d : A) (l : list A) :
  (i < length l)%nat -> nth i (upd i x l) d = x.
Proof.
  revert i; induction l as [|h t IH]; intros [|i] Hi; simpl in *;
    try lia; auto. apply IH. lia.
Qed.

Lemma nth_upd_other {A : Type} (i j : nat) (x d : A) (l : list A) :
  i <> j -> nth j (upd i x l) d = nth j l d.
Proof.
  revert i j; induction l as [|h t IH]; intros [|i] [|j] Hij; simpl;
    try reflexivity; try congruence. apply IH. congruence.
Qed.

Lemma countColors_spec (s : list Color) :
  forall counts, length counts = 6%nat ->
  exists counts',
    Cube.countColors s counts = Some counts'
    /\ length counts' = 6%nat
    /\ forall c, nth (Z.to_nat (colorIndex c)) counts' 0
                 = nth (Z.to_nat (colorIndex c)) counts 0 + countColor c s.
Proof.
  induction s as [|x s IH]; intros counts Hlen; simpl.
  - exists counts. repeat split; auto. intros c; lia.
  - assert (Hidx : (colorIndex x <? 0) || (colorIndex x >=? 6) = false)
      by (destruct x; reflexivity).
    rewrite Hidx.
    set (k := Z.to_nat (colorIndex x)).
    assert (Hk : (k < length counts)%nat)
      by (rewrite Hlen; subst k; destruct x; simpl; lia).
    destruct (IH (upd k (nth k counts 0 + 1) counts)) as (counts' & Heq & Hl & Hc).
    { rewrite upd_length. exact Hlen. }
    exists counts'. repeat split; auto.
    intros c. rewrite Hc.
    destruct (Color_eqb c x) eqn:E.
    + apply Color_eqb_eq in E. subst c. fold k.
      rewrite nth_upd_same by exact Hk. lia.
    + rewrite nth_upd_other; [lia|].
      subst k. intros Heqk.
      assert (c = x) by (destruct c, x; simpl in Heqk; congruence || lia).
      subst c. rewrite Color_eqb_refl in E. discriminate.
Qed.

Section ScanPieces.

Variables (getP getO : nat -> Z) (n : Z) (oriOK : Z -> bool) (modulus : Z).

(** [scanPieces] passes exactly when every piece and orientation read is in
    range, no piece is marked in [seen] already and none is read twice;
    its results are then the pieces, stored by position, and the running
    sum of the orientations. *)
Lemma scanPieces_Some (positions : list nat) :
  forall seen perm oSum perm' oSum',
    n <= Z.of_nat (length seen) ->
    (Cube.scanPieces getP getO n oriOK modulus positions seen perm oSum
       = Some (perm', oSum')
     <-> (forall i, In i positions ->
            pieceOK getP getO n oriOK i = true
            /\ nth (Z.to_nat (getP i)) seen false = false)
         /\ NoDup (map getP positions)
         /\ perm' = fold_left (fun pm i => upd i (getP i) pm) positions perm
         /\ oSum' = fold_left (fun acc i => Z.rem (acc + getO i) modulus)
                      positions oSum).
Proof.
  induction positions as [|i rest IH]; intros seen perm oSum perm' oSum' Hseen;
    simpl.
  - split.
    + intros H; inversion H; subst.
      split; [intros j []|]. split; [constructor|]. split; reflexivity.
    + intros (_ & _ & -> & ->). reflexivity.
  - unfold pieceOK in *.
    destruct (Z.ltb_spec (getP i) 0) as [Hneg|Hnn]; simpl.
    { split; [discriminate|].
      intros (H & _). destruct (H i (or_introl eq_refl)) as [H1 _].
      apply andb_true_iff in H1. destruct H1 as [H1 _].
      apply andb_true_iff in H1. lia. }
    destruct (Z.geb_spec (getP i) n) as [Hge|Hlt]; simpl.
    { split; [discriminate|].
      intros (H & _). destruct (H i (or_introl eq_refl)) as [H1 _].
      apply andb_true_iff in H1. destruct H1 as [H1 _].
      apply andb_true_iff in H1. lia. }
    destruct (oriOK (getO i)) eqn:Hori; simpl.
    2:{ split; [discriminate|].
        intros (H & _). destruct (H i (or_introl eq_refl)) as [H1 _].
        rewrite Hori, andb_false_r in H1. discriminate. }
    destruct (nth (Z.to_nat (getP i)) seen false) eqn:Hs.
    { split; [discriminate|].
      intros (H & _). destruct (H i (or_introl eq_refl)) as [_ H2].
      congruence. }
    rewrite IH by (rewrite upd_length; exact Hseen).
    assert (Hin : (Z.to_nat (getP i) < length seen)%nat) by lia.
    split.
    + intros (Hall & Hnd & Hperm & Hsum).
      split; [|split; [|split]]; auto.
      * intros j [<- | Hj].
        -- split; [|exact Hs].
           rewrite Hori, andb_true_r, andb_true_iff. lia.
        -- destruct (Hall j Hj) as [Hok Hfree]. split; [exact Hok|].
           destruct (Z.eq_dec (getP i) (getP j)) as [E|E].
           ++ rewrite <- E, nth_upd_same in Hfree by exact Hin. discriminate.
           ++ rewrite nth_upd_other in Hfree; [exact Hfree|].
              apply andb_true_iff in Hok. destruct Hok as [Hok _].
              apply andb_true_iff in Hok. lia.
      * constructor; [|exact Hnd].
        intros Hmem. apply in_map_iff in Hmem. destruct Hmem as (j & E & Hj).
        destruct (Hall j Hj) as [_ Hfree].
        rewrite E, nth_upd_same in Hfree by exact Hin. discriminate.
    + intros (Hall & Hnd & Hperm & Hsum).
      inversion Hnd as [|? ? Hnotin Hnd']; subst.
      split; [|split; [|split]]; auto.
      intros j Hj. destruct (Hall j (or_intror Hj)) as [Hok Hfree].
      split; [exact Hok|].
      rewrite nth_upd_other; [exact Hfree|].
      intros E. apply Hnotin. apply in_map_iff. exists j. split; [|exact Hj].
      apply andb_true_iff in Hok. destruct Hok as [Hok _].
      apply andb_true_iff in Hok. lia.
Qed.

End ScanPieces.

Lemma fold_left_map_eq {A B C : Type} (f : A -> B -> A) (g : C -> B)
    (l : list C) (a : A) :
  fold_left f (map g l) a = fold_left (fun acc x => f acc (g x)) l a.
Proof. revert a; induction l as [|x l IH]; intros a; simpl; auto. Qed.

(** The outcome of one scanning loop of [isSolvable] over [0 .. n-1]. *)
Lemma scan_outcome (n : nat) (getP getO : nat -> Z) (oriOK : Z -> bool)
    (modulus : Z) :
  fold_left (fun pm i => upd i (getP i) pm) (range n) (repeat 0 n)
    = map getP (range n) ->
  (forall i, oriOK (getO i) = true) ->
  match
    Cube.scanPieces getP getO (Z.of_nat n) oriOK modulus
      (range n) (repeat false n) (repeat 0 n) 0
  with
  | Some (perm, osum) =>
      validPieces (Z.of_nat n) (map getP (range n))
      /\ perm = map getP (range n)
      /\ osum = oriSum modulus (map getO (range n))
  | None => ~ validPieces (Z.of_nat n) (map getP (range n))
  end.
Proof.
  intros Hperm Hori.
  pose proof (scanPieces_Some getP getO (Z.of_nat n) oriOK modulus (range n)
                (repeat false n) (repeat 0 n) 0) as Hspec.
  assert (Hlen : Z.of_nat n <= Z.of_nat (length (repeat false n)))
    by (rewrite repeat_length; lia).
  destruct (Cube.scanPieces getP getO (Z.of_nat n) oriOK modulus (range n)
              (repeat false n) (repeat 0 n) 0) as [[perm osum]|] eqn:E.
  - destruct (proj1 (Hspec perm osum Hlen) eq_refl) as (Hall & Hnd & Hp & Hs).
    split; [|split].
    + split; [|exact Hnd].
      apply Forall_forall. intros p Hp'. apply in_map_iff in Hp'.
      destruct Hp' as (i & <- & Hi). destruct (Hall i Hi) as [Hok _].
      unfold pieceOK in Hok. apply andb_true_iff in Hok.
      destruct Hok as [Hok _]. apply andb_true_iff in Hok. lia.
    + rewrite Hp. exact Hperm.
    + rewrite Hs. unfold oriSum. rewrite fold_left_map_eq. reflexivity.
  - intros [Hrange Hnd].
    assert (Hsome :
      Cube.scanPieces getP getO (Z.of_nat n) oriOK modulus (range n)
        (repeat false n) (repeat 0 n) 0
      = Some (fold_left (fun pm i => upd i (getP i) pm) (range n) (repeat 0 n),
              fold_left (fun acc i => Z.rem (acc + getO i) modulus) (range n) 0)).
    { apply scanPieces_Some; [exact Hlen|].
      split; [|repeat split; auto].
      intros i Hi. split.
      - unfold pieceOK. rewrite Hori, andb_true_r.
        rewrite Forall_forall in Hrange.
        specialize (Hrange (getP i) (in_map getP _ _ Hi)).
        apply andb_true_iff. lia.
      - apply nth_repeat. }
    rewrite E in Hsome. discriminate Hsome.
Qed.

Lemma cornerOri_accepted (s : Cube.State) (i : nat) :
  negb ((Cube.getCornerOrientation i s <? 0)
        || (Cube.getCornerOrientation i s >=? 3)) = true.
Proof.
  unfold Cube.getCornerOrientation.
  pose proof (twistOf_range (Cube.get s (Cube.cornerFacelet i 0))
                            (Cube.get s (Cube.cornerFacelet i 1))) as H.
  simpl in H. apply negb_true_iff, orb_false_iff. lia.
Qed.

Lemma edgeOri_accepted (s : Cube.State) (i : nat) :
  (Cube.getEdgeOrientation i s =? 0) || (Cube.getEdgeOrientation i s =? 1)
  = true.
Proof.
  unfold Cube.getEdgeOrientation.
  pose proof (flipOf_range (Cube.get s (Cube.edgeFacelet i 0))
                           (Cube.get s (Cube.edgeFacelet i 1))) as H.
  simpl in H. apply orb_true_iff. lia.
Qed.

Lemma counts_all_nine (s : Cube.State) (counts : list Z) :
  (forall c, nth (Z.to_nat (colorIndex c)) counts 0 = 0 + countColor c s) ->
  (forallb (fun i => nth i counts 0 =? 9) (range 6) = true
   <-> forall c, countColor c s = 9).
Proof.
  intros Hcnt. split.
  - intros H c.
    assert (Hlt : (Z.to_nat (colorIndex c) < 6)%nat)
      by (destruct c; simpl; lia).
    pose proof (forallb_range_nat _ _ H _ Hlt) as Hc. cbv beta in Hc.
    rewrite Hcnt in Hc. apply Z.eqb_eq in Hc. lia.
  - intros H. apply forallb_forall. intros i Hi. apply in_seq in Hi.
    apply Z.eqb_eq.
    assert (Hc : exists c, i = Z.to_nat (colorIndex c)).
    { do 6 (destruct i as [|i];
            [first [ exists White; reflexivity | exists Yellow; reflexivity
                   | exists Red; reflexivity | exists Orange; reflexivity
                   | exists Green; reflexivity | exists Blue; reflexivity ]|]).
      exfalso; lia. }
    destruct Hc as [c ->]. rewrite Hcnt, H. reflexivity.
Qed.

(** [isSolvable] answers [true] exactly on the arrays that pass the five
    checks. *)
Lemma isSolvable_iff (s : Cube.State) :
  Cube.isSolvable s = true <-> Solvable s.
Proof.
  pose proof (scan_outcome 8
                (fun i => Cube.getCornerPermutation i s)
                (fun i => Cube.getCornerOrientation i s)
                (fun co => negb ((co <? 0) || (co >=? 3))) 3
                eq_refl (cornerOri_accepted s)) as HC.
  pose proof (scan_outcome 12
                (fun i => Cube.getEdgePermutation i s)
                (fun i => Cube.getEdgeOrientation i s)
                (fun eo => (eo =? 0) || (eo =? 1)) 2
                eq_refl (edgeOri_accepted s)) as HE.
  change (Z.of_nat 8) with 8 in HC. change (Z.of_nat 12) with 12 in HE.
  fold (cornerPerms s) in HC. fold (cornerOris s) in HC.
  fold (edgePerms s) in HE. fold (edgeOris s) in HE.
  destruct (countColors_spec s (repeat 0 6) eq_refl) as (counts & Hc & _ & Hcnt).
  assert (Hcnt' : forall c,
             nth (Z.to_nat (colorIndex c)) counts 0 = 0 + countColor c s).
  { intros c. rewrite Hcnt. destruct c; reflexivity. }
  pose proof (counts_all_nine s counts Hcnt') as Hcol.
  unfold Cube.isSolvable, Solvable. rewrite Hc.
  match goal with
  | |- context [Cube.scanPieces ?a ?b 8 ?c ?d ?e ?f ?g ?h] =>
      set (scanC := Cube.scanPieces a b 8 c d e f g h) in *
  end.
  match goal with
  | |- context [Cube.scanPieces ?a ?b 12 ?c ?d ?e ?f ?g ?h] =>
      set (scanE := Cube.scanPieces a b 12 c d e f g h) in *
  end.
  clearbody scanC scanE.
  set (nine := forallb (fun i => nth i counts 0 =? 9) (range 6)) in *.
  clearbody nine.
  set (cps := cornerPerms s) in *. set (cos := cornerOris s) in *.
  set (eps := edgePerms s) in *. set (eos := edgeOris s) in *.
  set (colours := forall c, countColor c s = 9) in *.
  clearbody cps cos eps eos colours.
  clear Hc Hcnt Hcnt' counts s.
  destruct nine; cbn [negb].
  2:{ split; [discriminate|]. intros (H & _). apply Hcol in H. discriminate. }
  destruct scanC as [[cornerPerm coSum]|].
  2:{ split; [discriminate|]. intros (_ & H & _). contradiction. }
  destruct HC as (HvC & -> & ->).
  destruct (Z.eqb_spec (oriSum 3 cos) 0) as [HsC|HsC]; cbn [negb].
  2:{ split; [discriminate|]. intros (_ & _ & H & _). contradiction. }
  destruct scanE as [[edgePerm eoSum]|].
  2:{ split; [discriminate|]. intros (_ & _ & _ & H & _). contradiction. }
  destruct HE as (HvE & -> & ->).
  destruct (Z.eqb_spec (oriSum 2 eos) 0) as [HsE|HsE]; cbn [negb].
  2:{ split; [discriminate|]. intros (_ & _ & _ & _ & H & _). contradiction. }
  destruct (Z.eqb_spec (Cube.parity cps 8) (Cube.parity eps 12)) as [Hp|Hp];
    cbn [negb].
  - split; [intros _|reflexivity].
    split; [apply Hcol; reflexivity|]. tauto.
  - split; [discriminate|]. intros (_ & _ & _ & _ & _ & H). contradiction.
Qed.

(** ** Parity of a piece list and exchanges of neighbours *)

Lemma fold_left_add_sum (g : nat -> Z) (js : list nat) (acc : Z) :
  fold_left (fun a j => a + g j) js acc = acc + sumOver g js.
Proof.
  revert acc; induction js as [|j js IH]; intros acc; simpl.
  - lia.
  - rewrite IH. lia.
Qed.

Lemma sumOver_ext (g g' : nat -> Z) (js : list nat) :
  (forall j, In j js -> g j = g' j) -> sumOver g js = sumOver g' js.
Proof.
  induction js as [|j js IH]; intros H; simpl.
  - reflexivity.
  - rewrite (H j) by (left; reflexivity). rewrite IH; [reflexivity|].
    intros k Hk. apply H. right. exact Hk.
Qed.

Lemma sumOver_shift (g : nat -> Z) (a len : nat) :
  sumOver g (seq (S a) len) = sumOver (fun j => g (S j)) (seq a len).
Proof.
  revert a; induction len as [|len IH]; intros a; simpl.
  - reflexivity.
  - rewrite IH. reflexivity.
Qed.

Lemma sumOver_nth (h : Z -> Z) (t : list Z) :
  sumOver (fun j => h (nth j t 0)) (seq 0 (length t)) = sumList h t.
Proof.
  induction t as [|x t IH]; simpl.
  - reflexivity.
  - rewrite sumOver_shift. simpl. rewrite IH. reflexivity.
Qed.

Lemma inversions_sumOver (p : list Z) (n : nat) :
  Cube.inversions p n
  = sumOver (fun i =>
      sumOver (fun j => above (nth i p 0) (nth j p 0))
              (seq (i + 1) (n - (i + 1))))
    (range n).
Proof.
  unfold Cube.inversions.
  rewrite (fold_left_ext_eq _
             (fun inv i => inv +
                sumOver (fun j => above (nth i p 0) (nth j p 0))
                        (seq (i + 1) (n - (i + 1))))).
  - rewrite fold_left_add_sum. lia.
  - intros inv i. apply fold_left_add_sum.
Qed.

(** The two nested index loops of [parity] count what [invList] counts. *)
Lemma inversions_invList (l : list Z) :
  Cube.inversions l (length l) = invList l.
Proof.
  rewrite inversions_sumOver.
  induction l as [|x t IH].
  - reflexivity.
  - cbn [length range seq sumOver fold_right invList].
    fold (sumOver (fun i =>
            sumOver (fun j => above (nth i (x :: t) 0) (nth j (x :: t) 0))
              (seq (i + 1) (S (length t) - (i + 1)))) (seq 1 (length t))).
    f_equal.
    + cbn [Nat.add Nat.sub nth]. rewrite Nat.sub_0_r.
      rewrite sumOver_shift. cbn [nth]. apply sumOver_nth.
    + rewrite sumOver_shift. rewrite <- IH. unfold range.
      apply sumOver_ext. intros i _.
      cbn [nth Nat.add Nat.sub]. rewrite sumOver_shift. reflexivity.
Qed.

Lemma parity_invList (l : list Z) :
  Cube.parity l (length l) = (invList l) mod 2.
Proof. unfold Cube.parity. rewrite inversions_invList. apply land1_mod2. Qed.

Lemma adjSwap_Permutation (k : nat) (l : list Z) : Permutation (adjSwap k l) l.
Proof.
  revert l; induction k as [|k IH]; intros l.
  - destruct l as [|a [|b t]]; simpl;
      [apply Permutation_refl | apply Permutation_refl | apply perm_swap].
  - destruct l as [|a t]; simpl;
      [apply Permutation_refl | apply perm_skip, IH].
Qed.

Lemma swaps_Permutation (ks : list nat) (l : list Z) :
  Permutation (swaps ks l) l.
Proof.
  unfold swaps. revert l; induction ks as [|k ks IH]; intros l; simpl.
  - apply Permutation_refl.
  - eapply Permutation_trans; [apply IH | apply adjSwap_Permutation].
Qed.

Lemma sumList_Permutation (h : Z -> Z) (l l' : list Z) :
  Permutation l l' -> sumList h l = sumList h l'.
Proof.
  induction 1; simpl; try lia.
Qed.

(** Exchanging two different neighbours changes the number of inversions
    by one. *)
Lemma invList_adjSwap (k : nat) (l : list Z) :
  (S k < length l)%nat -> NoDup l ->
  invList (adjSwap k l) = invList l + 1
  \/ invList (adjSwap k l) = invList l - 1.
Proof.
  revert l; induction k as [|k IH]; intros l Hlen Hnd.
  - destruct l as [|a [|b t]]; simpl in Hlen; try lia.
    cbn [adjSwap invList sumList fold_right].
    fold (sumList (above a) t). fold (sumList (above b) t).
    assert (Hab : a <> b).
    { inversion Hnd as [|? ? Hnotin _]; subst.
      intros ->. apply Hnotin. left. reflexivity. }
    assert (Hone : above a b + above b a = 1
                   /\ (above a b = 0 \/ above a b = 1)).
    { unfold above. destruct (Z.gtb_spec a b), (Z.gtb_spec b a); lia. }
    lia.
  - destruct l as [|a t]; simpl in Hlen; try lia.
    cbn [adjSwap invList].
    inversion Hnd as [|? ? _ Hnd']; subst.
    rewrite (sumList_Permutation (above a) _ _ (adjSwap_Permutation k t)).
    destruct (IH t) as [H | H]; [lia | exact Hnd' | |]; lia.
Qed.

Lemma parity_adjSwap (k : nat) (l : list Z) :
  (S k < length l)%nat -> NoDup l ->
  (invList (adjSwap k l)) mod 2 = 1 - (invList l) mod 2.
Proof.
  intros Hlen Hnd.
  destruct (invList_adjSwap k l Hlen Hnd) as [-> | ->];
    Z.to_euclidean_division_equations; lia.
Qed.

Lemma adjSwap_length (k : nat) (l : list Z) : length (adjSwap k l) = length l.
Proof.
  revert l; induction k as [|k IH]; intros l.
  - destruct l as [|a [|b t]]; reflexivity.
  - destruct l as [|a t]; simpl; [reflexivity | f_equal; apply IH].
Qed.

(** After [ks], all of them exchanges inside the list, the parity has
    moved by the parity of the number of exchanges. *)
Lemma parity_swaps (ks : list nat) (l : list Z) :
  Forall (fun k => (S k < length l)%nat) ks -> NoDup l ->
  (invList (swaps ks l)) mod 2
  = (invList l + Z.of_nat (length ks)) mod 2.
Proof.
  unfold swaps. revert l; induction ks as [|k ks IH]; intros l Hks Hnd.
  - simpl. f_equal. lia.
  - inversion Hks as [|? ? Hk Hks']; subst.
    cbn [fold_left length].
    rewrite IH.
    + pose proof (parity_adjSwap k l Hk Hnd) as Hp.
      rewrite Nat2Z.inj_succ.
      Z.to_euclidean_division_equations; lia.
    + rewrite adjSwap_length. exact Hks'.
    + eapply Permutation_NoDup; [|exact Hnd].
      apply Permutation_sym, adjSwap_Permutation.
Qed.

(** ** Every move keeps the five checks *)

Lemma applyMove_length (m : Move) (s : Cube.State) :
  length s = 54%nat -> length (Cube.applyMove m s) = 54%nat.
Proof.
  intros Hlen. explode_list s Hlen. destruct m; reflexivity.
Qed.

(** A move permutes the facelets: the count of each colour stays. *)
Lemma applyMove_countColor (c : Color) (m : Move) (s : Cube.State) :
  length s = 54%nat -> countColor c (Cube.applyMove m s) = countColor c s.
Proof.
  intros Hlen. explode_list s Hlen.
  destruct m;
    match goal with
    | |- countColor c ?l = _ =>
        let l' := eval vm_compute in l in change l with l'
    end;
    cbn [countColor fold_right]; lia.
Qed.

(** The centre of each face stays where it is. *)
Lemma applyMove_center (m : Move) (s : Cube.State) (f : nat) :
  length s = 54%nat -> (f < 6)%nat ->
  Cube.get (Cube.applyMove m s) (f * 9 + 4) = Cube.get s (f * 9 + 4).
Proof.
  intros Hlen Hf. explode_list s Hlen.
  destruct m;
    do 6 (destruct f as [|f]; [reflexivity|]); exfalso; lia.
Qed.

Lemma corners_permuted_by_swaps (m : Move) (P : list Z) :
  length P = 8%nat -> permuteBy (srcCorner m) 8 P = swaps (cornerSwaps m) P.
Proof.
  intros Hlen. explode_list P Hlen. destruct m; vm_compute; reflexivity.
Qed.

Lemma edges_permuted_by_swaps (m : Move) (P : list Z) :
  length P = 12%nat -> permuteBy (srcEdge m) 12 P = swaps (edgeSwaps m) P.
Proof.
  intros Hlen. explode_list P Hlen. destruct m; vm_compute; reflexivity.
Qed.

Lemma swaps_inside (m : Move) :
  forallb (fun k => (S k <? 8)%nat) (cornerSwaps m) = true
  /\ forallb (fun k => (S k <? 12)%nat) (edgeSwaps m) = true
  /\ Z.of_nat (length (cornerSwaps m)) mod 2
     = Z.of_nat (length (edgeSwaps m)) mod 2.
Proof. destruct m; vm_compute; auto. Qed.

Lemma allLists_complete (base : nat) (l : list Z) :
  Forall (fun x => 0 <= x < Z.of_nat base) l -> In l (allLists base (length l)).
Proof.
  induction l as [|x l IH]; intros H; simpl.
  - left; reflexivity.
  - inversion H as [|? ? Hx Hl]; subst.
    apply in_flat_map. exists (Z.to_nat x). split.
    + apply in_seq. lia.
    + rewrite Z2Nat.id by lia. apply in_map. apply IH. exact Hl.
Qed.

Lemma corner_twists_cancel_all :
  forallb (fun m =>
    forallb (fun os => oriSum 3 (movedCornerOris m os) =? oriSum 3 os)
            (allLists 3 8))
  allMoves = true.
Proof. vm_compute. reflexivity. Qed.

Lemma edge_flips_cancel_all :
  forallb (fun m =>
    forallb (fun os => oriSum 2 (movedEdgeOris m os) =? oriSum 2 os)
            (allLists 2 12))
  allMoves = true.
Proof. vm_compute. reflexivity. Qed.

Lemma In_allMoves (m : Move) : In m allMoves.
Proof. destruct m; simpl; tauto. Qed.

(** The twists of a move add up to a multiple of three, the flips to an
    even number: the orientation sums do not change. *)
Lemma corner_twists_cancel (m : Move) (os : list Z) :
  length os = 8%nat -> Forall (fun x => 0 <= x < 3) os ->
  oriSum 3 (movedCornerOris m os) = oriSum 3 os.
Proof.
  intros Hlen Hos.
  pose proof corner_twists_cancel_all as H.
  rewrite forallb_forall in H. specialize (H m (In_allMoves m)).
  rewrite forallb_forall in H. apply Z.eqb_eq, H.
  rewrite <- Hlen. apply (allLists_complete 3). exact Hos.
Qed.

Lemma edge_flips_cancel (m : Move) (os : list Z) :
  length os = 12%nat -> Forall (fun x => 0 <= x < 2) os ->
  oriSum 2 (movedEdgeOris m os) = oriSum 2 os.
Proof.
  intros Hlen Hos.
  pose proof edge_flips_cancel_all as H.
  rewrite forallb_forall in H. specialize (H m (In_allMoves m)).
  rewrite forallb_forall in H. apply Z.eqb_eq, H.
  rewrite <- Hlen. apply (allLists_complete 2). exact Hos.
Qed.

Lemma cornerPerms_moved (m : Move) (s : Cube.State) :
  length s = 54%nat ->
  cornerPerms (Cube.applyMove m s) = permuteBy (srcCorner m) 8 (cornerPerms s).
Proof.
  intros Hlen. unfold cornerPerms, permuteBy.
  apply map_ext_in. intros i Hi. apply in_seq in Hi.
  destruct (proj1 (effects_in_range m) i) as (Hsrc & _ & _); [lia|].
  rewrite nth_map_range by exact Hsrc.
  change (Cube.getCornerPermutation i (Cube.applyMove m s))
    with (cornerOf3 (cornerTriple (Cube.applyMove m s) i)).
  rewrite corner_facelets_follow_effects, cornerOf_rot3 by (assumption || lia).
  reflexivity.
Qed.

Lemma edgePerms_moved (m : Move) (s : Cube.State) :
  length s = 54%nat ->
  edgePerms (Cube.applyMove m s) = permuteBy (srcEdge m) 12 (edgePerms s).
Proof.
  intros Hlen. unfold edgePerms, permuteBy.
  apply map_ext_in. intros i Hi. apply in_seq in Hi.
  destruct (proj2 (effects_in_range m) i) as (Hsrc & _ & _); [lia|].
  rewrite nth_map_range by exact Hsrc.
  change (Cube.getEdgePermutation i (Cube.applyMove m s))
    with (edgeOf2 (edgePair (Cube.applyMove m s) i)).
  rewrite edge_facelets_follow_effects, edgeOf_flip2 by (assumption || lia).
  reflexivity.
Qed.

Lemma cornerOris_moved (m : Move) (s : Cube.State) :
  length s = 54%nat -> allCubiesReal s ->
  cornerOris (Cube.applyMove m s) = movedCornerOris m (cornerOris s).
Proof.
  intros Hlen [Hreal _]. unfold cornerOris, movedCornerOris.
  apply map_ext_in. intros i Hi. apply in_seq in Hi.
  destruct (proj1 (effects_in_range m) i) as (Hsrc & Htw & _); [lia|].
  rewrite nth_map_range by exact Hsrc.
  change (Cube.getCornerOrientation i (Cube.applyMove m s))
    with (twistOf3 (cornerTriple (Cube.applyMove m s) i)).
  rewrite corner_facelets_follow_effects by (assumption || lia).
  rewrite twistOf_rot3 by (try exact Htw; apply Hreal; exact Hsrc).
  reflexivity.
Qed.

Lemma edgeOris_moved (m : Move) (s : Cube.State) :
  length s = 54%nat -> allCubiesReal s ->
  edgeOris (Cube.applyMove m s) = movedEdgeOris m (edgeOris s).
Proof.
  intros Hlen [_ Hreal]. unfold edgeOris, movedEdgeOris.
  apply map_ext_in. intros i Hi. apply in_seq in Hi.
  destruct (proj2 (effects_in_range m) i) as (Hsrc & Hfl & _); [lia|].
  rewrite nth_map_range by exact Hsrc.
  change (Cube.getEdgeOrientation i (Cube.applyMove m s))
    with (flipOf2 (edgePair (Cube.applyMove m s) i)).
  rewrite edge_facelets_follow_effects by (assumption || lia).
  rewrite flipOf_flip2 by (try exact Hfl; apply Hreal; exact Hsrc).
  reflexivity.
Qed.

Lemma validPieces_real (n : nat) (getP : nat -> Z) (k : Z) :
  validPieces k (map getP (range n)) ->
  forall i, (i < n)%nat -> getP i <> -1.
Proof.
  intros [Hrange _] i Hi. rewrite Forall_forall in Hrange.
  assert (H : 0 <= getP i < k)
    by (apply Hrange, in_map, in_seq; lia).
  lia.
Qed.

Lemma Solvable_allCubiesReal (s : Cube.State) : Solvable s -> allCubiesReal s.
Proof.
  intros (_ & Hc & _ & He & _). split.
  - exact (validPieces_real 8 (fun i => Cube.getCornerPermutation i s) 8 Hc).
  - exact (validPieces_real 12 (fun i => Cube.getEdgePermutation i s) 12 He).
Qed.

Lemma validPieces_Permutation (n : Z) (l l' : list Z) :
  Permutation l l' -> validPieces n l -> validPieces n l'.
Proof.
  intros Hp [Hr Hnd]. split.
  - eapply Permutation_Forall; eassumption.
  - eapply Permutation_NoDup; eassumption.
Qed.

Lemma forallb_Forall_lt (bound : nat) (ks : list nat) :
  forallb (fun k => (S k <? bound)%nat) ks = true ->
  Forall (fun k => (S k < bound)%nat) ks.
Proof.
  intros H. rewrite forallb_forall in H. apply Forall_forall.
  intros k Hk. apply Nat.ltb_lt, H, Hk.
Qed.

Lemma mod2_add_congr (a b c d : Z) :
  a mod 2 = b mod 2 -> c mod 2 = d mod 2 -> (a + c) mod 2 = (b + d) mod 2.
Proof.
  intros H1 H2. rewrite (Z.add_mod a c), (Z.add_mod b d), H1, H2 by lia.
  reflexivity.
Qed.

(** One move keeps the five checks. *)
Lemma Solvable_applyMove (m : Move) (s : Cube.State) :
  length s = 54%nat -> Solvable s -> Solvable (Cube.applyMove m s).
Proof.
  intros Hlen Hs.
  pose proof (Solvable_allCubiesReal s Hs) as Hreal.
  destruct Hs as (Hcol & HvC & HsC & HvE & HsE & Hpar).
  destruct (swaps_inside m) as (HkC & HkE & Hkpar).
  apply forallb_Forall_lt in HkC. apply forallb_Forall_lt in HkE.
  assert (HlC : length (cornerPerms s) = 8%nat) by reflexivity.
  assert (HlE : length (edgePerms s) = 12%nat) by reflexivity.
  assert (HpC : cornerPerms (Cube.applyMove m s)
                = swaps (cornerSwaps m) (cornerPerms s)).
  { rewrite cornerPerms_moved by exact Hlen.
    apply corners_permuted_by_swaps. exact HlC. }
  assert (HpE : edgePerms (Cube.applyMove m s)
                = swaps (edgeSwaps m) (edgePerms s)).
  { rewrite edgePerms_moved by exact Hlen.
    apply edges_permuted_by_swaps. exact HlE. }
  split; [|split; [|split; [|split; [|split]]]].
  - intros c. rewrite applyMove_countColor by exact Hlen. apply Hcol.
  - rewrite HpC. eapply validPieces_Permutation; [|exact HvC].
    apply Permutation_sym, swaps_Permutation.
  - rewrite cornerOris_moved by assumption.
    rewrite corner_twists_cancel; [exact HsC | reflexivity |].
    apply Forall_forall. intros o Ho. apply in_map_iff in Ho.
    destruct Ho as (i & <- & _).
    pose proof (twistOf3_range (cornerTriple s i)) as H. exact H.
  - rewrite HpE. eapply validPieces_Permutation; [|exact HvE].
    apply Permutation_sym, swaps_Permutation.
  - rewrite edgeOris_moved by assumption.
    rewrite edge_flips_cancel; [exact HsE | reflexivity |].
    apply Forall_forall. intros o Ho. apply in_map_iff in Ho.
    destruct Ho as (i & <- & _).
    pose proof (flipOf2_range (edgePair s i)) as H. exact H.
  - change 8%nat with (length (cornerPerms (Cube.applyMove m s))) at 1.
    change 12%nat with (length (edgePerms (Cube.applyMove m s))) at 1.
    rewrite !parity_invList, HpC, HpE.
    rewrite !parity_swaps;
      try (rewrite ?HlC, ?HlE; assumption);
      try apply HvC; try apply HvE.
    apply mod2_add_congr; [|exact Hkpar].
    rewrite <- !parity_invList. exact Hpar.
Qed.

(** ** Every state reached from the solved cube is solvable (C3) *)

Lemma Reached_reset : Reached Cube.reset.
Proof.
  split; [reflexivity | split; [|reflexivity]].
  apply isSolvable_iff. reflexivity.
Qed.

Lemma Reached_applyMove (m : Move) (s : Cube.State) :
  Reached s -> Reached (Cube.applyMove m s).
Proof.
  intros (Hlen & Hs & Hc). split; [|split].
  - apply applyMove_length, Hlen.
  - apply Solvable_applyMove; assumption.
  - rewrite <- Hc. unfold centers. apply map_ext_in.
    intros f Hf. apply in_seq in Hf. apply applyMove_center; [exact Hlen | lia].
Qed.

Lemma Reached_applyMoves (ms : list Move) :
  forall s, Reached s -> Reached (Cube.applyMoves ms s).
Proof.
  unfold Cube.applyMoves.
  induction ms as [|m ms IH]; intros s Hs; simpl.
  - exact Hs.
  - apply IH, Reached_applyMove, Hs.
Qed.

Lemma oriSum_mod (m : Z) (os : list Z) :
  0 < m -> Forall (fun x => 0 <= x) os -> oriSum m os = (sumZ os) mod m.
Proof.
  intros Hm Hos. unfold oriSum.
  assert (G : forall acc, 0 <= acc < m ->
            fold_left (fun acc o => Z.rem (acc + o) m) os acc
            = (acc + sumZ os) mod m).
  { induction Hos as [|o os Ho Hos IH]; intros acc Hacc; simpl.
    - rewrite Z.add_0_r, Z.mod_small by lia. reflexivity.
    - rewrite Z.rem_mod_nonneg by lia.
      rewrite IH by (apply Z.mod_pos_bound; lia).
      rewrite Zplus_mod_idemp_l. f_equal. lia. }
  rewrite G by lia. reflexivity.
Qed.

Lemma validPieces_is_permutation (n : nat) (ps : list Z) :
  length ps = n -> validPieces (Z.of_nat n) ps ->
  Permutation ps (map Z.of_nat (range n)).
Proof.
  intros Hlen [Hrange Hnd].
  apply NoDup_Permutation_bis; [exact Hnd | |].
  - unfold range. rewrite length_map, length_seq, Hlen. apply le_n.
  - intros p Hp. rewrite Forall_forall in Hrange. specialize (Hrange p Hp).
    apply in_map_iff. exists (Z.to_nat p). split; [lia|].
    apply in_seq. lia.
Qed.

Lemma map_u8_small (l : list Z) :
  Forall isByte l -> map u8 l = l.
Proof.
  induction 1 as [|x l Hx Hl IH]; simpl; [reflexivity|].
  rewrite IH, u8_small by exact Hx. reflexivity.
Qed.

Lemma Forall_weaken_range (b : Z) (l : list Z) :
  b <= 256 -> Forall (fun x => 0 <= x < b) l -> Forall isByte l.
Proof.
  intros Hb H. eapply Forall_impl; [|exact H].
  intros x Hx. unfold isByte. simpl in Hx. lia.
Qed.

(** On an array that passes the checks, [toCubie] stores what the queries
    report: no [-1] is cut to 255. *)
Lemma toCubie_of_Solvable (s : Cube.State) :
  Solvable s ->
  Solver.toCubie s
  = Solver.mkCubie (cornerPerms s) (cornerOris s) (edgePerms s) (edgeOris s).
Proof.
  intros (_ & [HrC _] & _ & [HrE _] & _).
  unfold Solver.toCubie.
  rewrite <- (map_map (fun i => Cube.getCornerPermutation i s) u8).
  rewrite <- (map_map (fun i => Cube.getCornerOrientation i s) u8).
  rewrite <- (map_map (fun i => Cube.getEdgePermutation i s) u8).
  rewrite <- (map_map (fun i => Cube.getEdgeOrientation i s) u8).
  fold (cornerPerms s) (cornerOris s) (edgePerms s) (edgeOris s).
  rewrite !map_u8_small; [reflexivity | | | |].
  - apply Forall_forall. intros o Ho. apply in_map_iff in Ho.
    destruct Ho as (i & <- & _).
    pose proof (flipOf2_range (edgePair s i)) as H. unfold isByte.
    change (Cube.getEdgeOrientation i s) with (flipOf2 (edgePair s i)). lia.
  - eapply (Forall_weaken_range 12); [lia | exact HrE].
  - apply Forall_forall. intros o Ho. apply in_map_iff in Ho.
    destruct Ho as (i & <- & _).
    pose proof (twistOf3_range (cornerTriple s i)) as H. unfold isByte.
    change (Cube.getCornerOrientation i s) with (twistOf3 (cornerTriple s i)).
    lia.
  - eapply (Forall_weaken_range 8); [lia | exact HrC].
Qed.

(** C3. After every sequence of moves from the solved cube: each colour
    is on nine facelets, the six centres show their home colours, [cp] is
    a permutation of 0..7 and [ep] of 0..11, the corner orientations sum
    to 0 modulo 3, the edge orientations to 0 modulo 2, [cp] and [ep] have
    the same parity, and [isSolvable] answers [true]. *)
Theorem reachable_states_are_solvable :
  forall ms : list Move,
    let s := Cube.applyMoves ms Cube.reset in
    (forall c, countColor c s = 9)
    /\ centers s = Cube.kFaceColor
    /\ Permutation (Solver.cp (Solver.toCubie s)) (map Z.of_nat (range 8))
    /\ Permutation (Solver.ep (Solver.toCubie s)) (map Z.of_nat (range 12))
    /\ (sumZ (Solver.co (Solver.toCubie s))) mod 3 = 0
    /\ (sumZ (Solver.eo (Solver.toCubie s))) mod 2 = 0
    /\ Cube.parity (Solver.cp (Solver.toCubie s)) 8
       = Cube.parity (Solver.ep (Solver.toCubie s)) 12
    /\ Cube.isSolvable s = true.
Proof.
  intros ms s.
  destruct (Reached_applyMoves ms Cube.reset Reached_reset)
    as (Hlen & Hs & Hcen).
  fold s in Hlen, Hs, Hcen.
  pose proof (proj2 (isSolvable_iff s) Hs) as Hb.
  rewrite (toCubie_of_Solvable s Hs).
  cbn [Solver.cp Solver.co Solver.ep Solver.eo].
  destruct Hs as (Hcol & HvC & HsC & HvE & HsE & Hpar).
  split; [exact Hcol|]. split; [exact Hcen|].
  split; [apply (validPieces_is_permutation 8); [reflexivity | exact HvC]|].
  split; [apply (validPieces_is_permutation 12); [reflexivity | exact HvE]|].
  split.
  { rewrite <- oriSum_mod; [exact HsC | lia |].
    apply Forall_forall. intros o Ho. apply in_map_iff in Ho.
    destruct Ho as (i & <- & _).
    pose proof (twistOf3_range (cornerTriple s i)) as H.
    change (Cube.getCornerOrientation i s) with (twistOf3 (cornerTriple s i)).
    lia. }
  split.
  { rewrite <- oriSum_mod; [exact HsE | lia |].
    apply Forall_forall. intros o Ho. apply in_map_iff in Ho.
    destruct Ho as (i & <- & _).
    pose proof (flipOf2_range (edgePair s i)) as H.
    change (Cube.getEdgeOrientation i s) with (flipOf2 (edgePair s i)).
    lia. }
  split; [exact Hpar | exact Hb].
Qed.

(** ** A solvable-looking cube that no move sequence solves (C1) *)

Lemma handed_rot3 (t : Z) (c : Color * Color * Color) :
  handed (rot3 t c) = handed c.
Proof.
  destruct c as [[c0 c1] c2]. unfold rot3 at 1.
  destruct (t =? 0); [reflexivity|].
  destruct (t =? 1); destruct c0, c1, c2; reflexivity.
Qed.

Lemma CentersSwappedInv_applyMove (m : Move) (s : Cube.State) :
  CentersSwappedInv s -> CentersSwappedInv (Cube.applyMove m s).
Proof.
  intros (Hlen & Hc & Hh). split; [|split].
  - apply applyMove_length, Hlen.
  - rewrite <- Hc. unfold centers. apply map_ext_in.
    intros f Hf. apply in_seq in Hf. apply applyMove_center; [exact Hlen | lia].
  - intros i Hi.
    rewrite corner_facelets_follow_effects, handed_rot3 by assumption.
    apply Hh. apply (proj1 (effects_in_range m) i Hi).
Qed.

Lemma CentersSwappedInv_applyMoves (ms : list Move) :
  forall s, CentersSwappedInv s -> CentersSwappedInv (Cube.applyMoves ms s).
Proof.
  unfold Cube.applyMoves.
  induction ms as [|m ms IH]; intros s Hs; simpl.
  - exact Hs.
  - apply IH, CentersSwappedInv_applyMove, Hs.
Qed.

Lemma isSolved_facelet (s : Cube.State) (f i : nat) :
  Cube.isSolved s = true -> (f < 6)%nat -> (i < 9)%nat ->
  Cube.get s (f * 9 + i) = Cube.get s (f * 9 + 4).
Proof.
  unfold Cube.isSolved. intros H Hf Hi.
  pose proof (forallb_range_nat _ _ H f Hf) as H1. cbv beta zeta in H1.
  pose proof (forallb_range_nat _ _ H1 i Hi) as H2. cbv beta in H2.
  apply Color_eqb_eq in H2. exact H2.
Qed.

Lemma CentersSwappedInv_not_solved (s : Cube.State) :
  CentersSwappedInv s -> Cube.isSolved s = false.
Proof.
  intros (_ & Hc & Hh).
  destruct (Cube.isSolved s) eqn:E; [exfalso | reflexivity].
  specialize (Hh 0%nat ltac:(lia)).
  unfold cornerTriple in Hh.
  change (Cube.cornerFacelet 0 0) with (0 * 9 + 8)%nat in Hh.
  change (Cube.cornerFacelet 0 1) with (3 * 9 + 0)%nat in Hh.
  change (Cube.cornerFacelet 0 2) with (4 * 9 + 2)%nat in Hh.
  rewrite (isSolved_facelet s 0 8 E), (isSolved_facelet s 3 0 E),
    (isSolved_facelet s 4 2 E) in Hh by lia.
  unfold centers in Hc. cbv [map range seq] in Hc.
  injection Hc as H0 _ _ H3 H4 _.
  cbn [Nat.mul Nat.add] in H0, H3, H4, Hh.
  rewrite H0, H3, H4 in Hh. discriminate Hh.
Qed.

(** C1 fails on [centersSwapped].  [isSolvable] answers [true] and
    [isSolved] answers [false], so the claim promises a solving sequence;
    but no move sequence at all solves this array, and in particular not
    the one [solve] returns, whatever the tables, the cancel flag and the
    progress counters.  With pruning tables that hold 0 at index 0, where
    the breadth-first fill of [Tables::init] starts, and no cancel flag,
    [solve] returns the empty sequence: the cubie snapshot of this array
    is the one of the solved cube.  The bound of the claim does hold:
    [solve] never returns more than 31 moves. *)
Theorem solve_cannot_solve_swapped_centers :
  Cube.isSolvable centersSwapped = true
  /\ Cube.isSolved centersSwapped = false
  /\ (forall ms : list Move,
        Cube.isSolved (Cube.applyMoves ms centersSwapped) = false)
  /\ (forall (t : Solver.Tables) (flag : option (nat -> bool)) (k : nat)
             (p : option Solver.SolverProgress),
        Cube.isSolved
          (Cube.applyMoves
             (fst (Solver.solve t (Solver.mkWorld centersSwapped flag k p)))
             centersSwapped) = false)
  /\ (forall (e : Solver.MoveEffects) (m1 m2 m3 m4 m5 m6 : list (list Z))
             (p1 p2 p3 p4 : list Z) (k : nat)
             (p : option Solver.SolverProgress),
        fst (Solver.solve
               (Solver.mkTables e m1 m2 m3 m4 m5 m6
                  (0 :: p1) (0 :: p2) (0 :: p3) (0 :: p4))
               (Solver.mkWorld centersSwapped None k p)) = [])
  /\ (forall (t : Solver.Tables) (w : Solver.World),
        (length (fst (Solver.solve t w)) <= 31)%nat).
Proof.
  assert (Hinv : CentersSwappedInv centersSwapped).
  { split; [reflexivity | split; [reflexivity|]].
    intros i Hi. do 8 (destruct i as [|i]; [reflexivity|]). exfalso; lia. }
  assert (Hall : forall ms : list Move,
             Cube.isSolved (Cube.applyMoves ms centersSwapped) = false).
  { intros ms. apply CentersSwappedInv_not_solved.
    apply CentersSwappedInv_applyMoves, Hinv. }
  split; [reflexivity | split; [reflexivity | split; [exact Hall|]]].
  split; [|split].
  - intros t flag k p. apply Hall.
  - intros. vm_compute. reflexivity.
  - apply solve_length_at_most_31.
Qed.

(** ** [faceletIndexFor] and the sticker coordinates of the reference model (X1, X2) *)

Ltac split_unit x H :=
  let E := fresh in
  assert (E : x = -1 \/ x = 0 \/ x = 1) by (unfold unitCoord in H; lia);
  destruct E as [-> | [-> | ->]]; clear H.

Ltac split_face f H :=
  let E := fresh in
  assert (E : f = 0 \/ f = 1 \/ f = 2 \/ f = 3 \/ f = 4 \/ f = 5) by lia;
  destruct E as [-> | [-> | [-> | [-> | [-> | ->]]]]]; clear H.

Lemma faceletIndexFor_range (face x y z : Z) :
  Cube.faceletIndexFor face x y z = -1
  \/ 0 <= Cube.faceletIndexFor face x y z <= 8.
Proof.
  unfold Cube.faceletIndexFor.
  set (rc := match face with 0 => _ | _ => _ end). clearbody rc.
  destruct rc as [[row col]|]; [|left; reflexivity].
  destruct (row <? 0) eqn:E1; [left; reflexivity|].
  destruct (row >? 2) eqn:E2; [left; reflexivity|].
  destruct (col <? 0) eqn:E3; [left; reflexivity|].
  destruct (col >? 2) eqn:E4; [left; reflexivity|].
  right. simpl. lia.
Qed.

Lemma faceletIndexFor_off_faces (face x y z : Z) :
  ~ (0 <= face <= 5) -> Cube.faceletIndexFor face x y z = -1.
Proof.
  intros H. unfold Cube.faceletIndexFor.
  destruct face as [|p|p]; [lia| |reflexivity].
  destruct p as [[[?|?|]|[?|?|]|]|[[?|?|]|[?|?|]|]|]; try reflexivity; lia.
Qed.

(** X1. [faceletIndexFor] returns -1 or an index from 0 to 8, for every
    argument.  For a cubie position with components in {-1, 0, 1} it
    returns an index exactly when [face] is one of the six faces and the
    position lies in the layer of that face. *)
Theorem faceletIndexFor_defined_on_face :
  (forall face x y z,
     Cube.faceletIndexFor face x y z = -1
     \/ 0 <= Cube.faceletIndexFor face x y z <= 8)
  /\ (forall face x y z,
        unitCoord x -> unitCoord y -> unitCoord z ->
        (Cube.faceletIndexFor face x y z <> -1 <-> onFace face x y z)).
Proof.
  split; [apply faceletIndexFor_range|].
  intros face x y z Hx Hy Hz.
  destruct (Z_le_dec 0 face) as [H0|H0];
    [destruct (Z_le_dec face 5) as [H5|H5]|].
  - assert (Hf : 0 <= face <= 5) by lia.
    split_unit x Hx; split_unit y Hy; split_unit z Hz; split_face face Hf;
      unfold onFace; vm_compute; split;
      solve [ intros _; split; [split; discriminate | reflexivity]
            | intros H; exfalso; apply H; reflexivity
            | intros [_ H]; discriminate H
            | intros _ H; discriminate H ].
  - split; [intros H; exfalso; apply H, faceletIndexFor_off_faces; lia|].
    intros [Hf _]; lia.
  - split; [intros H; exfalso; apply H, faceletIndexFor_off_faces; lia|].
    intros [Hf _]; lia.
Qed.

Lemma faceletIndexFor_defined_on_face_witness :
  Cube.faceletIndexFor 4 (-1) 1 1 <> -1 <-> onFace 4 (-1) 1 1.
Proof.
  apply (proj2 faceletIndexFor_defined_on_face 4 (-1) 1 1);
    unfold unitCoord; lia.
Defined.

(** X2. The two sticker maps of the reference model are inverse to each
    other: [locToIndex (indexToLoc i) = i] for the 54 sticker indices, and
    [indexToLoc] of the index [face * 9 + faceletIndexFor face x y z] is
    the position [(x, y, z)] looking out of [face], whenever
    [faceletIndexFor] gives an index. *)
Theorem sticker_index_roundtrip :
  (forall i, 0 <= i < 54 -> Physical.locToIndex (Physical.indexToLoc i) = i)
  /\ (forall face x y z,
        unitCoord x -> unitCoord y -> unitCoord z ->
        Cube.faceletIndexFor face x y z <> -1 ->
        Physical.indexToLoc (face * 9 + Cube.faceletIndexFor face x y z)
        = Physical.mkLoc (Physical.mkVec x y z) face).
Proof.
  split.
  - intros i Hi.
    assert (H : allBelow 54
                  (fixedAt (fun i => Physical.locToIndex (Physical.indexToLoc i)))
                = true) by (vm_compute; reflexivity).
    apply (fixedAt_true _ _ (allBelow_spec _ _ H i Hi)).
  - intros face x y z Hx Hy Hz Hne.
    destruct (Z_le_dec 0 face) as [H0|H0];
      [destruct (Z_le_dec face 5) as [H5|H5]|];
      try (exfalso; apply Hne, faceletIndexFor_off_faces; lia).
    assert (Hf : 0 <= face <= 5) by lia.
    split_unit x Hx; split_unit y Hy; split_unit z Hz; split_face face Hf;
      first [ reflexivity | exfalso; apply Hne; reflexivity ].
Qed.

Lemma sticker_index_roundtrip_witness :
  Physical.locToIndex (Physical.indexToLoc 47) = 47.
Proof. apply (proj1 sticker_index_roundtrip 47). lia. Defined.

(** ** The facelet engine against the physical reference model (X3) *)

(** X3. On every 54-facelet array and for each of the 18 moves,
    [Cube::applyMove] gives the array that the test program's
    [applyMovePhysical] computes by rotating cubie coordinates. *)
Theorem applyMove_matches_physical_model (m : Move) (s : Cube.State) :
  length s = 54%nat -> Physical.applyMovePhysical s m = Cube.applyMove m s.
Proof.
  intros H. explode_list s H.
  destruct m; vm_compute; reflexivity.
Qed.

Lemma applyMove_matches_physical_model_witness :
  Physical.applyMovePhysical (Cube.applyMoves [R; U] Cube.reset) Fp
  = Cube.applyMove Fp (Cube.applyMoves [R; U] Cube.reset).
Proof. apply (applyMove_matches_physical_model Fp (Cube.applyMoves [R; U] Cube.reset)). reflexivity. Defined.

(** ** Face turns and the algebra of the moves (X4 to X7) *)

Lemma applyMove_inverse_l (m : Move) (s : Cube.State) :
  length s = 54%nat -> Cube.applyMove (Cube.inverseMove m) (Cube.applyMove m s) = s.
Proof. intros H. explode_list s H. destruct m; vm_compute; reflexivity. Qed.

Lemma applyMoves_length (ms : list Move) :
  forall s, length s = 54%nat -> length (Cube.applyMoves ms s) = 54%nat.
Proof.
  induction ms as [|m ms IH]; intros s H; [exact H|].
  apply IH, applyMove_length, H.
Qed.

Lemma applyMoves_app (a b : list Move) (s : Cube.State) :
  Cube.applyMoves (a ++ b) s = Cube.applyMoves b (Cube.applyMoves a s).
Proof. apply fold_left_app. Qed.

(** X4. [rotateFaceCCW] undoes [rotateFaceCW] and the other way round;
    [rotateFaceCW] changes nothing outside the nine facelets of its face
    and leaves the centre facelet of the face in place. *)
Theorem rotateFace_turns :
  forall (face : nat) (s : Cube.State),
    (face < 6)%nat -> length s = 54%nat ->
    Cube.rotateFaceCCW face (Cube.rotateFaceCW face s) = s
    /\ Cube.rotateFaceCW face (Cube.rotateFaceCCW face s) = s
    /\ (forall i, (i < 54)%nat -> (i / 9 <> face)%nat ->
          Cube.get (Cube.rotateFaceCW face s) i = Cube.get s i)
    /\ Cube.get (Cube.rotateFaceCW face s) (face * 9 + 4) = Cube.get s (face * 9 + 4).
Proof.
  intros face s Hf H. explode_list s H.
  do 6 (destruct face as [|face]; [repeat split; try reflexivity;
     (intros i Hi Hne;
      do 54 (destruct i as [|i]; [first [reflexivity | exfalso; apply Hne; reflexivity]|]);
      lia) |]).
  lia.
Qed.

Lemma rotateFace_turns_witness :
  Cube.rotateFaceCCW 4
    (Cube.rotateFaceCW 4 (Cube.applyMoves [R; U] Cube.reset))
  = Cube.applyMoves [R; U] Cube.reset.
Proof.
  assert (H1 : (4 < 6)%nat) by lia.
  exact (proj1 (rotateFace_turns 4 (Cube.applyMoves [R; U] Cube.reset)
                  H1 eq_refl)).
Defined.

(** X5. Every move applied four times gives the array back, a half turn
    already when applied twice, and a move applied three times is its
    [inverseMove]. *)
Theorem move_orders :
  forall (m : Move) (s : Cube.State),
    length s = 54%nat ->
    Cube.applyMove m (Cube.applyMove m (Cube.applyMove m (Cube.applyMove m s))) = s
    /\ (quarterTurns m = 2 -> Cube.applyMove m (Cube.applyMove m s) = s)
    /\ Cube.applyMove m (Cube.applyMove m (Cube.applyMove m s))
       = Cube.applyMove (Cube.inverseMove m) s.
Proof.
  intros m s H. explode_list s H.
  destruct m; (split; [vm_compute; reflexivity|]);
    (split; [|vm_compute; reflexivity]); intros Hq;
    first [ discriminate Hq | vm_compute; reflexivity ].
Qed.

Lemma move_orders_witness :
  Cube.applyMove F2 (Cube.applyMove F2 (Cube.applyMoves [L; U] Cube.reset))
  = Cube.applyMoves [L; U] Cube.reset.
Proof.
  apply (proj1 (proj2 (move_orders F2 (Cube.applyMoves [L; U] Cube.reset) eq_refl))).
  reflexivity.
Defined.

(** X6. A pair of consecutive moves that [moveAllowedPrune] refuses costs
    the search nothing: either both moves turn the same face, and the pair
    equals one move of that face or no move at all, or the two moves
    commute and the pair in the other order is allowed. *)
Theorem pruned_pairs_are_redundant :
  forall (l m : Move) (s : Cube.State),
    length s = 54%nat ->
    Solver.moveAllowedPrune (moveIndex m) (moveIndex l) = false ->
    (faceOfMove m = faceOfMove l
     /\ Cube.applyMove m (Cube.applyMove l s)
        = match sameFaceProduct l m with
          | Some single => Cube.applyMove single s
          | None => s
          end)
    \/ (Solver.moveAllowedPrune (moveIndex l) (moveIndex m) = true
        /\ Cube.applyMove m (Cube.applyMove l s)
           = Cube.applyMove l (Cube.applyMove m s)).
Proof.
  intros l m s H Hp. explode_list s H.
  destruct l, m; try discriminate Hp; clear Hp;
    first [ left; split; [reflexivity | vm_compute; reflexivity]
          | right; split; [reflexivity | vm_compute; reflexivity] ].
Qed.

Lemma pruned_pairs_are_redundant_witness :
  Cube.applyMove U (Cube.applyMove D (Cube.applyMoves [F; R] Cube.reset))
  = Cube.applyMove D (Cube.applyMove U (Cube.applyMoves [F; R] Cube.reset)).
Proof.
  destruct (pruned_pairs_are_redundant D U (Cube.applyMoves [F; R] Cube.reset)
              eq_refl eq_refl) as [[Hface _] | [_ Heq]].
  - discriminate Hface.
  - exact Heq.
Defined.

(** X7. A move sequence followed by the inverses of its moves in reverse
    order gives the 54-facelet array back. *)
Theorem inverse_sequence_undoes :
  forall (ms : list Move) (s : Cube.State),
    length s = 54%nat ->
    Cube.applyMoves (map Cube.inverseMove (rev ms)) (Cube.applyMoves ms s) = s.
Proof.
  intros ms. induction ms as [|m ms IH] using rev_ind; intros s H; [reflexivity|].
  rewrite rev_app_distr. simpl rev. simpl app. rewrite applyMoves_app.
  simpl. rewrite applyMove_inverse_l by (apply applyMoves_length, H).
  apply IH, H.
Qed.

Lemma inverse_sequence_undoes_witness :
  Cube.applyMoves (map Cube.inverseMove (rev [R; U2; Fp]))
    (Cube.applyMoves [R; U2; Fp] Cube.reset) = Cube.reset.
Proof. apply (inverse_sequence_undoes [R; U2; Fp] Cube.reset). reflexivity. Defined.

(** ** [isSolvable] along move sequences, [scramble], solved states (X8 to X10) *)

Lemma isSolvable_applyMove (m : Move) (s : Cube.State) :
  length s = 54%nat -> Cube.isSolvable (Cube.applyMove m s) = Cube.isSolvable s.
Proof.
  intros H.
  destruct (Cube.isSolvable s) eqn:E.
  - apply isSolvable_iff, Solvable_applyMove, isSolvable_iff; assumption.
  - destruct (Cube.isSolvable (Cube.applyMove m s)) eqn:E'; [|reflexivity].
    rewrite <- E. symmetry.
    rewrite <- (applyMove_inverse_l m s H) at 1.
    apply isSolvable_iff, Solvable_applyMove;
      [apply applyMove_length, H | apply isSolvable_iff, E'].
Qed.

Lemma isSolvable_applyMoves (ms : list Move) :
  forall s, length s = 54%nat ->
    Cube.isSolvable (Cube.applyMoves ms s) = Cube.isSolvable s.
Proof.
  induction ms as [|m ms IH]; intros s H; [reflexivity|].
  simpl. rewrite IH by (apply applyMove_length, H).
  apply isSolvable_applyMove, H.
Qed.

(** X8. Moves change the answer of [isSolvable] in neither direction: a
    54-facelet array and every array reached from it by moves get the same
    answer. *)
Theorem isSolvable_invariant_under_moves :
  forall (ms : list Move) (s : Cube.State),
    length s = 54%nat ->
    Cube.isSolvable (Cube.applyMoves ms s) = Cube.isSolvable s.
Proof. intros ms s H. apply isSolvable_applyMoves, H. Qed.

Lemma isSolvable_invariant_under_moves_witness :
  Cube.isSolvable (Cube.applyMoves [R; U; Fp] stickersSwapped)
  = Cube.isSolvable stickersSwapped.
Proof. apply (isSolvable_invariant_under_moves [R; U; Fp] stickersSwapped). reflexivity. Defined.

Lemma scramble_loop (draws : nat -> Z) (ks : list nat) (s : Cube.State) :
  fold_left (fun st i => Cube.applyMoveInt (draws i) st) ks s
  = Cube.applyMoves
      (flat_map (fun i => match moveOfIndex (draws i) with
                          | Some m => [m] | None => [] end) ks) s.
Proof.
  revert s; induction ks as [|k ks IH]; intros s; [reflexivity|].
  simpl. rewrite IH. unfold Cube.applyMoveInt.
  destruct (moveOfIndex (draws k)); reflexivity.
Qed.

(** X9. [scramble] on a cube that [isSolvable] accepts applies the drawn
    moves and returns the result, which [isSolvable] accepts again, so the
    guard at its end does not fire.  On a cube that [isSolvable] refuses
    the guard always fires: the release build returns the reset cube, the
    debug build stops at the [assert].  No move is made for
    [numMoves <= 0]; with draws in 0..17 exactly [numMoves] moves are
    made. *)
Theorem scramble_guard :
  forall (ndebug : bool) (draws : nat -> Z) (numMoves : Z) (s : Cube.State),
    length s = 54%nat ->
    (Cube.isSolvable s = true ->
       Cube.scramble ndebug draws numMoves s
       = Some (Cube.applyMoves (scrambleMoves draws numMoves) s)
       /\ Cube.isSolvable (Cube.applyMoves (scrambleMoves draws numMoves) s) = true)
    /\ (Cube.isSolvable s = false ->
       Cube.scramble ndebug draws numMoves s
       = if ndebug then Some Cube.reset else None)
    /\ (numMoves <= 0 -> scrambleMoves draws numMoves = [])
    /\ ((forall i, 0 <= draws i <= 17) ->
        length (scrambleMoves draws numMoves) = Z.to_nat numMoves).
Proof.
  intros ndebug draws numMoves s H.
  assert (E : Cube.isSolvable (Cube.applyMoves (scrambleMoves draws numMoves) s)
              = Cube.isSolvable s) by (apply isSolvable_applyMoves, H).
  split; [|split; [|split]].
  - intros Hs. unfold Cube.scramble. rewrite scramble_loop.
    fold (scrambleMoves draws numMoves). rewrite E, Hs.
    destruct ndebug; split; reflexivity.
  - intros Hs. unfold Cube.scramble. rewrite scramble_loop.
    fold (scrambleMoves draws numMoves). rewrite E, Hs.
    destruct ndebug; reflexivity.
  - intros Hn. unfold scrambleMoves.
    replace (Z.to_nat numMoves) with O by lia. reflexivity.
  - intros Hd. unfold scrambleMoves, range.
    generalize 0%nat as a. induction (Z.to_nat numMoves) as [|n IH]; intros a;
      [reflexivity|].
    simpl. rewrite length_app, IH.
    specialize (Hd a).
    assert (Hm : exists m, moveOfIndex (draws a) = Some m).
    { unfold moveOfIndex.
      destruct (Z.ltb_spec (draws a) 0); [lia|].
      destruct (Z.ltb_spec 17 (draws a)); [lia|]. simpl.
      destruct (nth_error allMoves (Z.to_nat (draws a))) eqn:En; [eauto|].
      apply nth_error_None in En. simpl in En. lia. }
    destruct Hm as [m ->]. reflexivity.
Qed.

Lemma scramble_guard_witness :
  Cube.scramble true (fun i => Z.of_nat (5 * i + 3)) 3 (Cube.applyMove R Cube.reset)
  = Some (Cube.applyMoves (scrambleMoves (fun i => Z.of_nat (5 * i + 3)) 3)
            (Cube.applyMove R Cube.reset)).
Proof.
  apply (proj1 (scramble_guard true (fun i => Z.of_nat (5 * i + 3)) 3
                  (Cube.applyMove R Cube.reset) eq_refl)).
  vm_compute. reflexivity.
Defined.

Ltac facelet_is_centre Hs f i :=
  let E := fresh in
  pose proof (isSolved_facelet _ f i Hs ltac:(lia) ltac:(lia)) as E;
  unfold Cube.get in E; simpl in E; try subst; try clear E.

Ltac face_is_centre Hs f :=
  facelet_is_centre Hs f 0%nat; facelet_is_centre Hs f 1%nat;
  facelet_is_centre Hs f 2%nat; facelet_is_centre Hs f 3%nat;
  facelet_is_centre Hs f 5%nat; facelet_is_centre Hs f 6%nat;
  facelet_is_centre Hs f 7%nat; facelet_is_centre Hs f 8%nat.

(** X10. A cube reached from the reset cube by moves that [isSolved]
    accepts is the reset cube itself, not another array with six uniform
    faces. *)
Theorem solved_reachable_state_is_reset :
  forall ms : list Move,
    Cube.isSolved (Cube.applyMoves ms Cube.reset) = true ->
    Cube.applyMoves ms Cube.reset = Cube.reset.
Proof.
  intros ms Hs.
  destruct (Reached_applyMoves ms _ Reached_reset) as (Hlen & _ & Hc).
  set (s := Cube.applyMoves ms Cube.reset) in *. clearbody s.
  explode_list s Hlen.
  unfold centers in Hc. simpl in Hc. unfold Cube.get in Hc. simpl in Hc.
  injection Hc as -> -> -> -> -> ->.
  face_is_centre Hs 0%nat; face_is_centre Hs 1%nat; face_is_centre Hs 2%nat;
  face_is_centre Hs 3%nat; face_is_centre Hs 4%nat; face_is_centre Hs 5%nat.
  reflexivity.
Qed.

Lemma solved_reachable_state_is_reset_witness :
  Cube.applyMoves [R; Rp; U2; U2] Cube.reset = Cube.reset.
Proof. apply (solved_reachable_state_is_reset [R; Rp; U2; U2]). reflexivity. Defined.

(** ** The coordinate queries of [Cube] against the solver's codec (X11, X12) *)

Lemma fold_left_ext_in {A B : Type} (f g : A -> B -> A) (l : list B) (a : A) :
  (forall x y, In y l -> f x y = g x y) -> fold_left f l a = fold_left g l a.
Proof.
  revert a; induction l as [|y l IH]; intros a H; [reflexivity|].
  simpl. rewrite (H a y (or_introl eq_refl)). apply IH.
  intros x z Hz. apply H. right. exact Hz.
Qed.

Lemma lehmerLoop_permCoord8 (p : list Z) :
  Cube.lehmerLoop 8 p 0 = Solver.perm8Coord p.
Proof.
  unfold Cube.lehmerLoop, Solver.perm8Coord, Solver.permCoord.
  apply fold_left_ext_in. intros coord i Hi.
  apply in_seq in Hi.
  do 8 (destruct i as [|i]; [reflexivity|]). lia.
Qed.

Lemma lehmerLoop_permCoord4 (p : list Z) :
  Cube.lehmerLoop 4 p 0 = Solver.perm4Coord p.
Proof.
  unfold Cube.lehmerLoop, Solver.perm4Coord, Solver.permCoord.
  apply fold_left_ext_in. intros coord i Hi.
  apply in_seq in Hi.
  do 4 (destruct i as [|i]; [reflexivity|]). lia.
Qed.

Lemma binom_kBinom (n k : nat) :
  (n <= 12)%nat -> (k <= 4)%nat ->
  Cube.binom (Z.of_nat n) (Z.of_nat k) = Solver.kBinom n k.
Proof.
  intros Hn Hk.
  do 13 (destruct n as [|n]; [do 5 (destruct k as [|k]; [reflexivity|]); lia|]).
  lia.
Qed.

Lemma digits_range (b : Z) (d : nat -> Z) (l : list nat) :
  0 < b -> (forall i, 0 <= d i < b) ->
  forall a, 0 <= a ->
    0 <= fold_left (fun c i => c * b + d i) l a
      <= (a + 1) * b ^ Z.of_nat (length l) - 1.
Proof.
  intros Hb Hd. induction l as [|i l IH]; intros a Ha.
  - simpl. lia.
  - cbn [fold_left length]. specialize (Hd i).
    specialize (IH (a * b + d i) ltac:(nia)).
    rewrite Nat2Z.inj_succ, Z.pow_succ_r by lia.
    assert (Hp : 0 < b ^ Z.of_nat (length l)) by (apply Z.pow_pos_nonneg; lia).
    split; [lia|]. nia.
Qed.

Lemma getCornerOrientation_range (i : nat) (s : Cube.State) :
  0 <= Cube.getCornerOrientation i s < 3.
Proof.
  unfold Cube.getCornerOrientation.
  pose proof (twistOf_range (Cube.get s (Cube.cornerFacelet i 0))
                (Cube.get s (Cube.cornerFacelet i 1))) as H.
  simpl in H. lia.
Qed.

Lemma getEdgeOrientation_range (i : nat) (s : Cube.State) :
  0 <= Cube.getEdgeOrientation i s < 2.
Proof.
  unfold Cube.getEdgeOrientation.
  pose proof (flipOf_range (Cube.get s (Cube.edgeFacelet i 0))
                (Cube.get s (Cube.edgeFacelet i 1))) as H.
  simpl in H. lia.
Qed.

(** X11. On every array, [Cube::cornerOrientationCoord] and
    [Cube::edgeOrientationCoord] are the solver's [cornerOriCoord] and
    [edgeOriCoord] of the cubie state [toCubie] reads off, and lie in
    0..2186 and 0..2047. *)
Theorem cube_orientation_coords_agree :
  forall s : Cube.State,
    Cube.cornerOrientationCoord s = Solver.cornerOriCoord (Solver.co (Solver.toCubie s))
    /\ 0 <= Cube.cornerOrientationCoord s <= 2186
    /\ Cube.edgeOrientationCoord s = Solver.edgeOriCoord (Solver.eo (Solver.toCubie s))
    /\ 0 <= Cube.edgeOrientationCoord s <= 2047.
Proof.
  intros s. split; [|split; [|split]].
  - unfold Cube.cornerOrientationCoord, Solver.cornerOriCoord.
    apply fold_left_ext_in. intros c i Hi. apply in_seq in Hi.
    cbn [Solver.co Solver.toCubie].
    rewrite (nth_map_range (fun i => u8 (Cube.getCornerOrientation i s)) 8 i) by lia.
    pose proof (getCornerOrientation_range i s) as Hr.
    rewrite u8_small by lia. rewrite Z.rem_small by lia. reflexivity.
  - apply (digits_range 3 (fun i => Cube.getCornerOrientation i s) (range 7));
      [lia | intros i; apply getCornerOrientation_range | lia].
  - unfold Cube.edgeOrientationCoord, Solver.edgeOriCoord.
    apply fold_left_ext_in. intros c i Hi. apply in_seq in Hi.
    cbn [Solver.eo Solver.toCubie].
    rewrite (nth_map_range (fun i => u8 (Cube.getEdgeOrientation i s)) 12 i) by lia.
    pose proof (getEdgeOrientation_range i s) as Hr.
    rewrite u8_small by lia. rewrite land1_mod2, Z.mod_small by lia. reflexivity.
  - apply (digits_range 2 (fun i => Cube.getEdgeOrientation i s) (range 11));
      [lia | intros i; apply getEdgeOrientation_range | lia].
Qed.

Lemma getCornerPermutation_real (s : Cube.State) (i : nat) :
  Cube.getCornerPermutation i s <> -1 -> 0 <= Cube.getCornerPermutation i s < 8.
Proof.
  unfold Cube.getCornerPermutation. intros H.
  destruct (cornerOf_range (Cube.get s (Cube.cornerFacelet i 0))
              (Cube.get s (Cube.cornerFacelet i 1))
              (Cube.get s (Cube.cornerFacelet i 2))) as [E|E]; [contradiction | exact E].
Qed.

Lemma getEdgePermutation_real (s : Cube.State) (i : nat) :
  Cube.getEdgePermutation i s <> -1 -> 0 <= Cube.getEdgePermutation i s < 12.
Proof.
  unfold Cube.getEdgePermutation. intros H.
  destruct (edgeOf_range (Cube.get s (Cube.edgeFacelet i 0))
              (Cube.get s (Cube.edgeFacelet i 1))) as [E|E]; [contradiction | exact E].
Qed.

Lemma map_ext_range {A : Type} (f g : nat -> A) (n : nat) :
  (forall i, (i < n)%nat -> f i = g i) -> map f (range n) = map g (range n).
Proof.
  intros H. apply map_ext_in. intros i Hi. apply in_seq in Hi. apply H. lia.
Qed.

Lemma nth_map_range_gen {A : Type} (f : nat -> A) (n k : nat) (d : A) :
  (k < n)%nat -> nth k (map f (range n)) d = f k.
Proof.
  intros H. rewrite (nth_indep _ d (f 0%nat)) by (rewrite length_map; unfold range; rewrite length_seq; exact H).
  rewrite map_nth. unfold range. rewrite seq_nth by exact H. reflexivity.
Qed.

Lemma sliceLoops_agree (s : Cube.State) (l : list nat) :
  (forall i, In i l -> (i < 12)%nat) ->
  (forall i, (i < 12)%nat -> Cube.getEdgePermutation i s <> -1) ->
  forall coord k, k <= 4 ->
    fold_left (fun '(coord, k) i =>
         if nth i (map (fun i => Cube.getEdgePermutation i s >=? 8) (range 12)) false
         then (coord, k - 1)
         else if k >? 0 then (coord + Cube.binom (Z.of_nat i) k, k)
         else (coord, k)) l (coord, k)
    = fold_left (fun '(coord, k) i =>
         let isSlice := nth i (Solver.ep (Solver.toCubie s)) 0 >=? 8 in
         if isSlice then (coord, k - 1)
         else if k >? 0 then (coord + Solver.kBinom i (Z.to_nat k), k)
         else (coord, k)) l (coord, k).
Proof.
  intros Hl Hreal. induction l as [|i l IH]; intros coord k Hk; [reflexivity|].
  cbn [fold_left].
  assert (Hi : (i < 12)%nat) by (apply Hl; left; reflexivity).
  assert (Hl' : forall j, In j l -> (j < 12)%nat) by (intros j Hj; apply Hl; right; exact Hj).
  cbn [Solver.ep Solver.toCubie].
  rewrite (nth_map_range (fun i => u8 (Cube.getEdgePermutation i s)) 12 i Hi).
  rewrite (nth_map_range_gen (fun i => Cube.getEdgePermutation i s >=? 8) 12 i false Hi).
  pose proof (getEdgePermutation_real s i (Hreal i Hi)) as Hr.
  rewrite u8_small by lia. cbv zeta.
  destruct (Cube.getEdgePermutation i s >=? 8); [apply IH; [exact Hl' | lia]|].
  destruct (Z.gtb_spec k 0) as [Hpos|Hnp]; [|apply IH; [exact Hl' | lia]].
  rewrite <- (binom_kBinom i (Z.to_nat k)) by lia.
  rewrite Z2Nat.id by lia. apply IH; [exact Hl' | lia].
Qed.

Lemma udSliceCoord_agrees (s : Cube.State) :
  allCubiesReal s ->
  Cube.udSliceCoord s = Solver.sliceCoord (Solver.ep (Solver.toCubie s)).
Proof.
  intros [_ He]. unfold Cube.udSliceCoord, Solver.sliceCoord. cbv zeta. f_equal.
  apply (sliceLoops_agree s (rev (range 12))); [|exact He|lia].
  intros i Hi. apply in_rev, in_seq in Hi. lia.
Qed.

(** X12. On an array whose corner and edge positions all show real
    cubies, [Cube::cornerPermutationCoord], [phase2EdgePermutationCoord]
    and [udSliceCoord] are the solver's [perm8Coord], [edgePermCoord8]
    and [sliceCoord] of the cubie state of [toCubie]; so is
    [udSlicePermutationCoord] against [slicePermCoord] when the four slice
    positions hold slice edges. *)
Theorem cube_permutation_coords_agree :
  forall s : Cube.State,
    allCubiesReal s ->
    Cube.cornerPermutationCoord s = Solver.perm8Coord (Solver.cp (Solver.toCubie s))
    /\ Cube.phase2EdgePermutationCoord s
       = Solver.edgePermCoord8_fromEp (Solver.ep (Solver.toCubie s))
    /\ Cube.udSliceCoord s = Solver.sliceCoord (Solver.ep (Solver.toCubie s))
    /\ ((forall j, (8 <= j < 12)%nat -> 8 <= Cube.getEdgePermutation j s) ->
        Cube.udSlicePermutationCoord s
        = Solver.slicePermCoord_fromEp (Solver.ep (Solver.toCubie s))).
Proof.
  intros s [Hc He]. split; [|split; [|split]].
  - unfold Cube.cornerPermutationCoord. cbv zeta.
    rewrite lehmerLoop_permCoord8. f_equal. cbn [Solver.cp Solver.toCubie].
    apply map_ext_range. intros i Hi.
    pose proof (getCornerPermutation_real s i (Hc i Hi)). rewrite u8_small; lia.
  - unfold Cube.phase2EdgePermutationCoord, Solver.edgePermCoord8_fromEp. cbv zeta.
    rewrite lehmerLoop_permCoord8. f_equal. cbn [Solver.ep Solver.toCubie].
    apply map_ext_range. intros i Hi.
    rewrite (nth_map_range (fun i => u8 (Cube.getEdgePermutation i s)) 12 i) by lia.
    pose proof (getEdgePermutation_real s i (He i ltac:(lia))). rewrite u8_small; lia.
  - apply udSliceCoord_agrees. split; assumption.
  - intros Hs. unfold Cube.udSlicePermutationCoord, Solver.slicePermCoord_fromEp.
    cbv zeta. rewrite lehmerLoop_permCoord4. f_equal. cbn [Solver.ep Solver.toCubie].
    apply map_ext_range. intros i Hi.
    rewrite (nth_map_range (fun i => u8 (Cube.getEdgePermutation i s)) 12 (8 + i)) by lia.
    replace (i + 8)%nat with (8 + i)%nat by lia.
    pose proof (getEdgePermutation_real s (8 + i) (He (8 + i)%nat ltac:(lia))).
    pose proof (Hs (8 + i)%nat ltac:(lia)).
    rewrite (u8_small (Cube.getEdgePermutation (8 + i) s)) by lia.
    rewrite u8_small; lia.
Qed.

Lemma reset_real : allCubiesRealb (Cube.applyMoves [R; U; Fp] Cube.reset) = true.
Proof. vm_compute. reflexivity. Qed.

Lemma cube_permutation_coords_agree_witness :
  Cube.cornerPermutationCoord (Cube.applyMoves [R; U; Fp] Cube.reset)
  = Solver.perm8Coord
      (Solver.cp (Solver.toCubie (Cube.applyMoves [R; U; Fp] Cube.reset))).
Proof.
  apply (cube_permutation_coords_agree (Cube.applyMoves [R; U; Fp] Cube.reset)).
  apply allCubiesRealb_spec. vm_compute. reflexivity.
Defined.

(** ** The ranges of the six coordinates (X13) *)

Lemma count_range (g : nat -> bool) (l : list nat) (a : Z) :
  a <= fold_left (fun cnt j => cnt + (if g j then 1 else 0)) l a
    <= a + Z.of_nat (length l).
Proof.
  revert a; induction l as [|j l IH]; intros a; [simpl; lia|].
  cbn [fold_left length]. specialize (IH (a + (if g j then 1 else 0))).
  destruct (g j); lia.
Qed.

Lemma cntBelow_range (p : list Z) (i n : nat) :
  0 <= cntBelow p i n <= Z.of_nat (n - (i + 1)).
Proof.
  unfold cntBelow.
  pose proof (count_range (fun j => nth j p 0 <? nth i p 0)
                (seq (i + 1) (n - (i + 1))) 0) as H.
  rewrite length_seq in H. lia.
Qed.

Lemma permCoord_sum (n : nat) (kFact p : list Z) :
  Solver.permCoord n kFact p
  = sumOver (fun i => cntBelow p i n * nth (n - 1 - i) kFact 0) (range n).
Proof.
  unfold Solver.permCoord.
  rewrite (fold_left_add_sum (fun i => cntBelow p i n * nth (n - 1 - i) kFact 0)).
  lia.
Qed.

Lemma perm8Coord_range (p : list Z) : 0 <= Solver.perm8Coord p <= 40319.
Proof.
  unfold Solver.perm8Coord. rewrite permCoord_sum.
  pose proof (cntBelow_range p 0 8) as H0. pose proof (cntBelow_range p 1 8) as H1.
  pose proof (cntBelow_range p 2 8) as H2. pose proof (cntBelow_range p 3 8) as H3.
  pose proof (cntBelow_range p 4 8) as H4. pose proof (cntBelow_range p 5 8) as H5.
  pose proof (cntBelow_range p 6 8) as H6. pose proof (cntBelow_range p 7 8) as H7.
  cbn [sumOver fold_right range seq Nat.sub Nat.add nth Solver.kFact8].
  cbn [Nat.sub Nat.add] in H0, H1, H2, H3, H4, H5, H6, H7.
  lia.
Qed.

Lemma perm4Coord_range (p : list Z) : 0 <= Solver.perm4Coord p <= 23.
Proof.
  unfold Solver.perm4Coord. rewrite permCoord_sum.
  pose proof (cntBelow_range p 0 4) as H0. pose proof (cntBelow_range p 1 4) as H1.
  pose proof (cntBelow_range p 2 4) as H2. pose proof (cntBelow_range p 3 4) as H3.
  cbn [sumOver fold_right range seq Nat.sub Nat.add nth Solver.kFact4].
  cbn [Nat.sub Nat.add] in H0, H1, H2, H3.
  lia.
Qed.

Lemma sliceCoord_patterns_range :
  forallb (fun bs =>
    (0 <=? Solver.sliceCoord (patternEp bs))
    && (Solver.sliceCoord (patternEp bs) <=? 792))
  (allPatterns 12) = true.
Proof. vm_compute. reflexivity. Qed.

Lemma sliceCoord_range (ep : list Z) :
  length ep = 12%nat -> 0 <= Solver.sliceCoord ep <= 792.
Proof.
  intros Hlen.
  pose proof sliceCoord_patterns_range as Hall.
  rewrite forallb_forall in Hall.
  specialize (Hall (slicePattern ep)).
  assert (Hin : In (slicePattern ep) (allPatterns 12)).
  { replace 12%nat with (length (slicePattern ep)).
    - apply allPatterns_complete.
    - unfold slicePattern. rewrite length_map. exact Hlen. }
  specialize (Hall Hin). rewrite <- sliceCoord_pattern in Hall.
  apply andb_prop in Hall. destruct Hall as [A B]. lia.
Qed.

Lemma cornerOriCoord_range (co : list Z) :
  Forall isByte co -> 0 <= Solver.cornerOriCoord co <= 2186.
Proof.
  intros H. unfold Solver.cornerOriCoord.
  apply (digits_range 3 (fun i => Z.rem (nth i co 0) 3) (range 7)); [lia| |lia].
  intros i.
  assert (Hn : 0 <= nth i co 0).
  { destruct (Nat.lt_ge_cases i (length co)) as [Hi|Hi].
    - pose proof (Forall_isByte_nth co i H Hi) as Hb. unfold isByte in Hb. lia.
    - rewrite nth_overflow by exact Hi. lia. }
  pose proof (Z.rem_bound_pos (nth i co 0) 3 Hn ltac:(lia)). lia.
Qed.

Lemma edgeOriCoord_range (eo : list Z) : 0 <= Solver.edgeOriCoord eo <= 2047.
Proof.
  unfold Solver.edgeOriCoord.
  apply (digits_range 2 (fun i => Z.land (nth i eo 0) 1) (range 11)); [lia| |lia].
  intros i. apply land1_range.
Qed.

Lemma edgePermCoord8_range (ep : list Z) :
  0 <= Solver.edgePermCoord8_fromEp ep <= 40319.
Proof. unfold Solver.edgePermCoord8_fromEp. apply perm8Coord_range. Qed.

Lemma slicePermCoord_range (ep : list Z) :
  0 <= Solver.slicePermCoord_fromEp ep <= 23.
Proof. unfold Solver.slicePermCoord_fromEp. apply perm4Coord_range. Qed.

(** X13. For every cubie state of byte arrays of the declared lengths the
    orientation and permutation coordinates lie inside their table sizes
    ([kCO], [kEO], [kCP], [kEP], [kSP]), and so do the two combined
    indices into the phase-2 pruning vectors; the slice coordinate lies in
    0..792. *)
Theorem coordinate_ranges :
  forall cc : Solver.CubieCube,
    wfCubie cc ->
    0 <= Solver.cornerOriCoord (Solver.co cc) < Solver.kCO
    /\ 0 <= Solver.edgeOriCoord (Solver.eo cc) < Solver.kEO
    /\ 0 <= Solver.sliceCoord (Solver.ep cc) <= 792
    /\ 0 <= Solver.perm8Coord (Solver.cp cc) < Solver.kCP
    /\ 0 <= Solver.edgePermCoord8_fromEp (Solver.ep cc) < Solver.kEP
    /\ 0 <= Solver.slicePermCoord_fromEp (Solver.ep cc) < Solver.kSP
    /\ 0 <= Solver.perm8Coord (Solver.cp cc) * Solver.kSP
            + Solver.slicePermCoord_fromEp (Solver.ep cc)
         < Solver.kCP * Solver.kSP
    /\ 0 <= Solver.edgePermCoord8_fromEp (Solver.ep cc) * Solver.kSP
            + Solver.slicePermCoord_fromEp (Solver.ep cc)
         < Solver.kEP * Solver.kSP.
Proof.
  intros cc ((_ & _) & (_ & Hco) & (Hlen & _) & _).
  pose proof (cornerOriCoord_range _ Hco) as H1.
  pose proof (edgeOriCoord_range (Solver.eo cc)) as H2.
  pose proof (sliceCoord_range _ Hlen) as H3.
  pose proof (perm8Coord_range (Solver.cp cc)) as H4.
  pose proof (edgePermCoord8_range (Solver.ep cc)) as H5.
  pose proof (slicePermCoord_range (Solver.ep cc)) as H6.
  unfold Solver.kCO, Solver.kEO, Solver.kCP, Solver.kEP, Solver.kSP. lia.
Qed.

Lemma coordinate_ranges_witness :
  0 <= Solver.sliceCoord
         (Solver.ep (Solver.toCubie (Cube.applyMoves [R; B] Cube.reset))) <= 792.
Proof.
  assert (Hwf : wfCubie (Solver.toCubie (Cube.applyMoves [R; B] Cube.reset))).
  { split; [|split; [|split]]; (split; [reflexivity|]);
      apply Forall_isByte_dec; reflexivity. }
  exact (proj1 (proj2 (proj2 (coordinate_ranges _ Hwf)))).
Defined.

(** ** Decoding after encoding, on the arrays of a real cube (X14 to X16) *)

Lemma zlist_eqb_eq (a b : list Z) : zlist_eqb a b = true -> a = b.
Proof.
  revert b; induction a as [|x a IH]; intros [|y b] H; try discriminate H.
  - reflexivity.
  - simpl in H. apply andb_prop in H. destruct H as [E H].
    apply Z.eqb_eq in E. subst. f_equal. apply IH, H.
Qed.

Lemma insertions_In (a : Z) (p1 p2 : list Z) :
  In (p1 ++ a :: p2) (insertions a (p1 ++ p2)).
Proof.
  induction p1 as [|x p1 IH]; simpl.
  - destruct p2; left; reflexivity.
  - right. apply in_map, IH.
Qed.

Lemma orders_complete (l : list Z) :
  forall p, Permutation p l -> In p (orders l).
Proof.
  induction l as [|a l IH]; intros p Hp.
  - apply Permutation_sym, Permutation_nil in Hp. subst. left. reflexivity.
  - assert (Ha : In a p) by (apply (Permutation_in a (Permutation_sym Hp)); left; reflexivity).
    apply in_split in Ha. destruct Ha as (p1 & p2 & ->).
    apply Permutation_sym, Permutation_cons_app_inv, Permutation_sym in Hp.
    simpl. apply in_flat_map. exists (p1 ++ p2). split.
    + apply IH, Hp.
    + apply insertions_In.
Qed.

Lemma CO_decoded_valid :
  allBelow 2187 (fun x => validOri 3 8 (Solver.cornerOriFromCoord x)) = true.
Proof. vm_compute. reflexivity. Qed.

Lemma EO_decoded_valid :
  allBelow 2048 (fun x => validOri 2 12 (Solver.edgeOriFromCoord x)) = true.
Proof. vm_compute. reflexivity. Qed.

Lemma CO_encoded_decodes :
  forallb (fun os =>
    negb (sumZ os mod 3 =? 0)
    || zlist_eqb (Solver.cornerOriFromCoord (Solver.cornerOriCoord os)) os)
  (allLists 3 8) = true.
Proof. vm_compute. reflexivity. Qed.

Lemma EO_encoded_decodes :
  forallb (fun os =>
    negb (sumZ os mod 2 =? 0)
    || zlist_eqb (Solver.edgeOriFromCoord (Solver.edgeOriCoord os)) os)
  (allLists 2 12) = true.
Proof. vm_compute. reflexivity. Qed.

Lemma perm8_decoded_valid :
  allBelow 40320 (fun x => isOrderOf 8 (Solver.perm8FromCoord x)) = true.
Proof. vm_compute. reflexivity. Qed.

Lemma perm8_encoded_decodes :
  forallb (fun p => zlist_eqb (Solver.perm8FromCoord (Solver.perm8Coord p)) p)
    (orders [0; 1; 2; 3; 4; 5; 6; 7]) = true.
Proof. vm_compute. reflexivity. Qed.

Lemma perm4_decoded_valid :
  allBelow 24 (fun x => isOrderOf 4 (Solver.perm4FromCoord x)) = true.
Proof. vm_compute. reflexivity. Qed.

Lemma perm4_encoded_decodes :
  forallb (fun p => zlist_eqb (Solver.perm4FromCoord (Solver.perm4Coord p)) p)
    (orders [0; 1; 2; 3]) = true.
Proof. vm_compute. reflexivity. Qed.

Lemma validOri_spec (modulus : Z) (n : nat) (os : list Z) :
  validOri modulus n os = true ->
  length os = n /\ Forall (fun x => 0 <= x < modulus) os /\ sumZ os mod modulus = 0.
Proof.
  unfold validOri. intros H.
  apply andb_prop in H. destruct H as [H H3].
  apply andb_prop in H. destruct H as [H1 H2].
  apply Nat.eqb_eq in H1. apply Z.eqb_eq in H3.
  split; [exact H1|]. split; [|exact H3].
  apply Forall_forall. intros x Hx.
  rewrite forallb_forall in H2. specialize (H2 x Hx).
  apply andb_prop in H2. destruct H2 as [A B]. lia.
Qed.

Lemma isOrderOf_spec (n : nat) (p : list Z) :
  isOrderOf n p = true -> Permutation p (identityList n).
Proof.
  unfold isOrderOf. intros H.
  apply andb_prop in H. destruct H as [H1 H2]. apply Nat.eqb_eq in H1.
  apply Permutation_sym, NoDup_Permutation_bis.
  - unfold identityList. apply Finite.Injective_map_NoDup.
    + intros a b E. lia.
    + unfold range. apply seq_NoDup.
  - unfold identityList, range. rewrite length_map, length_seq. lia.
  - intros x Hx. unfold identityList in Hx. apply in_map_iff in Hx.
    destruct Hx as (k & <- & Hk).
    rewrite forallb_forall in H2. specialize (H2 k Hk).
    apply existsb_exists in H2. destruct H2 as (y & Hy & E).
    apply Z.eqb_eq in E. subst. exact Hy.
Qed.

Lemma forallb_In {A : Type} (f : A -> bool) (l : list A) (x : A) :
  forallb f l = true -> In x l -> f x = true.
Proof. intros H Hx. rewrite forallb_forall in H. apply H, Hx. Qed.

Lemma CO_decode_encode (os : list Z) :
  length os = 8%nat -> Forall (fun x => 0 <= x < 3) os -> sumZ os mod 3 = 0 ->
  Solver.cornerOriFromCoord (Solver.cornerOriCoord os) = os.
Proof.
  intros Hlen Hr Hs.
  assert (Hin : In os (allLists 3 (length os))) by apply (allLists_complete 3), Hr.
  rewrite Hlen in Hin.
  pose proof (forallb_In _ _ os CO_encoded_decodes Hin) as H. cbv beta in H.
  rewrite Hs in H. apply orb_prop in H. destruct H as [H|H]; [discriminate H|].
  apply zlist_eqb_eq, H.
Qed.

Lemma EO_decode_encode (os : list Z) :
  length os = 12%nat -> Forall (fun x => 0 <= x < 2) os -> sumZ os mod 2 = 0 ->
  Solver.edgeOriFromCoord (Solver.edgeOriCoord os) = os.
Proof.
  intros Hlen Hr Hs.
  assert (Hin : In os (allLists 2 (length os))) by apply (allLists_complete 2), Hr.
  rewrite Hlen in Hin.
  pose proof (forallb_In _ _ os EO_encoded_decodes Hin) as H. cbv beta in H.
  rewrite Hs in H. apply orb_prop in H. destruct H as [H|H]; [discriminate H|].
  apply zlist_eqb_eq, H.
Qed.

Lemma perm8_decode_encode (p : list Z) :
  Permutation p (identityList 8) ->
  Solver.perm8FromCoord (Solver.perm8Coord p) = p.
Proof.
  intros Hp. apply zlist_eqb_eq.
  apply (forallb_In _ _ p perm8_encoded_decodes).
  apply (orders_complete [0; 1; 2; 3; 4; 5; 6; 7]), Hp.
Qed.

Lemma perm4_decode_encode (p : list Z) :
  Permutation p (identityList 4) ->
  Solver.perm4FromCoord (Solver.perm4Coord p) = p.
Proof.
  intros Hp. apply zlist_eqb_eq.
  apply (forallb_In _ _ p perm4_encoded_decodes).
  apply (orders_complete [0; 1; 2; 3]), Hp.
Qed.

(** X14. [cornerOriFromCoord] and [edgeOriFromCoord] decode every
    coordinate of their range to an orientation array of the right
    length, with entries below 3 (below 2) and a sum divisible by 3 (by
    2); on every such array, decoding the encoded coordinate gives the
    array back. *)
Theorem valid_orientations_roundtrip :
  (forall x, 0 <= x < Solver.kCO ->
     length (Solver.cornerOriFromCoord x) = 8%nat
     /\ Forall (fun o => 0 <= o < 3) (Solver.cornerOriFromCoord x)
     /\ sumZ (Solver.cornerOriFromCoord x) mod 3 = 0)
  /\ (forall co, length co = 8%nat -> Forall (fun o => 0 <= o < 3) co ->
        sumZ co mod 3 = 0 ->
        Solver.cornerOriFromCoord (Solver.cornerOriCoord co) = co)
  /\ (forall x, 0 <= x < Solver.kEO ->
     length (Solver.edgeOriFromCoord x) = 12%nat
     /\ Forall (fun o => 0 <= o < 2) (Solver.edgeOriFromCoord x)
     /\ sumZ (Solver.edgeOriFromCoord x) mod 2 = 0)
  /\ (forall eo, length eo = 12%nat -> Forall (fun o => 0 <= o < 2) eo ->
        sumZ eo mod 2 = 0 ->
        Solver.edgeOriFromCoord (Solver.edgeOriCoord eo) = eo).
Proof.
  split; [|split; [|split]].
  - intros x Hx. apply validOri_spec.
    apply (allBelow_spec _ _ CO_decoded_valid x Hx).
  - apply CO_decode_encode.
  - intros x Hx. apply validOri_spec.
    apply (allBelow_spec _ _ EO_decoded_valid x Hx).
  - apply EO_decode_encode.
Qed.

Lemma valid_orientations_roundtrip_witness :
  Solver.cornerOriFromCoord (Solver.cornerOriCoord [1; 2; 0; 0; 2; 1; 1; 2])
  = [1; 2; 0; 0; 2; 1; 1; 2].
Proof.
  apply (proj1 (proj2 valid_orientations_roundtrip) [1; 2; 0; 0; 2; 1; 1; 2]).
  - reflexivity.
  - repeat constructor; lia.
  - reflexivity.
Defined.

(** X15. [perm8FromCoord] and [perm4FromCoord] decode every coordinate of
    their range to an arrangement of 0..7 (of 0..3); on every such
    arrangement, decoding the encoded coordinate gives the arrangement
    back, and the coordinate is 0 only for the identity arrangement. *)
Theorem valid_permutations_roundtrip :
  (forall x, 0 <= x < Solver.kCP ->
     Permutation (Solver.perm8FromCoord x) (identityList 8))
  /\ (forall p, Permutation p (identityList 8) ->
        Solver.perm8FromCoord (Solver.perm8Coord p) = p)
  /\ (forall p, Permutation p (identityList 8) ->
        (Solver.perm8Coord p = 0 <-> p = identityList 8))
  /\ (forall x, 0 <= x < Solver.kSP ->
     Permutation (Solver.perm4FromCoord x) (identityList 4))
  /\ (forall p, Permutation p (identityList 4) ->
        Solver.perm4FromCoord (Solver.perm4Coord p) = p)
  /\ (forall p, Permutation p (identityList 4) ->
        (Solver.perm4Coord p = 0 <-> p = identityList 4)).
Proof.
  split; [|split; [|split; [|split; [|split]]]].
  - intros x Hx. apply isOrderOf_spec.
    apply (allBelow_spec _ _ perm8_decoded_valid x Hx).
  - apply perm8_decode_encode.
  - intros p Hp. split.
    + intros E. rewrite <- (perm8_decode_encode p Hp), E. reflexivity.
    + intros ->. reflexivity.
  - intros x Hx. apply isOrderOf_spec.
    apply (allBelow_spec _ _ perm4_decoded_valid x Hx).
  - apply perm4_decode_encode.
  - intros p Hp. split.
    + intros E. rewrite <- (perm4_decode_encode p Hp), E. reflexivity.
    + intros ->. reflexivity.
Qed.

Lemma valid_permutations_roundtrip_witness :
  Solver.perm8FromCoord (Solver.perm8Coord [3; 1; 0; 2; 7; 6; 4; 5])
  = [3; 1; 0; 2; 7; 6; 4; 5].
Proof.
  apply (proj1 (proj2 valid_permutations_roundtrip) [3; 1; 0; 2; 7; 6; 4; 5]).
  apply isOrderOf_spec. reflexivity.
Defined.

Lemma slice_decoded_valid :
  allBelow 495 (fun x =>
    isOrderOf 12 (Solver.sliceFromCoord x)
    && (0 <=? Solver.sliceCoord (Solver.sliceFromCoord x))
    && (Solver.sliceCoord (Solver.sliceFromCoord x) <? 495)) = true.
Proof. vm_compute. reflexivity. Qed.

(** X16. [sliceFromCoord] decodes every coordinate below [kSLICE] to an
    arrangement of the twelve edges whose [sliceCoord] is again below
    [kSLICE]; and on an array that shows real cubies,
    [Cube::udSliceCoord] is 0 exactly when the four slice positions hold
    slice edges. *)
Theorem slice_coordinate_facts :
  (forall x, 0 <= x < Solver.kSLICE ->
     Permutation (Solver.sliceFromCoord x) (identityList 12)
     /\ 0 <= Solver.sliceCoord (Solver.sliceFromCoord x) < Solver.kSLICE)
  /\ (forall s, allCubiesReal s ->
        (Cube.udSliceCoord s = 0
         <-> forall j, (8 <= j < 12)%nat -> 8 <= Cube.getEdgePermutation j s)).
Proof.
  split.
  - intros x Hx.
    pose proof (allBelow_spec _ _ slice_decoded_valid x Hx) as H. cbv beta in H.
    apply andb_prop in H. destruct H as [H H3].
    apply andb_prop in H. destruct H as [H1 H2].
    split; [apply isOrderOf_spec, H1|]. unfold Solver.kSLICE. lia.
  - intros s Hreal.
    rewrite (udSliceCoord_agrees s Hreal).
    rewrite SLICE_zero_iff by reflexivity.
    destruct Hreal as [_ He].
    split; intros H j Hj; specialize (H j Hj).
    + cbn [Solver.ep Solver.toCubie] in H.
      rewrite (nth_map_range (fun i => u8 (Cube.getEdgePermutation i s)) 12 j) in H by lia.
      pose proof (getEdgePermutation_real s j (He j ltac:(lia))).
      rewrite u8_small in H by lia. exact H.
    + cbn [Solver.ep Solver.toCubie].
      rewrite (nth_map_range (fun i => u8 (Cube.getEdgePermutation i s)) 12 j) by lia.
      pose proof (getEdgePermutation_real s j (He j ltac:(lia))).
      rewrite u8_small by lia. exact H.
Qed.

Lemma slice_coordinate_facts_witness :
  0 <= Solver.sliceCoord (Solver.sliceFromCoord 77) < Solver.kSLICE.
Proof.
  assert (H : 0 <= 77 < Solver.kSLICE) by (unfold Solver.kSLICE; lia).
  exact (proj2 (proj1 slice_coordinate_facts 77 H)).
Defined.

(** ** Piece-level moves on the cubie states of a real cube (X17) *)

Lemma zrangeFrom_nth {A : Type} (f : Z -> A) (d : A) (len : nat) :
  forall start k, (k < len)%nat ->
    nth k (map f (zrangeFrom start len)) d = f (start + Z.of_nat k).
Proof.
  induction len as [|len IH]; intros start k Hk; [lia|].
  destruct k as [|k]; simpl map; cbn [nth].
  - f_equal. lia.
  - rewrite IH by lia. f_equal. lia.
Qed.

Lemma zrange_nth {A : Type} (f : Z -> A) (d : A) (n x : Z) :
  0 <= x < n -> nth (Z.to_nat x) (map f (zrange n)) d = f x.
Proof.
  intros H. unfold zrange. rewrite zrangeFrom_nth by lia.
  f_equal. lia.
Qed.

Lemma idx2_table (f : Z -> nat -> Z) (n : Z) (cols : nat) (x : Z) (k : nat) :
  0 <= x < n -> (k < cols)%nat ->
  Solver.idx2 (map (fun x => map (f x) (range cols)) (zrange n)) x (Z.of_nat k)
  = f x k.
Proof.
  intros Hx Hk. unfold Solver.idx2.
  rewrite (zrange_nth (fun x => map (f x) (range cols)) [] n x Hx).
  rewrite Nat2Z.id. apply nth_map_range. exact Hk.
Qed.

Lemma u16_small (x : Z) : 0 <= x < 65536 -> u16 x = x.
Proof. intros H. unfold u16. apply Z.mod_small. exact H. Qed.

(** The move as [Tables::applyMove] makes it, on the four arrays. *)
Lemma nth_in_range (lo hi : Z) (l : list Z) (k : nat) :
  lo <= 0 < hi -> Forall (fun o => lo <= o < hi) l -> lo <= nth k l 0 < hi.
Proof.
  intros Hd H.
  destruct (Nat.lt_ge_cases k (length l)) as [Hl|Hl].
  - apply (proj1 (Forall_nth _ l) H k 0 Hl).
  - rewrite nth_overflow by exact Hl. exact Hd.
Qed.

Lemma applyMove_pieces (m : Move) (P O E F : list Z) :
  Forall (fun o => 0 <= o < 3) O -> Forall (fun o => 0 <= o < 2) F ->
  Solver.applyMove Solver.initEffects (Solver.mkCubie P O E F) (moveIndex m)
  = Solver.mkCubie (permuteBy (srcCorner m) 8 P) (movedCornerOris m O)
      (permuteBy (srcEdge m) 12 E) (movedEdgeOris m F).
Proof.
  intros HO HF.
  unfold Solver.applyMove, permuteBy, movedCornerOris, movedEdgeOris.
  cbn [Solver.cp Solver.co Solver.ep Solver.eo].
  f_equal; try reflexivity.
  - apply map_ext_range. intros i Hi.
    change (Solver.idx1 O (Solver.idx2 (Solver.cPos Solver.initEffects) (moveIndex m) (Z.of_nat i)))
      with (nth (srcCorner m i) O 0).
    change (Solver.idx2 (Solver.cOri Solver.initEffects) (moveIndex m) (Z.of_nat i))
      with (twCorner m i).
    apply u8_small.
    destruct (effects_in_range m) as [HC _].
    destruct (HC i Hi) as (_ & Htw & _).
    pose proof (nth_in_range 0 3 O (srcCorner m i) ltac:(lia) HO) as Hn.
    pose proof (Z.rem_bound_pos (nth (srcCorner m i) O 0 + twCorner m i) 3
                  ltac:(lia) ltac:(lia)). lia.
  - apply map_ext_range. intros i Hi.
    change (Solver.idx1 F (Solver.idx2 (Solver.ePos Solver.initEffects) (moveIndex m) (Z.of_nat i)))
      with (nth (srcEdge m i) F 0).
    change (Solver.idx2 (Solver.eOri Solver.initEffects) (moveIndex m) (Z.of_nat i))
      with (flEdge m i).
    apply u8_small.
    destruct (effects_in_range m) as [_ HE].
    destruct (HE i Hi) as (_ & Hfl & _).
    pose proof (nth_in_range 0 2 F (srcEdge m i) ltac:(lia) HF) as Hn.
    set (a := nth (srcEdge m i) F 0) in *. set (b := flEdge m i) in *.
    assert (Hc : (a = 0 \/ a = 1) /\ (b = 0 \/ b = 1)) by lia.
    destruct Hc as [[-> | ->] [-> | ->]]; vm_compute; split; congruence.
Qed.

Lemma moveIndex_surj (z : Z) :
  0 <= z < 18 -> exists m, moveIndex m = z /\ Solver.toMove z = m.
Proof.
  intros H.
  assert (E : z = 0 \/ z = 1 \/ z = 2 \/ z = 3 \/ z = 4 \/ z = 5 \/ z = 6
              \/ z = 7 \/ z = 8 \/ z = 9 \/ z = 10 \/ z = 11 \/ z = 12
              \/ z = 13 \/ z = 14 \/ z = 15 \/ z = 16 \/ z = 17) by lia.
  exists (Solver.toMove z). split; [|reflexivity].
  repeat (destruct E as [-> | E]; [reflexivity|]).
  subst. reflexivity.
Qed.

Lemma Forall_nonneg (hi : Z) (l : list Z) :
  Forall (fun o => 0 <= o < hi) l -> Forall (fun x => 0 <= x) l.
Proof. apply Forall_impl. intros; lia. Qed.

Lemma movedCornerOris_range (m : Move) (O : list Z) :
  Forall (fun o => 0 <= o < 3) O ->
  Forall (fun o => 0 <= o < 3) (movedCornerOris m O).
Proof.
  intros HO. apply Forall_forall. intros o Ho.
  unfold movedCornerOris in Ho. apply in_map_iff in Ho.
  destruct Ho as (i & <- & Hi). apply in_seq in Hi.
  destruct (effects_in_range m) as [HC _].
  destruct (HC i ltac:(lia)) as (_ & Htw & _).
  pose proof (nth_in_range 0 3 O (srcCorner m i) ltac:(lia) HO) as Hn.
  pose proof (Z.rem_bound_pos (nth (srcCorner m i) O 0 + twCorner m i) 3
                ltac:(lia) ltac:(lia)). lia.
Qed.

Lemma movedEdgeOris_range (m : Move) (F : list Z) :
  Forall (fun o => 0 <= o < 2) F ->
  Forall (fun o => 0 <= o < 2) (movedEdgeOris m F).
Proof.
  intros HF. apply Forall_forall. intros o Ho.
  unfold movedEdgeOris in Ho. apply in_map_iff in Ho.
  destruct Ho as (i & <- & Hi). apply in_seq in Hi.
  destruct (effects_in_range m) as [_ HE].
  destruct (HE i ltac:(lia)) as (_ & Hfl & _).
  pose proof (nth_in_range 0 2 F (srcEdge m i) ltac:(lia) HF) as Hn.
  set (a := nth (srcEdge m i) F 0) in *. set (b := flEdge m i) in *.
  assert (Hc : (a = 0 \/ a = 1) /\ (b = 0 \/ b = 1)) by lia.
  destruct Hc as [[-> | ->] [-> | ->]]; vm_compute; split; congruence.
Qed.

Lemma ValidCubie_applyMove (m : Move) (cc : Solver.CubieCube) :
  ValidCubie cc ->
  ValidCubie (Solver.applyMove Solver.initEffects cc (moveIndex m)).
Proof.
  destruct cc as [P O E F].
  intros (HP & (HlO & HrO & HsO) & HE & (HlF & HrF & HsF)).
  cbn [Solver.cp Solver.co Solver.ep Solver.eo] in *.
  rewrite applyMove_pieces by assumption.
  unfold ValidCubie. cbn [Solver.cp Solver.co Solver.ep Solver.eo].
  assert (HlP : length P = 8%nat) by (rewrite (Permutation_length HP); reflexivity).
  assert (HlE : length E = 12%nat) by (rewrite (Permutation_length HE); reflexivity).
  split; [|split; [|split]].
  - rewrite corners_permuted_by_swaps by exact HlP.
    eapply Permutation_trans; [apply swaps_Permutation | exact HP].
  - split; [reflexivity|]. split; [apply movedCornerOris_range, HrO|].
    rewrite <- oriSum_mod;
      [|lia | apply (Forall_nonneg 3), movedCornerOris_range, HrO].
    rewrite corner_twists_cancel by assumption.
    rewrite oriSum_mod; [exact HsO | lia | apply (Forall_nonneg 3), HrO].
  - rewrite edges_permuted_by_swaps by exact HlE.
    eapply Permutation_trans; [apply swaps_Permutation | exact HE].
  - split; [reflexivity|]. split; [apply movedEdgeOris_range, HrF|].
    rewrite <- oriSum_mod;
      [|lia | apply (Forall_nonneg 2), movedEdgeOris_range, HrF].
    rewrite edge_flips_cancel by assumption.
    rewrite oriSum_mod; [exact HsF | lia | apply (Forall_nonneg 2), HrF].
Qed.

(** Undoing a move on the four arrays. *)
Lemma corner_sources_invert (m : Move) (P : list Z) :
  length P = 8%nat ->
  permuteBy (srcCorner (Cube.inverseMove m)) 8 (permuteBy (srcCorner m) 8 P) = P.
Proof.
  intros H. explode_list P H. destruct m; vm_compute; reflexivity.
Qed.

Lemma edge_sources_invert (m : Move) (P : list Z) :
  length P = 12%nat ->
  permuteBy (srcEdge (Cube.inverseMove m)) 12 (permuteBy (srcEdge m) 12 P) = P.
Proof.
  intros H. explode_list P H. destruct m; vm_compute; reflexivity.
Qed.

Lemma corner_twists_invert_all :
  forallb (fun m =>
    forallb (fun os =>
      zlist_eqb (movedCornerOris (Cube.inverseMove m) (movedCornerOris m os)) os)
      (allLists 3 8))
  allMoves = true.
Proof. vm_compute. reflexivity. Qed.

Lemma edge_flips_invert_all :
  forallb (fun m =>
    forallb (fun os =>
      zlist_eqb (movedEdgeOris (Cube.inverseMove m) (movedEdgeOris m os)) os)
      (allLists 2 12))
  allMoves = true.
Proof. vm_compute. reflexivity. Qed.

Lemma invMove_entry (m : Move) :
  Solver.idx1 (Solver.invMove Solver.initEffects) (moveIndex m)
  = moveIndex (Cube.inverseMove m).
Proof. destruct m; reflexivity. Qed.

Lemma applyMove_undo (m : Move) (cc : Solver.CubieCube) :
  ValidCubie cc ->
  Solver.applyMove Solver.initEffects
    (Solver.applyMove Solver.initEffects cc (moveIndex m))
    (Solver.idx1 (Solver.invMove Solver.initEffects) (moveIndex m))
  = cc.
Proof.
  destruct cc as [P O E F].
  intros (HP & (HlO & HrO & HsO) & HE & (HlF & HrF & HsF)).
  cbn [Solver.cp Solver.co Solver.ep Solver.eo] in *.
  rewrite invMove_entry.
  rewrite applyMove_pieces by assumption.
  rewrite applyMove_pieces
    by (first [apply movedCornerOris_range | apply movedEdgeOris_range]; assumption).
  assert (HlP : length P = 8%nat) by (rewrite (Permutation_length HP); reflexivity).
  assert (HlE : length E = 12%nat) by (rewrite (Permutation_length HE); reflexivity).
  rewrite corner_sources_invert, edge_sources_invert by assumption.
  f_equal.
  - apply zlist_eqb_eq.
    apply (forallb_In _ _ O (forallb_In _ _ m corner_twists_invert_all (In_allMoves m))).
    rewrite <- HlO. apply (allLists_complete 3), HrO.
  - apply zlist_eqb_eq.
    apply (forallb_In _ _ F (forallb_In _ _ m edge_flips_invert_all (In_allMoves m))).
    rewrite <- HlF. apply (allLists_complete 2), HrF.
Qed.

Lemma ValidCubie_dec (cc : Solver.CubieCube) :
  isOrderOf 8 (Solver.cp cc) && validOri 3 8 (Solver.co cc)
  && isOrderOf 12 (Solver.ep cc) && validOri 2 12 (Solver.eo cc) = true ->
  ValidCubie cc.
Proof.
  intros H.
  apply andb_prop in H. destruct H as [H H4].
  apply andb_prop in H. destruct H as [H H3].
  apply andb_prop in H. destruct H as [H1 H2].
  split; [apply isOrderOf_spec, H1|].
  split; [apply validOri_spec, H2|].
  split; [apply isOrderOf_spec, H3 | apply validOri_spec, H4].
Qed.

(** X17. [Tables::applyMove] with the effects of [Tables::init] takes the
    cubie state of a real cube to the cubie state of a real cube; the
    [invMove] entry of a move is the index of [Cube::inverseMove] of it,
    and applying it after the move gives the cubie state back. *)
Theorem piece_moves_keep_valid_and_undo :
  forall (m : Move) (cc : Solver.CubieCube),
    ValidCubie cc ->
    ValidCubie (Solver.applyMove Solver.initEffects cc (moveIndex m))
    /\ Solver.idx1 (Solver.invMove Solver.initEffects) (moveIndex m)
       = moveIndex (Cube.inverseMove m)
    /\ Solver.applyMove Solver.initEffects
         (Solver.applyMove Solver.initEffects cc (moveIndex m))
         (Solver.idx1 (Solver.invMove Solver.initEffects) (moveIndex m))
       = cc.
Proof.
  intros m cc Hv. split; [apply ValidCubie_applyMove, Hv|].
  split; [apply invMove_entry | apply applyMove_undo, Hv].
Qed.

Lemma piece_moves_keep_valid_and_undo_witness :
  Solver.applyMove Solver.initEffects
    (Solver.applyMove Solver.initEffects
       (Solver.toCubie (Cube.applyMoves [R; U] Cube.reset)) (moveIndex F))
    (Solver.idx1 (Solver.invMove Solver.initEffects) (moveIndex F))
  = Solver.toCubie (Cube.applyMoves [R; U] Cube.reset).
Proof.
  apply (piece_moves_keep_valid_and_undo F
           (Solver.toCubie (Cube.applyMoves [R; U] Cube.reset))).
  apply ValidCubie_dec. vm_compute. reflexivity.
Defined.

(** ** The phase-2 moves on the states of G1 *)

Lemma list_as_map (l : list Z) (n : nat) :
  length l = n -> l = map (fun i => nth i l 0) (range n).
Proof.
  intros <-. unfold range. induction l as [|x l IH]; [reflexivity|].
  simpl. f_equal. rewrite <- seq_shift, map_map. exact IH.
Qed.

Lemma all_zero (l : list Z) (n : nat) :
  length l = n -> (forall j, (j < n)%nat -> nth j l 0 = 0) -> l = repeat 0 n.
Proof.
  intros Hl H. rewrite (list_as_map l n Hl).
  rewrite (map_ext_range _ (fun _ => 0) n H).
  unfold range. generalize 0%nat. clear. induction n as [|n IH]; intros a; [reflexivity|].
  simpl. f_equal. apply IH.
Qed.

Lemma Forall_range_isByte (hi : Z) (l : list Z) :
  hi <= 256 -> Forall (fun o => 0 <= o < hi) l -> Forall isByte l.
Proof. intros Hh. apply Forall_impl. unfold isByte. intros; lia. Qed.

Lemma G1Cubie_of_coords (cc : Solver.CubieCube) :
  ValidCubie cc -> inG1 cc -> G1Cubie cc.
Proof.
  intros Hv (HCO & HEO & HSL). split; [exact Hv|].
  destruct Hv as (HP & (HlO & HrO & HsO) & HE & (HlF & HrF & HsF)).
  split; [|split].
  - apply all_zero; [exact HlO|]. intros j Hj.
    pose proof (CO_zero_all_untwisted _ HlO (Forall_range_isByte 3 _ ltac:(lia) HrO)
                  HCO HsO j Hj) as H.
    pose proof (nth_in_range 0 3 (Solver.co cc) j ltac:(lia) HrO) as Hn.
    rewrite Z.rem_small in H by lia. exact H.
  - apply all_zero; [exact HlF|]. intros j Hj.
    pose proof (EO_zero_all_unflipped _ HlF (Forall_range_isByte 2 _ ltac:(lia) HrF)
                  HEO HsF j Hj) as H.
    pose proof (nth_in_range 0 2 (Solver.eo cc) j ltac:(lia) HrF) as Hn.
    rewrite land1_mod2, Z.mod_small in H by lia. exact H.
  - apply SLICE_zero_iff; [|exact HSL].
    rewrite (Permutation_length HE). reflexivity.
Qed.

Lemma phase2_is_move (m : Z) :
  In m Solver.kPhase2Moves -> exists mv, moveIndex mv = m /\ Solver.toMove m = mv.
Proof.
  intros H. apply moveIndex_surj.
  cbv [Solver.kPhase2Moves In] in H. lia.
Qed.

Lemma phase2_keeps_orientations (m : Z) (P E : list Z) :
  In m Solver.kPhase2Moves ->
  Solver.co (Solver.applyMove Solver.initEffects
               (Solver.mkCubie P (repeat 0 8) E (repeat 0 12)) m) = repeat 0 8
  /\ Solver.eo (Solver.applyMove Solver.initEffects
               (Solver.mkCubie P (repeat 0 8) E (repeat 0 12)) m) = repeat 0 12.
Proof.
  intros H. cbv [Solver.kPhase2Moves In] in H.
  repeat (destruct H as [<- | H]; [split; vm_compute; reflexivity|]).
  contradiction.
Qed.

Lemma G1Cubie_applyMove (m : Z) (cc : Solver.CubieCube) :
  In m Solver.kPhase2Moves -> G1Cubie cc ->
  G1Cubie (Solver.applyMove Solver.initEffects cc m).
Proof.
  intros Hm (Hv & Hco & Heo & Hsl).
  destruct (phase2_is_move m Hm) as (mv & Hmv & _).
  split; [rewrite <- Hmv; apply ValidCubie_applyMove, Hv|].
  destruct cc as [P O E F]. cbn [Solver.co Solver.eo Solver.ep] in *. subst O F.
  destruct (phase2_keeps_orientations m P E Hm) as [H1 H2].
  split; [exact H1|]. split; [exact H2|].
  intros j Hj. cbn [Solver.applyMove Solver.ep].
  rewrite nth_map_range by lia.
  destruct (phase2_effects m Hm) as [_ PE].
  destruct (PE j ltac:(lia)) as [_ [src [Hsrc [Hslice Hidx]]]].
  rewrite Hidx, idx1_of_nat. apply Hsl. lia.
Qed.

Lemma identityList_NoDup (n : nat) : NoDup (identityList n).
Proof.
  unfold identityList. apply Finite.Injective_map_NoDup.
  - intros a b E. lia.
  - unfold range. apply seq_NoDup.
Qed.

Lemma identityList_range (n : nat) (x : Z) :
  In x (identityList n) <-> 0 <= x < Z.of_nat n.
Proof.
  unfold identityList, range. rewrite in_map_iff. split.
  - intros (k & <- & Hk). apply in_seq in Hk. lia.
  - intros H. exists (Z.to_nat x). split; [lia|]. apply in_seq. lia.
Qed.

Lemma NoDup_app_disjoint {A : Type} (l1 l2 : list A) (a : A) :
  NoDup (l1 ++ l2) -> In a l1 -> ~ In a l2.
Proof.
  induction l1 as [|x l1 IH]; intros Hnd Hin; [contradiction|].
  simpl in Hnd. inversion Hnd as [|y l Hx Hnd']; subst.
  destruct Hin as [-> | Hin].
  - intros H2. apply Hx, in_or_app. right. exact H2.
  - apply IH; assumption.
Qed.

(** With the slice edges in the slice positions, the first eight entries
    of [ep] are the eight other edges and the last four, less 8, an order
    of 0..3. *)
Lemma G1_edges_split (ep : list Z) :
  Permutation ep (identityList 12) ->
  (forall j, (8 <= j < 12)%nat -> 8 <= nth j ep 0) ->
  Permutation (map (fun i => nth i ep 0) (range 8)) (identityList 8)
  /\ Permutation (map (fun i => u8 (nth (8 + i) ep 0 - 8)) (range 4))
       (identityList 4)
  /\ forall j, (8 <= j < 12)%nat -> 8 <= nth j ep 0 < 12.
Proof.
  intros HP Hs.
  assert (Hlen : length ep = 12%nat) by (rewrite (Permutation_length HP); reflexivity).
  assert (Hnd : NoDup ep)
    by (apply (Permutation_NoDup (Permutation_sym HP)), identityList_NoDup).
  assert (Hr : forall x, In x ep -> 0 <= x < 12).
  { intros x Hx. apply (Permutation_in _ HP), identityList_range in Hx. lia. }
  pose proof (Hs 8%nat ltac:(lia)) as H8. pose proof (Hs 9%nat ltac:(lia)) as H9.
  pose proof (Hs 10%nat ltac:(lia)) as H10. pose proof (Hs 11%nat ltac:(lia)) as H11.
  clear Hs.
  explode_list ep Hlen. cbn [nth] in H8, H9, H10, H11.
  cbn [map range seq nth Nat.add].
  assert (R8 := Hr z7 ltac:(simpl; tauto)). assert (R9 := Hr z8 ltac:(simpl; tauto)).
  assert (R10 := Hr z9 ltac:(simpl; tauto)). assert (R11 := Hr z10 ltac:(simpl; tauto)).
  change [z; z0; z1; z2; z3; z4; z5; z6; z7; z8; z9; z10]
    with ([z; z0; z1; z2; z3; z4; z5; z6] ++ [z7; z8; z9; z10]) in Hnd.
  pose proof (NoDup_app_remove_l _ _ Hnd) as Hlast.
  pose proof (NoDup_app_remove_r _ _ Hnd) as Hfirst.
  assert (Plast : Permutation [z7; z8; z9; z10] [8; 9; 10; 11]).
  { apply NoDup_Permutation_bis; [exact Hlast | simpl; lia |].
    intros x Hx. simpl in Hx. simpl. lia. }
  split; [|split].
  - apply NoDup_Permutation_bis; [exact Hfirst | simpl; lia |].
    intros x Hx.
    assert (Hx12 : 0 <= x < 12) by (apply Hr; simpl in Hx |- *; tauto).
    assert (Hnot : ~ In x [z7; z8; z9; z10])
      by (apply (NoDup_app_disjoint _ _ x Hnd), Hx).
    apply identityList_range.
    destruct (Z_lt_dec x 8) as [|Hge]; [lia|]. exfalso. apply Hnot.
    apply (Permutation_in x (Permutation_sym Plast)). simpl. lia.
  - change (identityList 4) with (map (fun e => u8 (e - 8)) [8; 9; 10; 11]).
    change [u8 (z7 - 8); u8 (z8 - 8); u8 (z9 - 8); u8 (z10 - 8)]
      with (map (fun e => u8 (e - 8)) [z7; z8; z9; z10]).
    apply Permutation_map, Plast.
  - intros j Hj.
    assert (E : j = 8%nat \/ j = 9%nat \/ j = 10%nat \/ j = 11%nat) by lia.
    destruct E as [-> | [-> | [-> | ->]]]; cbn [nth]; lia.
Qed.

Lemma solved_G1 : G1Cubie Solver.solved.
Proof.
  split; [apply ValidCubie_dec; vm_compute; reflexivity|].
  split; [vm_compute; reflexivity|]. split; [vm_compute; reflexivity|].
  intros j Hj.
  assert (E : j = 8%nat \/ j = 9%nat \/ j = 10%nat \/ j = 11%nat) by lia.
  destruct E as [-> | [-> | [-> | ->]]]; vm_compute; discriminate.
Qed.

(** ** The move tables of [Tables::init] (X18, X19) *)

Lemma phase2_index (mi : nat) :
  (mi < 10)%nat -> In (nth mi Solver.kPhase2Moves 0) Solver.kPhase2Moves.
Proof.
  intros H. apply nth_In. exact H.
Qed.

Lemma cpMove_entry (cc : Solver.CubieCube) (mi : nat) :
  G1Cubie cc -> (mi < 10)%nat ->
  Solver.idx2 Solver.initCpMove (Solver.perm8Coord (Solver.cp cc)) (Z.of_nat mi)
  = Solver.perm8Coord
      (Solver.cp (Solver.applyMove Solver.initEffects cc
                    (nth mi Solver.kPhase2Moves 0))).
Proof.
  intros ((HP & _) & _) Hmi.
  pose proof (perm8Coord_range (Solver.cp cc)) as Hr.
  unfold Solver.initCpMove.
  rewrite (idx2_table
             (fun cp_ mi =>
                u16 (Solver.perm8Coord
                       (Solver.cp
                          (Solver.applyMove Solver.initEffects
                             (Solver.mkCubie (Solver.perm8FromCoord cp_)
                                (Solver.co Solver.solved) (Solver.ep Solver.solved)
                                (Solver.eo Solver.solved))
                             (nth mi Solver.kPhase2Moves 0)))))
             Solver.kCP Solver.kNumPhase2Moves)
    by (unfold Solver.kCP, Solver.kNumPhase2Moves; lia).
  rewrite perm8_decode_encode by exact HP.
  rewrite u16_small
    by (match goal with |- 0 <= Solver.perm8Coord ?p < _ =>
          pose proof (perm8Coord_range p); lia end).
  reflexivity.
Qed.

Lemma epMove_entry (cc : Solver.CubieCube) (mi : nat) :
  G1Cubie cc -> (mi < 10)%nat ->
  Solver.idx2 Solver.initEpMove (Solver.edgePermCoord8_fromEp (Solver.ep cc))
    (Z.of_nat mi)
  = Solver.edgePermCoord8_fromEp
      (Solver.ep (Solver.applyMove Solver.initEffects cc
                    (nth mi Solver.kPhase2Moves 0))).
Proof.
  intros ((_ & _ & HE & _) & _ & _ & Hsl) Hmi.
  destruct (G1_edges_split _ HE Hsl) as (H8 & _ & _).
  pose proof (edgePermCoord8_range (Solver.ep cc)) as Hr.
  unfold Solver.initEpMove.
  rewrite (idx2_table
             (fun ep_ mi =>
                u16 (Solver.perm8Coord
                  (map (fun i =>
                     nth i (Solver.ep
                       (Solver.applyMove Solver.initEffects
                          (Solver.mkCubie (Solver.cp Solver.solved)
                             (Solver.co Solver.solved)
                             (map (fun i => nth i (Solver.perm8FromCoord ep_) 0) (range 8)
                              ++ map (fun i => u8 (Z.of_nat i)) (seq 8 4))
                             (Solver.eo Solver.solved))
                          (nth mi Solver.kPhase2Moves 0))) 0) (range 8))))
             Solver.kEP Solver.kNumPhase2Moves)
    by (unfold Solver.kEP, Solver.kNumPhase2Moves; lia).
  unfold Solver.edgePermCoord8_fromEp.
  rewrite perm8_decode_encode by exact H8.
  rewrite u16_small
    by (match goal with |- 0 <= Solver.perm8Coord ?p < _ =>
          pose proof (perm8Coord_range p); lia end).
  f_equal.
  assert (Hlen : length (Solver.ep cc) = 12%nat)
    by (rewrite (Permutation_length HE); reflexivity).
  destruct cc as [P O E F]. cbn [Solver.ep] in *.
  explode_list E Hlen.
  pose proof (phase2_index mi Hmi) as Hm.
  set (m := nth mi Solver.kPhase2Moves 0) in *. clearbody m.
  cbv [Solver.kPhase2Moves In] in Hm.
  repeat (destruct Hm as [<- | Hm]; [vm_compute; reflexivity|]).
  contradiction.
Qed.

Lemma u8_slice (e : Z) : 8 <= e < 12 -> u8 (8 + u8 (e - 8)) = e.
Proof. intros H. rewrite (u8_small (e - 8)) by lia. rewrite u8_small; lia. Qed.

Lemma spMove_entry (cc : Solver.CubieCube) (mi : nat) :
  G1Cubie cc -> (mi < 10)%nat ->
  Solver.idx2 Solver.initSpMove (Solver.slicePermCoord_fromEp (Solver.ep cc))
    (Z.of_nat mi)
  = Solver.slicePermCoord_fromEp
      (Solver.ep (Solver.applyMove Solver.initEffects cc
                    (nth mi Solver.kPhase2Moves 0))).
Proof.
  intros ((_ & _ & HE & _) & _ & _ & Hsl) Hmi.
  destruct (G1_edges_split _ HE Hsl) as (_ & H4 & Hs).
  pose proof (slicePermCoord_range (Solver.ep cc)) as Hr.
  unfold Solver.initSpMove.
  rewrite (idx2_table
             (fun sp_ mi =>
                u8 (Solver.perm4Coord
                  (map (fun i =>
                     u8 (nth (8 + i) (Solver.ep
                       (Solver.applyMove Solver.initEffects
                          (Solver.mkCubie (Solver.cp Solver.solved)
                             (Solver.co Solver.solved)
                             (map (fun i => u8 (Z.of_nat i)) (range 8)
                              ++ map (fun i => u8 (8 + nth i (Solver.perm4FromCoord sp_) 0))
                                   (range 4))
                             (Solver.eo Solver.solved))
                          (nth mi Solver.kPhase2Moves 0))) 0 - 8)) (range 4))))
             Solver.kSP Solver.kNumPhase2Moves)
    by (unfold Solver.kSP, Solver.kNumPhase2Moves; lia).
  unfold Solver.slicePermCoord_fromEp.
  rewrite perm4_decode_encode by exact H4.
  rewrite u8_small
    by (match goal with |- 0 <= Solver.perm4Coord ?p < _ =>
          pose proof (perm4Coord_range p); lia end).
  f_equal.
  assert (Hlen : length (Solver.ep cc) = 12%nat)
    by (rewrite (Permutation_length HE); reflexivity).
  pose proof (Hs 8%nat ltac:(lia)) as S8. pose proof (Hs 9%nat ltac:(lia)) as S9.
  pose proof (Hs 10%nat ltac:(lia)) as S10. pose proof (Hs 11%nat ltac:(lia)) as S11.
  destruct cc as [P O E F]. cbn [Solver.ep] in *.
  explode_list E Hlen. cbn [nth] in S8, S9, S10, S11.
  cbn [map range seq nth Nat.add].
  rewrite !u8_slice by assumption.
  pose proof (phase2_index mi Hmi) as Hm.
  set (m := nth mi Solver.kPhase2Moves 0) in *. clearbody m.
  cbv [Solver.kPhase2Moves In] in Hm.
  repeat (destruct Hm as [<- | Hm]; [vm_compute; reflexivity|]).
  contradiction.
Qed.

Lemma applyMove_bytes (e : Solver.MoveEffects) (cc : Solver.CubieCube) (m : Z) :
  Forall isByte (Solver.co (Solver.applyMove e cc m))
  /\ Forall isByte (Solver.eo (Solver.applyMove e cc m)).
Proof.
  split; apply Forall_forall; intros o Ho; cbn [Solver.applyMove Solver.co Solver.eo] in Ho;
    apply in_map_iff in Ho; destruct Ho as (i & <- & _);
    unfold isByte, u8; apply Z.mod_pos_bound; lia.
Qed.

Lemma coMove_entry (cc : Solver.CubieCube) (k : nat) :
  ValidCubie cc -> (k < 18)%nat ->
  Solver.idx2 Solver.initCoMove (Solver.cornerOriCoord (Solver.co cc)) (Z.of_nat k)
  = Solver.cornerOriCoord
      (Solver.co (Solver.applyMove Solver.initEffects cc (Z.of_nat k))).
Proof.
  intros (_ & (HlO & HrO & HsO) & _) Hk.
  pose proof (cornerOriCoord_range _ (Forall_range_isByte 3 _ ltac:(lia) HrO)) as Hr.
  unfold Solver.initCoMove.
  rewrite (idx2_table
             (fun co_ m =>
                u16 (Solver.cornerOriCoord
                       (Solver.co
                          (Solver.applyMove Solver.initEffects
                             (Solver.mkCubie (Solver.cp Solver.solved)
                                (Solver.cornerOriFromCoord co_)
                                (Solver.ep Solver.solved) (Solver.eo Solver.solved))
                             (Z.of_nat m)))))
             Solver.kCO Solver.kNumMoves)
    by (unfold Solver.kCO, Solver.kNumMoves; lia).
  rewrite CO_decode_encode by assumption.
  rewrite u16_small
    by (match goal with |- 0 <= Solver.cornerOriCoord (Solver.co ?c) < _ =>
          pose proof (cornerOriCoord_range _
                        (proj1 (applyMove_bytes Solver.initEffects
                                  (Solver.mkCubie (Solver.cp Solver.solved) (Solver.co cc)
                                     (Solver.ep Solver.solved) (Solver.eo Solver.solved))
                                  (Z.of_nat k)))); lia end).
  reflexivity.
Qed.

Lemma eoMove_entry (cc : Solver.CubieCube) (k : nat) :
  ValidCubie cc -> (k < 18)%nat ->
  Solver.idx2 Solver.initEoMove (Solver.edgeOriCoord (Solver.eo cc)) (Z.of_nat k)
  = Solver.edgeOriCoord
      (Solver.eo (Solver.applyMove Solver.initEffects cc (Z.of_nat k))).
Proof.
  intros (_ & _ & _ & (HlF & HrF & HsF)) Hk.
  pose proof (edgeOriCoord_range (Solver.eo cc)) as Hr.
  unfold Solver.initEoMove.
  rewrite (idx2_table
             (fun eo_ m =>
                u16 (Solver.edgeOriCoord
                       (Solver.eo
                          (Solver.applyMove Solver.initEffects
                             (Solver.mkCubie (Solver.cp Solver.solved)
                                (Solver.co Solver.solved) (Solver.ep Solver.solved)
                                (Solver.edgeOriFromCoord eo_))
                             (Z.of_nat m)))))
             Solver.kEO Solver.kNumMoves)
    by (unfold Solver.kEO, Solver.kNumMoves; lia).
  rewrite EO_decode_encode by assumption.
  rewrite u16_small
    by (match goal with |- 0 <= Solver.edgeOriCoord ?l < _ =>
          pose proof (edgeOriCoord_range l); lia end).
  reflexivity.
Qed.

Lemma initCoMove_range (x : Z) (k : nat) :
  0 <= x < Solver.kCO -> (k < 18)%nat ->
  0 <= Solver.idx2 Solver.initCoMove x (Z.of_nat k) < Solver.kCO.
Proof.
  intros Hx Hk. unfold Solver.initCoMove.
  rewrite (idx2_table
             (fun co_ m =>
                u16 (Solver.cornerOriCoord
                       (Solver.co
                          (Solver.applyMove Solver.initEffects
                             (Solver.mkCubie (Solver.cp Solver.solved)
                                (Solver.cornerOriFromCoord co_)
                                (Solver.ep Solver.solved) (Solver.eo Solver.solved))
                             (Z.of_nat m)))))
             Solver.kCO Solver.kNumMoves)
    by (unfold Solver.kNumMoves; lia).
  match goal with |- 0 <= u16 (Solver.cornerOriCoord (Solver.co (Solver.applyMove ?e ?c ?m))) < _ =>
    pose proof (cornerOriCoord_range _ (proj1 (applyMove_bytes e c m))) as H end.
  rewrite u16_small by lia. unfold Solver.kCO. lia.
Qed.

Lemma initEoMove_range (x : Z) (k : nat) :
  0 <= x < Solver.kEO -> (k < 18)%nat ->
  0 <= Solver.idx2 Solver.initEoMove x (Z.of_nat k) < Solver.kEO.
Proof.
  intros Hx Hk. unfold Solver.initEoMove.
  rewrite (idx2_table
             (fun eo_ m =>
                u16 (Solver.edgeOriCoord
                       (Solver.eo
                          (Solver.applyMove Solver.initEffects
                             (Solver.mkCubie (Solver.cp Solver.solved)
                                (Solver.co Solver.solved) (Solver.ep Solver.solved)
                                (Solver.edgeOriFromCoord eo_))
                             (Z.of_nat m)))))
             Solver.kEO Solver.kNumMoves)
    by (unfold Solver.kNumMoves; lia).
  match goal with |- 0 <= u16 (Solver.edgeOriCoord ?l) < _ =>
    pose proof (edgeOriCoord_range l) as H end.
  rewrite u16_small by lia. unfold Solver.kEO. lia.
Qed.

Lemma initSliceMove_range (x : Z) (k : nat) :
  0 <= x < Solver.kSLICE -> (k < 18)%nat ->
  0 <= Solver.idx2 Solver.initSliceMove x (Z.of_nat k) <= 792.
Proof.
  intros Hx Hk. unfold Solver.initSliceMove.
  rewrite (idx2_table
             (fun sl m =>
                u16 (Solver.sliceCoord
                       (Solver.ep
                          (Solver.applyMove Solver.initEffects
                             (Solver.mkCubie (Solver.cp Solver.solved)
                                (Solver.co Solver.solved) (Solver.sliceFromCoord sl)
                                (Solver.eo Solver.solved))
                             (Z.of_nat m)))))
             Solver.kSLICE Solver.kNumMoves)
    by (unfold Solver.kNumMoves; lia).
  match goal with |- 0 <= u16 (Solver.sliceCoord ?l) <= _ =>
    pose proof (sliceCoord_range l ltac:(reflexivity)) as H end.
  rewrite u16_small by lia. lia.
Qed.

Lemma initCpMove_range (x : Z) (mi : nat) :
  0 <= x < Solver.kCP -> (mi < 10)%nat ->
  0 <= Solver.idx2 Solver.initCpMove x (Z.of_nat mi) < Solver.kCP.
Proof.
  intros Hx Hk. unfold Solver.initCpMove.
  rewrite (idx2_table
             (fun cp_ mi =>
                u16 (Solver.perm8Coord
                       (Solver.cp
                          (Solver.applyMove Solver.initEffects
                             (Solver.mkCubie (Solver.perm8FromCoord cp_)
                                (Solver.co Solver.solved) (Solver.ep Solver.solved)
                                (Solver.eo Solver.solved))
                             (nth mi Solver.kPhase2Moves 0)))))
             Solver.kCP Solver.kNumPhase2Moves)
    by (unfold Solver.kNumPhase2Moves; lia).
  match goal with |- 0 <= u16 (Solver.perm8Coord ?l) < _ =>
    pose proof (perm8Coord_range l) as H end.
  rewrite u16_small by lia. unfold Solver.kCP. lia.
Qed.

Lemma initEpMove_range (x : Z) (mi : nat) :
  0 <= x < Solver.kEP -> (mi < 10)%nat ->
  0 <= Solver.idx2 Solver.initEpMove x (Z.of_nat mi) < Solver.kEP.
Proof.
  intros Hx Hk. unfold Solver.initEpMove.
  rewrite (idx2_table
             (fun ep_ mi =>
                u16 (Solver.perm8Coord
                  (map (fun i =>
                     nth i (Solver.ep
                       (Solver.applyMove Solver.initEffects
                          (Solver.mkCubie (Solver.cp Solver.solved)
                             (Solver.co Solver.solved)
                             (map (fun i => nth i (Solver.perm8FromCoord ep_) 0) (range 8)
                              ++ map (fun i => u8 (Z.of_nat i)) (seq 8 4))
                             (Solver.eo Solver.solved))
                          (nth mi Solver.kPhase2Moves 0))) 0) (range 8))))
             Solver.kEP Solver.kNumPhase2Moves)
    by (unfold Solver.kNumPhase2Moves; lia).
  match goal with |- 0 <= u16 (Solver.perm8Coord ?l) < _ =>
    pose proof (perm8Coord_range l) as H end.
  rewrite u16_small by lia. unfold Solver.kEP. lia.
Qed.

Lemma initSpMove_range (x : Z) (mi : nat) :
  0 <= x < Solver.kSP -> (mi < 10)%nat ->
  0 <= Solver.idx2 Solver.initSpMove x (Z.of_nat mi) < Solver.kSP.
Proof.
  intros Hx Hk. unfold Solver.initSpMove.
  rewrite (idx2_table
             (fun sp_ mi =>
                u8 (Solver.perm4Coord
                  (map (fun i =>
                     u8 (nth (8 + i) (Solver.ep
                       (Solver.applyMove Solver.initEffects
                          (Solver.mkCubie (Solver.cp Solver.solved)
                             (Solver.co Solver.solved)
                             (map (fun i => u8 (Z.of_nat i)) (range 8)
                              ++ map (fun i => u8 (8 + nth i (Solver.perm4FromCoord sp_) 0))
                                   (range 4))
                             (Solver.eo Solver.solved))
                          (nth mi Solver.kPhase2Moves 0))) 0 - 8)) (range 4))))
             Solver.kSP Solver.kNumPhase2Moves)
    by (unfold Solver.kNumPhase2Moves; lia).
  match goal with |- 0 <= u8 (Solver.perm4Coord ?l) < _ =>
    pose proof (perm4Coord_range l) as H end.
  rewrite u8_small by lia. unfold Solver.kSP. lia.
Qed.

(** X18. The move tables of [Tables::init] commute with the piece-level
    move: on the cubie state of a real cube the [coMove] and [eoMove]
    entry at a state's coordinate is the coordinate of the moved state,
    for all 18 moves; on a state of G1 a phase-2 move gives a state of G1
    again, and the [cpMove], [epMove] and [spMove] entries are the
    coordinates of the moved state. *)
Theorem move_tables_follow_piece_moves :
  (forall (cc : Solver.CubieCube) (k : nat),
     ValidCubie cc -> (k < 18)%nat ->
     Solver.idx2 Solver.initCoMove (Solver.cornerOriCoord (Solver.co cc)) (Z.of_nat k)
     = Solver.cornerOriCoord
         (Solver.co (Solver.applyMove Solver.initEffects cc (Z.of_nat k)))
     /\ Solver.idx2 Solver.initEoMove (Solver.edgeOriCoord (Solver.eo cc)) (Z.of_nat k)
        = Solver.edgeOriCoord
            (Solver.eo (Solver.applyMove Solver.initEffects cc (Z.of_nat k))))
  /\ (forall (cc : Solver.CubieCube) (mi : nat),
     G1Cubie cc -> (mi < 10)%nat ->
     let cc' := Solver.applyMove Solver.initEffects cc
                  (nth mi Solver.kPhase2Moves 0) in
     G1Cubie cc'
     /\ Solver.idx2 Solver.initCpMove (Solver.perm8Coord (Solver.cp cc)) (Z.of_nat mi)
        = Solver.perm8Coord (Solver.cp cc')
     /\ Solver.idx2 Solver.initEpMove
          (Solver.edgePermCoord8_fromEp (Solver.ep cc)) (Z.of_nat mi)
        = Solver.edgePermCoord8_fromEp (Solver.ep cc')
     /\ Solver.idx2 Solver.initSpMove
          (Solver.slicePermCoord_fromEp (Solver.ep cc)) (Z.of_nat mi)
        = Solver.slicePermCoord_fromEp (Solver.ep cc')).
Proof.
  split.
  - intros cc k Hv Hk. split; [apply coMove_entry | apply eoMove_entry]; assumption.
  - intros cc mi Hg Hmi cc'. split.
    + apply G1Cubie_applyMove; [apply phase2_index, Hmi | exact Hg].
    + split; [apply cpMove_entry; assumption|].
      split; [apply epMove_entry | apply spMove_entry]; assumption.
Qed.

Lemma move_tables_follow_piece_moves_witness :
  Solver.idx2 Solver.initCpMove
    (Solver.perm8Coord (Solver.cp Solver.solved)) (Z.of_nat 7)
  = Solver.perm8Coord
      (Solver.cp (Solver.applyMove Solver.initEffects Solver.solved
                    (nth 7 Solver.kPhase2Moves 0))).
Proof.
  assert (H : (7 < 10)%nat) by lia.
  exact (proj1 (proj2 (proj2 move_tables_follow_piece_moves Solver.solved 7%nat
                               solved_G1 H))).
Defined.

(** X19. Every entry of [coMove], [eoMove], [cpMove], [epMove] and
    [spMove] is a valid row index of its own table; the entries of
    [sliceMove] lie in 0..792. *)
Theorem move_table_entries_in_range :
  (forall x k, 0 <= x < Solver.kCO -> (k < 18)%nat ->
     0 <= Solver.idx2 Solver.initCoMove x (Z.of_nat k) < Solver.kCO)
  /\ (forall x k, 0 <= x < Solver.kEO -> (k < 18)%nat ->
     0 <= Solver.idx2 Solver.initEoMove x (Z.of_nat k) < Solver.kEO)
  /\ (forall x k, 0 <= x < Solver.kSLICE -> (k < 18)%nat ->
     0 <= Solver.idx2 Solver.initSliceMove x (Z.of_nat k) <= 792)
  /\ (forall x mi, 0 <= x < Solver.kCP -> (mi < 10)%nat ->
     0 <= Solver.idx2 Solver.initCpMove x (Z.of_nat mi) < Solver.kCP)
  /\ (forall x mi, 0 <= x < Solver.kEP -> (mi < 10)%nat ->
     0 <= Solver.idx2 Solver.initEpMove x (Z.of_nat mi) < Solver.kEP)
  /\ (forall x mi, 0 <= x < Solver.kSP -> (mi < 10)%nat ->
     0 <= Solver.idx2 Solver.initSpMove x (Z.of_nat mi) < Solver.kSP).
Proof.
  split; [exact initCoMove_range|]. split; [exact initEoMove_range|].
  split; [exact initSliceMove_range|]. split; [exact initCpMove_range|].
  split; [exact initEpMove_range | exact initSpMove_range].
Qed.

Lemma move_table_entries_in_range_witness :
  0 <= Solver.idx2 Solver.initSliceMove 77 (Z.of_nat 5) <= 792.
Proof.
  assert (H : 0 <= 77 < Solver.kSLICE) by (unfold Solver.kSLICE; lia).
  assert (H5 : (5 < 18)%nat) by lia.
  exact (proj1 (proj2 (proj2 move_table_entries_in_range)) 77 5%nat H H5).
Defined.

(** ** What the two searches return (X20, X21) *)

Lemma perm8_zero (p : list Z) :
  Permutation p (identityList 8) -> Solver.perm8Coord p = 0 -> p = identityList 8.
Proof.
  intros HP Hcp.
  rewrite <- (perm8_decode_encode _ HP), Hcp. vm_compute. reflexivity.
Qed.

Lemma perm4_zero (p : list Z) :
  Permutation p (identityList 4) -> Solver.perm4Coord p = 0 -> p = identityList 4.
Proof.
  intros HP Hcp.
  rewrite <- (perm4_decode_encode _ HP), Hcp. vm_compute. reflexivity.
Qed.

Lemma solved_arrays :
  Solver.solved
  = Solver.mkCubie (identityList 8) (repeat 0 8) (identityList 12) (repeat 0 12).
Proof. vm_compute. reflexivity. Qed.

Lemma edges_from_parts (ep : list Z) :
  length ep = 12%nat ->
  map (fun i => nth i ep 0) (range 8) = identityList 8 ->
  map (fun i => u8 (nth (8 + i) ep 0 - 8)) (range 4) = identityList 4 ->
  (forall j, (8 <= j < 12)%nat -> 8 <= nth j ep 0 < 12) ->
  ep = identityList 12.
Proof.
  intros Hlen E2 E3 Hs.
  pose proof (Hs 8%nat ltac:(lia)) as S8. pose proof (Hs 9%nat ltac:(lia)) as S9.
  pose proof (Hs 10%nat ltac:(lia)) as S10. pose proof (Hs 11%nat ltac:(lia)) as S11.
  clear Hs.
  explode_list ep Hlen. cbn [nth] in S8, S9, S10, S11.
  change (identityList 8) with [0; 1; 2; 3; 4; 5; 6; 7] in E2.
  change (identityList 4) with [0; 1; 2; 3] in E3.
  change (identityList 12) with [0; 1; 2; 3; 4; 5; 6; 7; 8; 9; 10; 11].
  cbn [map range seq nth Nat.add] in E2, E3.
  rewrite !u8_small in E3 by lia.
  injection E2 as -> -> -> -> -> -> -> ->.
  injection E3 as A B C D0.
  assert (z7 = 8) by lia. assert (z8 = 9) by lia.
  assert (z9 = 10) by lia. assert (z10 = 11) by lia. subst.
  reflexivity.
Qed.

Lemma edgePerm_zero (ep : list Z) :
  Permutation (map (fun i => nth i ep 0) (range 8)) (identityList 8) ->
  Solver.edgePermCoord8_fromEp ep = 0 ->
  map (fun i => nth i ep 0) (range 8) = identityList 8.
Proof. unfold Solver.edgePermCoord8_fromEp. apply perm8_zero. Qed.

Lemma slicePerm_zero (ep : list Z) :
  Permutation (map (fun i => u8 (nth (8 + i) ep 0 - 8)) (range 4)) (identityList 4) ->
  Solver.slicePermCoord_fromEp ep = 0 ->
  map (fun i => u8 (nth (8 + i) ep 0 - 8)) (range 4) = identityList 4.
Proof. unfold Solver.slicePermCoord_fromEp. apply perm4_zero. Qed.

Lemma G1Cubie_zero_is_solved (cc : Solver.CubieCube) :
  G1Cubie cc ->
  Solver.perm8Coord (Solver.cp cc) = 0 ->
  Solver.edgePermCoord8_fromEp (Solver.ep cc) = 0 ->
  Solver.slicePermCoord_fromEp (Solver.ep cc) = 0 ->
  cc = Solver.solved.
Proof.
  destruct cc as [P O E F]. unfold G1Cubie, ValidCubie.
  cbn [Solver.cp Solver.co Solver.ep Solver.eo].
  intros ((HP & _ & HE & _) & Hco & Heo & Hsl) Hcp Hep Hsp.
  destruct (G1_edges_split _ HE Hsl) as (H8 & H4 & Hs).
  rewrite solved_arrays.
  f_equal.
  - apply perm8_zero; [exact HP | exact Hcp].
  - exact Hco.
  - apply edges_from_parts; [|apply edgePerm_zero|apply slicePerm_zero|exact Hs].
    + rewrite (Permutation_length HE). reflexivity.
    + exact H8.
    + exact Hep.
    + exact H4.
    + exact Hsp.
  - exact Heo.
Qed.

Lemma builtTables_built : MoveTablesBuilt builtTables.
Proof. split; [reflexivity|]. split; [reflexivity|]. split; reflexivity. Qed.

Section Sound.

Import Solver.

Variable t : Tables.
Hypothesis Ht : MoveTablesBuilt t.

Lemma searchPhase2_sound (d : nat) :
  forall cc lastMove path w,
    G1Cubie cc ->
    phase2Sound cc path
      (searchPhase2 t (perm8Coord (cp cc)) (edgePermCoord8_fromEp (ep cc))
         (slicePermCoord_fromEp (ep cc)) d lastMove path w).
Proof.
  destruct Ht as (He & Hc & Hep & Hsp).
  induction d as [|d IH]; intros cc lastMove path w Hcc;
    cbn [searchPhase2];
    destruct (cancelled w) as [c w1];
    (destruct c; [reflexivity|]);
    match goal with |- context [if ?b then _ else _] => destruct b end;
    try reflexivity.
  - unfold phase2Sound.
    destruct (perm8Coord (cp cc) =? 0) eqn:E1; [|reflexivity].
    destruct (edgePermCoord8_fromEp (ep cc) =? 0) eqn:E2; [|reflexivity].
    destruct (slicePermCoord_fromEp (ep cc) =? 0) eqn:E3; [|reflexivity].
    cbn [andb]. exists []. rewrite app_nil_r.
    split; [reflexivity|]. split; [constructor|].
    apply Z.eqb_eq in E1, E2, E3.
    apply (G1Cubie_zero_is_solved cc Hcc E1 E2 E3).
  - pose proof
      (forUntil_inv_In (X := nat)
         (fun s : list Z * World => fst s = path)
         (fun r : bool * list Z * World =>
            fst (fst r) = true /\ phase2Sound cc path r))
      as Hloop.
    match goal with
    | |- context [forUntil ?body ?xs ?s] =>
        specialize (Hloop body xs); set (loop := forUntil body xs s) in *
    end.
    assert (Hres : match loop with
                   | inl s' => fst s' = path
                   | inr r => fst (fst r) = true /\ phase2Sound cc path r
                   end).
    { apply Hloop; [| reflexivity].
      intros mi [path' w'] Hmi Hp; cbn [fst] in Hp. subst path'.
      apply in_seq in Hmi.
      destruct (negb _); [reflexivity|].
      rewrite Hc, Hep, Hsp.
      rewrite cpMove_entry, epMove_entry, spMove_entry
        by (try exact Hcc; unfold kNumPhase2Moves in Hmi; lia).
      set (move := nth mi kPhase2Moves 0).
      assert (Hmove : In move kPhase2Moves)
        by (apply phase2_index; unfold kNumPhase2Moves in Hmi; lia).
      pose proof (IH (applyMove initEffects cc move) move (path ++ [move]) w'
                    (G1Cubie_applyMove move cc Hmove Hcc)) as Hrec.
      destruct (searchPhase2 t _ _ _ d move (path ++ [move]) w')
        as [[found path''] w''].
      unfold phase2Sound in Hrec.
      destruct found; cbn [fst snd].
      - split; [reflexivity|]. unfold phase2Sound.
        destruct Hrec as (ms & -> & Hms & Hsolved).
        exists (move :: ms). rewrite <- app_assoc. split; [reflexivity|].
        split; [constructor; assumption | exact Hsolved].
      - rewrite Hrec. apply removelast_last. }
    destruct loop as [[path' w']|[[found path'] w']].
    + cbn [fst] in Hres. exact Hres.
    + cbn [fst] in Hres. destruct Hres as [-> Hs]. exact Hs.
Qed.

Lemma searchPhase1_sound (d : nat) :
  forall lastMove maxTotalDepth cc path1 out w,
    ValidCubie cc ->
    phase1Sound cc path1
      (searchPhase1 t d lastMove maxTotalDepth (mkP1 cc path1 out w)).
Proof.
  destruct Ht as (He & Hc & Hep & Hsp).
  induction d as [|d IH]; intros lastMove maxTotalDepth cc path1 out w Hcc;
    cbn [searchPhase1];
    destruct (cancelled w) as [c w1];
    (destruct c; [split; reflexivity|]);
    match goal with |- context [if ?b then _ else _] => destruct b end;
    try (split; reflexivity).
  - (* the leaf *)
    destruct (cornerOriCoord (co cc) =? 0) eqn:E1; [|split; reflexivity].
    destruct (edgeOriCoord (eo cc) =? 0) eqn:E2; [|split; reflexivity].
    destruct (sliceCoord (ep cc) =? 0) eqn:E3; [|split; reflexivity].
    cbn [andb negb].
    apply Z.eqb_eq in E1, E2, E3.
    assert (Hg : G1Cubie cc)
      by (apply G1Cubie_of_coords; [exact Hcc | repeat split; assumption]).
    pose proof
      (forUntil_inv (X := nat)
         (fun s : list Z * World => True)
         (fun r : bool * list Z * World =>
            fst (fst r) = true -> phase2Sound cc [] (true, snd (fst r), snd r)))
      as Hloop.
    match goal with
    | |- context [forUntil ?body ?xs ?s] =>
        specialize (Hloop body xs); set (loop := forUntil body xs s) in *
    end.
    assert (Hres : match loop with
                   | inl s' => True
                   | inr r => fst (fst r) = true ->
                              phase2Sound cc [] (true, snd (fst r), snd r)
                   end).
    { apply Hloop; [| exact I].
      intros d2 [out' w'] _.
      pose proof (searchPhase2_sound d2 cc (-1) [] w' Hg) as Hrec.
      destruct (searchPhase2 t _ _ _ d2 (-1) [] w') as [[found path2] w''].
      destruct found; cbn [fst snd].
      - intros _. exact Hrec.
      - destruct (cancelled w'') as [c2 w3].
        destruct c2; [cbn [fst]; discriminate | exact I]. }
    destruct loop as [[out' w']|[[found out'] w']]; unfold phase1Sound;
      cbn [p1_path1 p1_outPhase2 p1_cc]; [split; reflexivity|].
    cbn [fst snd] in Hres.
    destruct found; [|split; reflexivity].
    destruct (Hres eq_refl) as (ms & Hms & Hall & Hsolved).
    simpl in Hms. subst out'.
    exists []. rewrite app_nil_r. repeat split; [constructor | exact Hall | exact Hsolved].
  - (* an inner node *)
    pose proof
      (forUntil_inv_In (X := nat)
         (fun s : Phase1State => p1_cc s = cc /\ p1_path1 s = path1)
         (fun r : bool * Phase1State =>
            fst r = true /\ phase1Sound cc path1 r))
      as Hloop.
    match goal with
    | |- context [forUntil ?body ?xs ?s] =>
        specialize (Hloop body xs); set (loop := forUntil body xs s) in *
    end.
    assert (Hres : match loop with
                   | inl s' => p1_cc s' = cc /\ p1_path1 s' = path1
                   | inr r => fst r = true /\ phase1Sound cc path1 r
                   end).
    { apply Hloop; [| split; reflexivity].
      intros mi [cc' path1' out' w'] Hmi [Hc1 Hp1];
        cbn [p1_cc p1_path1] in Hc1, Hp1. subst cc' path1'.
      apply in_seq in Hmi. unfold kNumMoves in Hmi.
      destruct (negb _); [split; reflexivity|].
      destruct (moveIndex_surj (Z.of_nat mi) ltac:(lia)) as (mv & Hmv & _).
      rewrite He, <- Hmv.
      pose proof (ValidCubie_applyMove mv cc Hcc) as Hcc2.
      pose proof (IH (moveIndex mv) maxTotalDepth
                    (applyMove initEffects cc (moveIndex mv))
                    (path1 ++ [moveIndex mv]) out' w' Hcc2) as Hrec.
      destruct (searchPhase1 t d (moveIndex mv) maxTotalDepth _)
        as [found [cc2 path2 out2 w2]].
      unfold phase1Sound in Hrec. cbn [p1_cc p1_path1 p1_outPhase2] in Hrec.
      destruct found; cbn [fst snd].
      - split; [reflexivity|]. unfold phase1Sound.
        cbn [p1_cc p1_path1 p1_outPhase2].
        destruct Hrec as (ms1 & -> & Hms & Hout & Hsolved).
        exists (moveIndex mv :: ms1). rewrite <- app_assoc.
        split; [reflexivity|].
        split; [constructor; [rewrite Hmv; lia | exact Hms]|].
        split; [exact Hout | exact Hsolved].
      - destruct Hrec as [-> ->]. cbn [p1_cc p1_path1].
        split; [apply applyMove_undo, Hcc | apply removelast_last]. }
    destruct loop as [s'|[found st']].
    + exact Hres.
    + cbn [fst] in Hres. destruct Hres as [-> Hs]. exact Hs.
Qed.

Lemma solve_sound_cubie (w : World) :
  ValidCubie (toCubie (cube w)) ->
  fst (solve t w) = []
  \/ exists ms, fst (solve t w) = map toMove ms
       /\ Forall (fun m => 0 <= m < 18) ms
       /\ cubieMoves initEffects ms (toCubie (cube w)) = Solver.solved.
Proof.
  intros Hv. unfold solve.
  destruct (Cube.isSolved (cube w)); [left; reflexivity|].
  destruct (negb (Cube.isSolvable (cube w))); [left; reflexivity|].
  pose proof (cancelled_sameCube w) as [Hcube _].
  destruct (cancelled w) as [c w1]; cbn [snd] in Hcube.
  destruct c; [left; reflexivity|].
  change (cube (storeDepth 0 (storeDepth (-1) (storeNodes 0 w1)))) with (cube w1).
  rewrite Hcube.
  set (start := toCubie (cube w)) in *.
  pose proof
    (forUntil_inv (X := nat)
       (fun s : World => True)
       (fun r : list Move * World =>
          fst r = []
          \/ exists ms, fst r = map toMove ms
               /\ Forall (fun m => 0 <= m < 18) ms
               /\ cubieMoves initEffects ms start = Solver.solved)) as Hloop.
  match goal with
  | |- context [forUntil ?body ?xs ?s] =>
      specialize (Hloop body xs); set (loop := forUntil body xs s) in *
  end.
  assert (Hres : match loop with
                 | inl s' => True
                 | inr r =>
                     fst r = []
                     \/ exists ms, fst r = map toMove ms
                          /\ Forall (fun m => 0 <= m < 18) ms
                          /\ cubieMoves initEffects ms start = Solver.solved
                 end).
  { apply Hloop; [| exact I].
    intros d1 w' _.
    destruct (cancelled w') as [c' w3].
    destruct c'; [left; reflexivity|].
    pose proof (searchPhase1_sound d1 (-1) kMaxTotal start [] []
                  (storeDepth (Z.of_nat d1) w3) Hv) as Hrec.
    destruct (searchPhase1 t d1 (-1) kMaxTotal _) as [found st].
    unfold phase1Sound in Hrec.
    destruct found; [|exact I].
    right. cbn [fst].
    destruct Hrec as (ms1 & Hp & Hms & Hout & Hsolved). simpl in Hp.
    exists (ms1 ++ p1_outPhase2 st). rewrite map_app, Hp.
    split; [reflexivity|]. split; [|exact Hsolved].
    apply Forall_app. split; [exact Hms|].
    revert Hout. apply Forall_impl. intros m Hm.
    cbv [kPhase2Moves In] in Hm. lia. }
  destruct loop as [s'|r]; [left; reflexivity | exact Hres].
Qed.

End Sound.

Lemma g1Example_G1 : G1Cubie g1Example.
Proof.
  split; [apply ValidCubie_dec; vm_compute; reflexivity|].
  split; [vm_compute; reflexivity|]. split; [vm_compute; reflexivity|].
  intros j Hj.
  assert (E : j = 8%nat \/ j = 9%nat \/ j = 10%nat \/ j = 11%nat) by lia.
  destruct E as [-> | [-> | [-> | ->]]]; vm_compute; discriminate.
Qed.

(** X20. [searchPhase2], started at the coordinates of a state of G1 with
    move tables as [Tables::init] builds them and any pruning vectors,
    reports success only with a path extended by phase-2 moves that take
    the state to the solved cubie state; on failure it returns the path
    unchanged. *)
Theorem searchPhase2_returns_only_solutions :
  forall (t : Solver.Tables) (d : nat) (cc : Solver.CubieCube)
         (lastMove : Z) (path : list Z) (w : Solver.World),
    MoveTablesBuilt t -> G1Cubie cc ->
    phase2Sound cc path
      (Solver.searchPhase2 t (Solver.perm8Coord (Solver.cp cc))
         (Solver.edgePermCoord8_fromEp (Solver.ep cc))
         (Solver.slicePermCoord_fromEp (Solver.ep cc)) d lastMove path w).
Proof. intros t d cc lastMove path w Ht Hg. apply searchPhase2_sound; assumption. Qed.

Lemma searchPhase2_returns_only_solutions_witness :
  phase2Sound g1Example []
    (Solver.searchPhase2 builtTables
       (Solver.perm8Coord (Solver.cp g1Example))
       (Solver.edgePermCoord8_fromEp (Solver.ep g1Example))
       (Solver.slicePermCoord_fromEp (Solver.ep g1Example))
       4 (-1) [] (Solver.mkWorld Cube.reset None 0 None)).
Proof.
  apply (searchPhase2_returns_only_solutions builtTables 4 g1Example (-1) []).
  - exact builtTables_built.
  - exact g1Example_G1.
Defined.

(** X21. [searchPhase1] on the cubie state of a real cube, with any
    phase-1 move tables and pruning vectors, reports success only when
    the moves added to [path1] followed by [outPhase2] take the state to
    the solved cubie state; on failure the cubie state and [path1] are as
    they were on entry. *)
Theorem searchPhase1_returns_only_solutions :
  forall (t : Solver.Tables) (d : nat) (lastMove maxTotalDepth : Z)
         (cc : Solver.CubieCube) (path1 out : list Z) (w : Solver.World),
    MoveTablesBuilt t -> ValidCubie cc ->
    phase1Sound cc path1
      (Solver.searchPhase1 t d lastMove maxTotalDepth
         (Solver.mkP1 cc path1 out w)).
Proof.
  intros t d lastMove maxTotalDepth cc path1 out w Ht Hv.
  apply searchPhase1_sound; assumption.
Qed.

Lemma searchPhase1_returns_only_solutions_witness :
  phase1Sound (Solver.toCubie (Cube.applyMoves [R; U] Cube.reset)) []
    (Solver.searchPhase1 builtTables 1 (-1) 31
       (Solver.mkP1 (Solver.toCubie (Cube.applyMoves [R; U] Cube.reset)) [] []
          (Solver.mkWorld (Cube.applyMoves [R; U] Cube.reset) None 0 None))).
Proof.
  apply (searchPhase1_returns_only_solutions builtTables 1 (-1) 31).
  - exact builtTables_built.
  - apply ValidCubie_dec. vm_compute. reflexivity.
Defined.

(** ** The shape of what [solve] returns (X22) *)

Section Shape.

Import Solver.

Variable t : Tables.

Lemma searchPhase2_shape (d : nat) :
  forall cp ep sp lastMove path w,
    phase2Shape d lastMove path (searchPhase2 t cp ep sp d lastMove path w).
Proof.
  induction d as [|d IH]; intros cp_ ep_ sp_ lastMove path w;
    cbn [searchPhase2];
    destruct (cancelled w) as [c w1];
    (destruct c; [reflexivity|]);
    match goal with |- context [if ?b then _ else _] => destruct b end;
    try reflexivity.
  - unfold phase2Shape. destruct (_ && _); [|reflexivity].
    exists []. rewrite app_nil_r. repeat split. constructor.
  - pose proof
      (forUntil_inv_In (X := nat)
         (fun s : list Z * World => fst s = path)
         (fun r : bool * list Z * World =>
            fst (fst r) = true /\ phase2Shape (S d) lastMove path r))
      as Hloop.
    match goal with
    | |- context [forUntil ?body ?xs ?s] =>
        specialize (Hloop body xs); set (loop := forUntil body xs s) in *
    end.
    assert (Hres : match loop with
                   | inl s' => fst s' = path
                   | inr r => fst (fst r) = true
                              /\ phase2Shape (S d) lastMove path r
                   end).
    { apply Hloop; [| reflexivity].
      intros mi [path' w'] Hmi Hp; cbn [fst] in Hp. subst path'.
      apply in_seq in Hmi. unfold kNumPhase2Moves in Hmi.
      set (move := nth mi kPhase2Moves 0).
      assert (Hmove : In move kPhase2Moves) by (apply nth_In; simpl; lia).
      destruct (moveAllowedPrune move lastMove) eqn:Ha; cbn [negb];
        [|reflexivity].
      match goal with
      | |- context [searchPhase2 t ?a ?b ?c d ?m ?p w'] =>
          pose proof (IH a b c m p w') as Hrec;
          destruct (searchPhase2 t a b c d m p w') as [[found path''] w'']
      end.
      unfold phase2Shape in Hrec.
      destruct found; cbn [fst snd].
      - split; [reflexivity|]. unfold phase2Shape.
        destruct Hrec as (ms & -> & Hlen & Hms & Hchain).
        exists (move :: ms). rewrite <- app_assoc.
        split; [reflexivity|]. split; [simpl; lia|].
        split; [constructor; assumption|]. split; assumption.
      - rewrite Hrec. apply removelast_last. }
    destruct loop as [[path' w']|[[found path'] w']].
    + cbn [fst] in Hres. exact Hres.
    + cbn [fst] in Hres. destruct Hres as [-> Hs]. exact Hs.
Qed.

Lemma searchPhase1_shape (d : nat) :
  forall lastMove maxTotalDepth cc path1 out w,
    phase1Shape d lastMove maxTotalDepth path1
      (searchPhase1 t d lastMove maxTotalDepth (mkP1 cc path1 out w)).
Proof.
  induction d as [|d IH]; intros lastMove maxTotalDepth cc path1 out w;
    cbn [searchPhase1];
    destruct (cancelled w) as [c w1];
    (destruct c; [reflexivity|]);
    match goal with |- context [if ?b then _ else _] => destruct b end;
    try reflexivity.
  - (* the leaf *)
    match goal with |- context [if ?b then _ else _] => destruct b end;
      [reflexivity|].
    pose proof
      (forUntil_inv_In (X := nat)
         (fun s : list Z * World => True)
         (fun r : bool * list Z * World =>
            fst (fst r) = true ->
            Forall (fun m => In m kPhase2Moves) (snd (fst r))
            /\ allowedChain (-1) (snd (fst r))
            /\ Z.of_nat (length path1) + Z.of_nat (length (snd (fst r)))
               <= maxTotalDepth))
      as Hloop.
    match goal with
    | |- context [forUntil ?body ?xs ?s] =>
        specialize (Hloop body xs); set (loop := forUntil body xs s) in *
    end.
    assert (Hres : match loop with
                   | inl s' => True
                   | inr r =>
                       fst (fst r) = true ->
                       Forall (fun m => In m kPhase2Moves) (snd (fst r))
                       /\ allowedChain (-1) (snd (fst r))
                       /\ Z.of_nat (length path1)
                          + Z.of_nat (length (snd (fst r))) <= maxTotalDepth
                   end).
    { apply Hloop; [| exact I].
      intros d2 [out' w'] Hd2 _. apply in_seq in Hd2.
      match goal with
      | |- context [searchPhase2 t ?a ?b ?c d2 ?m ?p w'] =>
          pose proof (searchPhase2_shape d2 a b c m p w') as Hrec;
          destruct (searchPhase2 t a b c d2 m p w') as [[found path2] w'']
      end.
      unfold phase2Shape in Hrec.
      destruct found; cbn [fst snd].
      - intros _. destruct Hrec as (ms & -> & Hlen & Hms & Hchain).
        simpl. split; [exact Hms|]. split; [exact Hchain | lia].
      - destruct (cancelled w'') as [c2 w3].
        destruct c2; [cbn [fst]; discriminate | exact I]. }
    destruct loop as [[out' w']|[[found out'] w']]; unfold phase1Shape;
      cbn [p1_path1 p1_outPhase2]; [reflexivity|].
    cbn [fst snd] in Hres.
    destruct found; [|reflexivity].
    destruct (Hres eq_refl) as (Hms & Hchain & Hlen).
    exists []. rewrite app_nil_r.
    repeat split; try assumption; constructor.
  - (* an inner node *)
    pose proof
      (forUntil_inv_In (X := nat)
         (fun s : Phase1State => p1_path1 s = path1)
         (fun r : bool * Phase1State =>
            fst r = true
            /\ phase1Shape (S d) lastMove maxTotalDepth path1 r))
      as Hloop.
    match goal with
    | |- context [forUntil ?body ?xs ?s] =>
        specialize (Hloop body xs); set (loop := forUntil body xs s) in *
    end.
    assert (Hres : match loop with
                   | inl s' => p1_path1 s' = path1
                   | inr r => fst r = true
                              /\ phase1Shape (S d) lastMove maxTotalDepth path1 r
                   end).
    { apply Hloop; [| reflexivity].
      intros mi [cc' path1' out' w'] Hmi Hp; cbn [p1_path1] in Hp. subst path1'.
      apply in_seq in Hmi. unfold kNumMoves in Hmi.
      destruct (moveAllowedPrune (Z.of_nat mi) lastMove) eqn:Ha; cbn [negb];
        [|reflexivity].
      match goal with
      | |- context [searchPhase1 t d ?m ?mx (mkP1 ?c ?p ?o ?w0)] =>
          pose proof (IH m mx c p o w0) as Hrec;
          destruct (searchPhase1 t d m mx (mkP1 c p o w0))
            as [found [cc2 path2 out2 w2]]
      end.
      unfold phase1Shape in Hrec. cbn [p1_path1 p1_outPhase2] in Hrec.
      destruct found; cbn [fst snd].
      - split; [reflexivity|]. unfold phase1Shape.
        cbn [p1_path1 p1_outPhase2].
        destruct Hrec as (ms1 & -> & Hlen & Hms & Hchain & Hout & Hchain2 & Htot).
        exists (Z.of_nat mi :: ms1). rewrite <- app_assoc.
        split; [reflexivity|]. split; [simpl; lia|].
        split; [constructor; [lia | exact Hms]|].
        split; [split; assumption|].
        split; [exact Hout|]. split; [exact Hchain2|].
        rewrite <- app_assoc in Htot. exact Htot.
      - cbn [p1_path1]. rewrite Hrec. apply removelast_last. }
    destruct loop as [s'|[found st']].
    + exact Hres.
    + cbn [fst] in Hres. destruct Hres as [-> Hs]. exact Hs.
Qed.

Lemma solve_shape (w : World) :
  exists ms1 ms2,
    fst (solve t w) = map toMove (ms1 ++ ms2)
    /\ (length ms1 <= kMaxPhase1)%nat
    /\ Z.of_nat (length ms1) + Z.of_nat (length ms2) <= kMaxTotal
    /\ Forall (fun m => 0 <= m < 18) ms1
    /\ allowedChain (-1) ms1
    /\ Forall (fun m => In m kPhase2Moves) ms2
    /\ allowedChain (-1) ms2.
Proof.
  assert (Hnil : exists ms1 ms2 : list Z,
            @nil Move = map toMove (ms1 ++ ms2)
            /\ (length ms1 <= kMaxPhase1)%nat
            /\ Z.of_nat (length ms1) + Z.of_nat (length ms2) <= kMaxTotal
            /\ Forall (fun m => 0 <= m < 18) ms1
            /\ allowedChain (-1) ms1
            /\ Forall (fun m => In m kPhase2Moves) ms2
            /\ allowedChain (-1) ms2).
  { exists [], []. repeat split; try constructor; unfold kMaxTotal; simpl; lia. }
  unfold solve.
  destruct (Cube.isSolved (cube w)); [exact Hnil|].
  destruct (negb (Cube.isSolvable (cube w))); [exact Hnil|].
  destruct (cancelled w) as [c w1].
  destruct c; [exact Hnil|].
  pose proof
    (forUntil_inv_In (X := nat)
       (fun s : World => True)
       (fun r : list Move * World =>
          exists ms1 ms2 : list Z,
            fst r = map toMove (ms1 ++ ms2)
            /\ (length ms1 <= kMaxPhase1)%nat
            /\ Z.of_nat (length ms1) + Z.of_nat (length ms2) <= kMaxTotal
            /\ Forall (fun m => 0 <= m < 18) ms1
            /\ allowedChain (-1) ms1
            /\ Forall (fun m => In m kPhase2Moves) ms2
            /\ allowedChain (-1) ms2)) as Hloop.
  match goal with
  | |- context [forUntil ?body ?xs ?s] =>
      specialize (Hloop body xs); set (loop := forUntil body xs s) in *
  end.
  assert (Hres : match loop with
                 | inl s' => True
                 | inr r =>
                     exists ms1 ms2 : list Z,
                       fst r = map toMove (ms1 ++ ms2)
                       /\ (length ms1 <= kMaxPhase1)%nat
                       /\ Z.of_nat (length ms1) + Z.of_nat (length ms2) <= kMaxTotal
                       /\ Forall (fun m => 0 <= m < 18) ms1
                       /\ allowedChain (-1) ms1
                       /\ Forall (fun m => In m kPhase2Moves) ms2
                       /\ allowedChain (-1) ms2
                 end).
  { apply Hloop; [| exact I].
    intros d1 w' Hd1 _. apply in_seq in Hd1.
    destruct (cancelled w') as [c' w3].
    destruct c'; [exact Hnil|].
    match goal with
    | |- context [searchPhase1 t d1 ?m ?mx (mkP1 ?c ?p ?o ?w0)] =>
        pose proof (searchPhase1_shape d1 m mx c p o w0) as Hrec;
        destruct (searchPhase1 t d1 m mx (mkP1 c p o w0)) as [found st]
    end.
    unfold phase1Shape in Hrec.
    destruct found; [|exact I].
    destruct Hrec as (ms1 & Hp & Hlen & Hms & Hchain & Hout & Hchain2 & Htot).
    simpl in Hp. rewrite Hp in Htot.
    exists ms1, (p1_outPhase2 st). cbn [fst]. rewrite map_app, Hp.
    split; [reflexivity|]. split; [unfold kMaxPhase1 in *; lia|].
    repeat split; assumption. }
  destruct loop as [s'|r]; [exact Hnil | exact Hres].
Qed.

End Shape.

(** X22. Whatever the tables and the cube, the vector [solve] returns is
    a phase-1 part of at most 12 moves followed by a part made of phase-2
    moves only, at most 31 moves together, and inside each part every
    move passes [moveAllowedPrune] against the move before it. *)
Theorem solve_result_shape :
  forall (t : Solver.Tables) (w : Solver.World),
    exists ms1 ms2 : list Z,
      fst (Solver.solve t w) = map Solver.toMove (ms1 ++ ms2)
      /\ (length ms1 <= Solver.kMaxPhase1)%nat
      /\ Z.of_nat (length ms1) + Z.of_nat (length ms2) <= Solver.kMaxTotal
      /\ Forall (fun m => 0 <= m < 18) ms1
      /\ allowedChain (-1) ms1
      /\ Forall (fun m => In m Solver.kPhase2Moves) ms2
      /\ allowedChain (-1) ms2.
Proof. intros t w. apply solve_shape. Qed.

(** ** [solve] on the cubes reached by moves (X23) *)

Lemma Handed_reset : Handed Cube.reset.
Proof.
  intros i Hi. do 8 (destruct i as [|i]; [reflexivity|]). lia.
Qed.

Lemma Handed_applyMove (m : Move) (s : Cube.State) :
  length s = 54%nat -> Handed s -> Handed (Cube.applyMove m s).
Proof.
  intros Hlen Hh i Hi.
  rewrite corner_facelets_follow_effects, handed_rot3 by assumption.
  apply Hh. apply (proj1 (effects_in_range m) i Hi).
Qed.

Lemma Handed_applyMoves (ms : list Move) :
  forall s, length s = 54%nat -> Handed s -> Handed (Cube.applyMoves ms s).
Proof.
  induction ms as [|m ms IH]; intros s Hlen Hh; [exact Hh|].
  apply IH; [apply applyMove_length, Hlen | apply Handed_applyMove; assumption].
Qed.

Lemma Solvable_ValidCubie (s : Cube.State) :
  Solvable s -> ValidCubie (Solver.toCubie s).
Proof.
  intros Hs. rewrite (toCubie_of_Solvable s Hs).
  destruct Hs as (_ & HvC & HsC & HvE & HsE & _).
  unfold ValidCubie. cbn [Solver.cp Solver.co Solver.ep Solver.eo].
  assert (HrC : Forall (fun o => 0 <= o < 3) (cornerOris s)).
  { apply Forall_forall. intros o Ho. apply in_map_iff in Ho.
    destruct Ho as (i & <- & _). apply (twistOf3_range (cornerTriple s i)). }
  assert (HrE : Forall (fun o => 0 <= o < 2) (edgeOris s)).
  { apply Forall_forall. intros o Ho. apply in_map_iff in Ho.
    destruct Ho as (i & <- & _). apply (flipOf2_range (edgePair s i)). }
  split; [|split; [|split]].
  - apply (validPieces_is_permutation 8); [reflexivity | exact HvC].
  - split; [reflexivity|]. split; [exact HrC|].
    rewrite <- oriSum_mod; [exact HsC | lia | apply (Forall_nonneg 3), HrC].
  - apply (validPieces_is_permutation 12); [reflexivity | exact HvE].
  - split; [reflexivity|]. split; [exact HrE|].
    rewrite <- oriSum_mod; [exact HsE | lia | apply (Forall_nonneg 2), HrE].
Qed.

Lemma toCubie_applyMove (m : Move) (s : Cube.State) :
  length s = 54%nat -> Solvable s ->
  Solver.toCubie (Cube.applyMove m s)
  = Solver.applyMove Solver.initEffects (Solver.toCubie s) (moveIndex m).
Proof.
  intros Hlen Hs.
  pose proof (Solvable_allCubiesReal s Hs) as Hreal.
  rewrite (toCubie_of_Solvable _ (Solvable_applyMove m s Hlen Hs)).
  rewrite (toCubie_of_Solvable s Hs).
  rewrite applyMove_pieces.
  - rewrite cornerPerms_moved, edgePerms_moved, cornerOris_moved, edgeOris_moved
      by assumption.
    reflexivity.
  - apply Forall_forall. intros o Ho. apply in_map_iff in Ho.
    destruct Ho as (i & <- & _). apply (twistOf3_range (cornerTriple s i)).
  - apply Forall_forall. intros o Ho. apply in_map_iff in Ho.
    destruct Ho as (i & <- & _). apply (flipOf2_range (edgePair s i)).
Qed.

Lemma toCubie_applyMoves (ms : list Z) :
  forall s, Reached s -> Forall (fun m => 0 <= m < 18) ms ->
    Solver.toCubie (Cube.applyMoves (map Solver.toMove ms) s)
    = cubieMoves Solver.initEffects ms (Solver.toCubie s).
Proof.
  induction ms as [|m ms IH]; intros s Hr Hms; [reflexivity|].
  inversion Hms as [|m' ms' Hm Hms']; subst.
  destruct (moveIndex_surj m Hm) as (mv & Hmv & Htm).
  simpl map. cbn [Cube.applyMoves fold_left cubieMoves].
  fold (Cube.applyMoves (map Solver.toMove ms) (Cube.applyMove (Solver.toMove m) s)).
  fold (cubieMoves Solver.initEffects ms
          (Solver.applyMove Solver.initEffects (Solver.toCubie s) m)).
  rewrite Htm.
  rewrite IH; [|apply Reached_applyMove, Hr | exact Hms'].
  destruct Hr as (Hlen & Hs & _).
  rewrite toCubie_applyMove, Hmv by assumption. reflexivity.
Qed.

Lemma corner_identified (c : Color * Color * Color) (i : nat) :
  (i < 8)%nat ->
  cornerOf3 c = Z.of_nat i -> twistOf3 c = 0 -> handed c = true ->
  c = (Cube.cornerColor i 0, Cube.cornerColor i 1, Cube.cornerColor i 2).
Proof.
  intros Hi. destruct c as [[c0 c1] c2].
  do 8 (destruct i as [|i];
        [destruct c0, c1, c2; vm_compute; intros H1 H2 H3;
         first [reflexivity | discriminate H1 | discriminate H2 | discriminate H3]|]).
  lia.
Qed.

Lemma edge_identified (c : Color * Color) (i : nat) :
  (i < 12)%nat ->
  edgeOf2 c = Z.of_nat i -> flipOf2 c = 0 ->
  c = (Cube.edgeColor i 0, Cube.edgeColor i 1).
Proof.
  intros Hi. destruct c as [c0 c1].
  do 12 (destruct i as [|i];
         [destruct c0, c1; vm_compute; intros H1 H2;
          first [reflexivity | discriminate H1 | discriminate H2]|]).
  lia.
Qed.

Ltac corner_home HC i :=
  let E := fresh in
  pose proof (HC i ltac:(lia)) as E; vm_compute in E; injection E as -> -> ->.

Ltac edge_home HE i :=
  let E := fresh in
  pose proof (HE i ltac:(lia)) as E; vm_compute in E; injection E as -> ->.

Lemma solved_cubie_is_reset (s : Cube.State) :
  Reached s -> Handed s -> Solver.toCubie s = Solver.solved -> s = Cube.reset.
Proof.
  intros (Hlen & Hs & Hc) Hh Ht.
  rewrite (toCubie_of_Solvable s Hs), solved_arrays in Ht.
  pose proof (f_equal Solver.cp Ht) as HP. pose proof (f_equal Solver.co Ht) as HO.
  pose proof (f_equal Solver.ep Ht) as HE. pose proof (f_equal Solver.eo Ht) as HF.
  cbn [Solver.cp Solver.co Solver.ep Solver.eo] in HP, HO, HE, HF.
  assert (HC : forall i, (i < 8)%nat ->
            cornerTriple s i
            = (Cube.cornerColor i 0, Cube.cornerColor i 1, Cube.cornerColor i 2)).
  { intros i Hi. apply corner_identified; [exact Hi | | | apply Hh, Hi].
    - change (cornerOf3 (cornerTriple s i)) with (Cube.getCornerPermutation i s).
      rewrite <- (nth_map_range (fun i => Cube.getCornerPermutation i s) 8 i Hi).
      fold (cornerPerms s). rewrite HP.
      unfold identityList. apply nth_map_range, Hi.
    - change (twistOf3 (cornerTriple s i)) with (Cube.getCornerOrientation i s).
      rewrite <- (nth_map_range (fun i => Cube.getCornerOrientation i s) 8 i Hi).
      fold (cornerOris s). rewrite HO.
      apply nth_repeat. }
  assert (HEd : forall i, (i < 12)%nat ->
            edgePair s i = (Cube.edgeColor i 0, Cube.edgeColor i 1)).
  { intros i Hi. apply edge_identified; [exact Hi | |].
    - change (edgeOf2 (edgePair s i)) with (Cube.getEdgePermutation i s).
      rewrite <- (nth_map_range (fun i => Cube.getEdgePermutation i s) 12 i Hi).
      fold (edgePerms s). rewrite HE.
      unfold identityList. apply nth_map_range, Hi.
    - change (flipOf2 (edgePair s i)) with (Cube.getEdgeOrientation i s).
      rewrite <- (nth_map_range (fun i => Cube.getEdgeOrientation i s) 12 i Hi).
      fold (edgeOris s). rewrite HF.
      apply nth_repeat. }
  clear - Hlen Hc HC HEd.
  explode_list s Hlen.
  unfold centers in Hc. vm_compute in Hc.
  injection Hc as -> -> -> -> -> ->.
  corner_home HC 0%nat; corner_home HC 1%nat; corner_home HC 2%nat;
  corner_home HC 3%nat; corner_home HC 4%nat; corner_home HC 5%nat;
  corner_home HC 6%nat; corner_home HC 7%nat.
  edge_home HEd 0%nat; edge_home HEd 1%nat; edge_home HEd 2%nat;
  edge_home HEd 3%nat; edge_home HEd 4%nat; edge_home HEd 5%nat;
  edge_home HEd 6%nat; edge_home HEd 7%nat; edge_home HEd 8%nat;
  edge_home HEd 9%nat; edge_home HEd 10%nat; edge_home HEd 11%nat.
  vm_compute. reflexivity.
Qed.

(** X23. On every cube reached from the reset cube by moves, with move
    tables as [Tables::init] builds them and any pruning vectors, [solve]
    returns the empty vector or a sequence of moves that takes the cube
    to the reset cube, which [isSolved] accepts. *)
Theorem solve_is_sound_on_reachable_cubes :
  forall (scramble : list Move) (t : Solver.Tables)
         (flag : option (nat -> bool)) (k : nat)
         (p : option Solver.SolverProgress),
    MoveTablesBuilt t ->
    let s := Cube.applyMoves scramble Cube.reset in
    let sol := fst (Solver.solve t (Solver.mkWorld s flag k p)) in
    sol = []
    \/ (Cube.applyMoves sol s = Cube.reset
        /\ Cube.isSolved (Cube.applyMoves sol s) = true).
Proof.
  intros scramble t flag k p Ht s sol.
  assert (Hr : Reached s) by (apply Reached_applyMoves, Reached_reset).
  assert (Hh : Handed s)
    by (apply Handed_applyMoves; [reflexivity | apply Handed_reset]).
  destruct (solve_sound_cubie t Ht (Solver.mkWorld s flag k p)) as [E | (ms & E & Hms & Hsolved)].
  - cbn [Solver.cube]. apply Solvable_ValidCubie, Hr.
  - left. exact E.
  - right. cbn [Solver.cube] in Hsolved.
    assert (Hreset : Cube.applyMoves sol s = Cube.reset).
    { unfold sol. rewrite E.
      apply solved_cubie_is_reset.
      - apply Reached_applyMoves, Hr.
      - apply Handed_applyMoves; [apply Hr | exact Hh].
      - rewrite toCubie_applyMoves by assumption. exact Hsolved. }
    split; [exact Hreset|]. rewrite Hreset. reflexivity.
Qed.

Lemma solve_is_sound_on_reachable_cubes_witness :
  fst (Solver.solve builtTables
         (Solver.mkWorld (Cube.applyMoves [R; U] Cube.reset) None 0 None)) = []
  \/ (Cube.applyMoves
        (fst (Solver.solve builtTables
                (Solver.mkWorld (Cube.applyMoves [R; U] Cube.reset) None 0 None)))
        (Cube.applyMoves [R; U] Cube.reset) = Cube.reset
      /\ Cube.isSolved
           (Cube.applyMoves
              (fst (Solver.solve builtTables
                      (Solver.mkWorld (Cube.applyMoves [R; U] Cube.reset) None 0 None)))
              (Cube.applyMoves [R; U] Cube.reset)) = true).
Proof.
  apply (solve_is_sound_on_reachable_cubes [R; U] builtTables None 0 None).
  exact builtTables_built.
Defined.

(** ** Cancellation (X24) *)

Section Cancel.

Import Solver.

Variable t : Tables.
Variable flag : nat -> bool.
Hypothesis Hmono : staysSet flag.

Lemma cancelled_unset (w : World) :
  cancel w = Some flag -> fst (cancelled w) = false ->
  neverSeenSet flag (snd (cancelled w)).
Proof.
  unfold cancelled. intros Hc. rewrite Hc. cbn [fst snd]. intros Hf k Hk.
  cbn [polls] in Hk.
  destruct (flag k) eqn:E; [|reflexivity].
  rewrite <- Hf. symmetry. apply (Hmono k (polls w)); [lia | exact E].
Qed.

Lemma cancelled_cancel (w : World) : cancel (snd (cancelled w)) = cancel w.
Proof. apply cancelled_sameCube. Qed.

Lemma searchPhase2_cancel (d : nat) :
  forall cp ep sp lastMove path w,
    cancel w = Some flag ->
    fst (fst (searchPhase2 t cp ep sp d lastMove path w)) = true ->
    neverSeenSet flag (snd (searchPhase2 t cp ep sp d lastMove path w)).
Proof.
  induction d as [|d IH]; intros cp_ ep_ sp_ lastMove path w Hw;
    cbn [searchPhase2];
    pose proof (cancelled_unset w Hw) as Hu;
    pose proof (cancelled_cancel w) as Hcc;
    destruct (cancelled w) as [c w1]; cbn [fst snd] in Hu, Hcc;
    (destruct c; [cbn [fst]; discriminate|]);
    specialize (Hu eq_refl);
    match goal with |- context [if ?b then _ else _] => destruct b end;
    try (cbn [fst]; discriminate).
  - cbn [fst snd]. intros _. exact Hu.
  - pose proof
      (forUntil_inv (X := nat)
         (fun s : list Z * World => cancel (snd s) = Some flag)
         (fun r : bool * list Z * World =>
            fst (fst r) = true /\ neverSeenSet flag (snd r)))
      as Hloop.
    match goal with
    | |- context [forUntil ?body ?xs ?s] =>
        specialize (Hloop body xs); set (loop := forUntil body xs s) in *
    end.
    assert (Hres : match loop with
                   | inl s' => cancel (snd s') = Some flag
                   | inr r => fst (fst r) = true /\ neverSeenSet flag (snd r)
                   end).
    { apply Hloop; [| cbn [snd]; rewrite <- Hw, <- Hcc; reflexivity].
      intros mi [path' w'] Hw'; cbn [snd] in Hw'.
      destruct (negb _); [exact Hw'|].
      match goal with
      | |- context [searchPhase2 t ?a ?b ?c d ?m ?p w'] =>
          pose proof (IH a b c m p w' Hw') as Hrec;
          pose proof (searchPhase2_sameCube t d a b c m p w') as [_ Hsame];
          destruct (searchPhase2 t a b c d m p w') as [[found path''] w'']
      end.
      cbn [fst snd] in Hrec, Hsame.
      destruct found; cbn [fst snd].
      - split; [reflexivity | apply Hrec; reflexivity].
      - rewrite Hsame. exact Hw'. }
    destruct loop as [[path' w']|[[found path'] w']]; cbn [fst snd].
    + discriminate.
    + intros _. apply Hres.
Qed.

Lemma searchPhase1_cancel (d : nat) :
  forall lastMove maxTotalDepth st,
    cancel (p1_world st) = Some flag ->
    fst (searchPhase1 t d lastMove maxTotalDepth st) = true ->
    neverSeenSet flag
      (p1_world (snd (searchPhase1 t d lastMove maxTotalDepth st))).
Proof.
  induction d as [|d IH]; intros lastMove maxTotalDepth [cc path1 out w] Hw;
    cbn [p1_world] in Hw;
    cbn [searchPhase1];
    pose proof (cancelled_unset w Hw) as Hu;
    pose proof (cancelled_cancel w) as Hcc;
    destruct (cancelled w) as [c w1]; cbn [fst snd] in Hu, Hcc;
    (destruct c; [cbn [fst]; discriminate|]);
    specialize (Hu eq_refl);
    match goal with |- context [if ?b then _ else _] => destruct b end;
    try (cbn [fst]; discriminate).
  - (* the leaf *)
    match goal with |- context [if ?b then _ else _] => destruct b end;
      [cbn [fst]; discriminate|].
    pose proof
      (forUntil_inv (X := nat)
         (fun s : list Z * World => cancel (snd s) = Some flag)
         (fun r : bool * list Z * World =>
            fst (fst r) = true -> neverSeenSet flag (snd r)))
      as Hloop.
    match goal with
    | |- context [forUntil ?body ?xs ?s] =>
        specialize (Hloop body xs); set (loop := forUntil body xs s) in *
    end.
    assert (Hres : match loop with
                   | inl s' => cancel (snd s') = Some flag
                   | inr r => fst (fst r) = true -> neverSeenSet flag (snd r)
                   end).
    { apply Hloop; [| cbn [snd]; rewrite <- Hw, <- Hcc; reflexivity].
      intros d2 [out' w'] Hw'; cbn [snd] in Hw'.
      match goal with
      | |- context [searchPhase2 t ?a ?b ?c d2 ?m ?p w'] =>
          pose proof (searchPhase2_cancel d2 a b c m p w' Hw') as Hrec;
          pose proof (searchPhase2_sameCube t d2 a b c m p w') as [_ Hsame];
          destruct (searchPhase2 t a b c d2 m p w') as [[found path2] w'']
      end.
      cbn [fst snd] in Hrec, Hsame.
      destruct found; cbn [fst snd]; [intros _; apply Hrec; reflexivity|].
      pose proof (cancelled_cancel w'') as Hc2.
      destruct (cancelled w'') as [c2 w3]; cbn [snd] in Hc2.
      destruct c2; cbn [fst snd]; [discriminate|].
      rewrite Hc2, Hsame. exact Hw'. }
    destruct loop as [[out' w']|[[found out'] w']]; cbn [fst snd p1_world].
    + discriminate.
    + intros ->. apply Hres. reflexivity.
  - (* an inner node *)
    pose proof
      (forUntil_inv (X := nat)
         (fun s : Phase1State => cancel (p1_world s) = Some flag)
         (fun r : bool * Phase1State =>
            fst r = true /\ neverSeenSet flag (p1_world (snd r))))
      as Hloop.
    match goal with
    | |- context [forUntil ?body ?xs ?s] =>
        specialize (Hloop body xs); set (loop := forUntil body xs s) in *
    end.
    assert (Hres : match loop with
                   | inl s' => cancel (p1_world s') = Some flag
                   | inr r => fst r = true
                              /\ neverSeenSet flag (p1_world (snd r))
                   end).
    { apply Hloop; [| cbn [p1_world]; rewrite <- Hw, <- Hcc; reflexivity].
      intros mi [cc' path1' out' w'] Hw'; cbn [p1_world] in Hw'.
      destruct (negb _); [exact Hw'|].
      match goal with
      | |- context [searchPhase1 t d ?m ?mx ?s] =>
          pose proof (IH m mx s Hw') as Hrec;
          pose proof (searchPhase1_sameCube t d m mx s) as [_ Hsame];
          destruct (searchPhase1 t d m mx s) as [found [cc2 path2 out2 w2]]
      end.
      cbn [fst snd p1_world] in Hrec, Hsame.
      destruct found; cbn [fst snd p1_world].
      - split; [reflexivity | apply Hrec; reflexivity].
      - rewrite Hsame. exact Hw'. }
    destruct loop as [s'|[found st']]; cbn [fst snd].
    + discriminate.
    + intros _. apply Hres.
Qed.

Lemma solve_cancel (w : World) :
  cancel w = Some flag ->
  fst (solve t w) <> [] ->
  neverSeenSet flag (snd (solve t w)).
Proof.
  intros Hw. unfold solve.
  destruct (Cube.isSolved (cube w)); [intros H; contradiction H; reflexivity|].
  destruct (negb (Cube.isSolvable (cube w)));
    [intros H; contradiction H; reflexivity|].
  pose proof (cancelled_cancel w) as Hcc.
  destruct (cancelled w) as [c w1]; cbn [snd] in Hcc.
  destruct c; [intros H; contradiction H; reflexivity|].
  pose proof
    (forUntil_inv (X := nat)
       (fun s : World => cancel s = Some flag)
       (fun r : list Move * World =>
          fst r <> [] -> neverSeenSet flag (snd r))) as Hloop.
  match goal with
  | |- context [forUntil ?body ?xs ?s] =>
      specialize (Hloop body xs); set (loop := forUntil body xs s) in *
  end.
  assert (Hres : match loop with
                 | inl s' => cancel s' = Some flag
                 | inr r => fst r <> [] -> neverSeenSet flag (snd r)
                 end).
  { apply Hloop;
      [| change (cancel w1 = Some flag); rewrite Hcc; exact Hw].
    intros d1 w' Hw'.
    pose proof (cancelled_cancel w') as Hc'.
    destruct (cancelled w') as [c' w3]; cbn [snd] in Hc'.
    destruct c'; [cbn [fst]; intros H; contradiction H; reflexivity|].
    match goal with
    | |- context [searchPhase1 t d1 ?m ?mx ?s] =>
        pose proof (searchPhase1_cancel d1 m mx s) as Hrec;
        pose proof (searchPhase1_sameCube t d1 m mx s) as [_ Hsame];
        destruct (searchPhase1 t d1 m mx s) as [found st]
    end.
    cbn [fst snd p1_world] in Hrec, Hsame.
    assert (Hw3 : cancel (storeDepth (Z.of_nat d1) w3) = Some flag)
      by (change (cancel w3 = Some flag); rewrite Hc'; exact Hw').
    destruct found; cbn [fst snd].
    - intros _. apply Hrec; [exact Hw3 | reflexivity].
    - rewrite Hsame. exact Hw3. }
  destruct loop as [s'|r]; cbn [fst snd].
  - intros H; contradiction H; reflexivity.
  - exact Hres.
Qed.

End Cancel.

(** X24. With a cancel flag that stays set once it is set, a call of
    [solve] that returns a non-empty vector read the flag as clear at
    every poll it made: once a poll reads the flag as set, [solve]
    returns the empty vector. *)
Theorem solve_after_cancel_returns_nothing :
  forall (t : Solver.Tables) (w : Solver.World) (flag : nat -> bool),
    Solver.cancel w = Some flag ->
    staysSet flag ->
    fst (Solver.solve t w) <> [] ->
    forall k, (k < Solver.polls (snd (Solver.solve t w)))%nat -> flag k = false.
Proof.
  intros t w flag Hw Hmono Hne. apply (solve_cancel t flag Hmono w Hw Hne).
Qed.

Lemma solve_after_cancel_returns_nothing_witness :
  (0 < Solver.polls
         (snd (Solver.solve effectsOnly
                 (Solver.mkWorld (Cube.applyMoves [U] Cube.reset)
                    (Some (fun _ => false)) 0 None))))%nat
  /\ (fun _ : nat => false) 0%nat = false.
Proof.
  split; [vm_compute; lia|].
  refine (solve_after_cancel_returns_nothing effectsOnly
            (Solver.mkWorld (Cube.applyMoves [U] Cube.reset)
               (Some (fun _ => false)) 0 None) (fun _ => false)
            eq_refl (fun i j _ H => H) _ 0%nat _).
  - vm_compute. discriminate.
  - vm_compute. lia.
Defined.

(** ** The vector subscripts of the searches (C6) *)

(** The [assert]s of [Tables::init] do not fire. *)
Lemma initAsserts_hold : Solver.initAsserts = true.
Proof. reflexivity. Qed.

Lemma vectorAt_Some (v : list Z) (i x : Z) :
  SolverChecked.vectorAt v i = Some x -> Solver.idx1 v i = x.
Proof.
  unfold SolverChecked.vectorAt.
  destruct ((0 <=? i) && (i <? Z.of_nat (length v))); intros H;
    [injection H as H; exact H | discriminate H].
Qed.

Lemma tableAt_Some (v : list (list Z)) (i k x : Z) :
  SolverChecked.tableAt v i k = Some x -> Solver.idx2 v i k = x.
Proof.
  unfold SolverChecked.tableAt.
  destruct ((0 <=? i) && (i <? Z.of_nat (length v))); intros H;
    [apply vectorAt_Some in H; exact H | discriminate H].
Qed.

Lemma vectorAt_past_end (v : list Z) (i : Z) :
  Z.of_nat (length v) <= i -> SolverChecked.vectorAt v i = None.
Proof.
  intros H. unfold SolverChecked.vectorAt.
  destruct (Z.ltb_spec i (Z.of_nat (length v))) as [Hlt|_]; [lia|].
  rewrite andb_false_r. reflexivity.
Qed.

(** A loop whose checked body agrees with the unchecked one wherever it
    does not stop for a subscript gives the same, unless it stops. *)
Lemma forUntil_refines {X S R : Type}
    (f : X -> S -> S + option R) (g : X -> S -> S + R) (xs : list X) :
  (forall x s,
     match f x s with
     | inl s' => g x s = inl s'
     | inr (Some r) => g x s = inr r
     | inr None => True
     end) ->
  forall s,
    match Solver.forUntil f xs s with
    | inl s' => Solver.forUntil g xs s = inl s'
    | inr (Some r) => Solver.forUntil g xs s = inr r
    | inr None => True
    end.
Proof.
  intros Hbody. induction xs as [|x rest IH]; intros s; cbn [Solver.forUntil].
  - reflexivity.
  - specialize (Hbody x s).
    destruct (f x s) as [s'|[r|]].
    + rewrite Hbody. apply IH.
    + rewrite Hbody. reflexivity.
    + exact I.
Qed.

(** Whenever a checked run stays inside its vectors it gives what the
    functions of [Solver] give. *)
Section Refines.

Import Solver.

Variable t : Tables.

Lemma searchPhase2_refines (depth : nat) :
  forall cp ep sp lastMove path w r,
    SolverChecked.searchPhase2 t cp ep sp depth lastMove path w = Some r ->
    searchPhase2 t cp ep sp depth lastMove path w = r.
Proof.
  induction depth as [|depth IH]; intros cp ep sp lastMove path w r;
    cbn [SolverChecked.searchPhase2 searchPhase2];
    destruct (cancelled w) as [c w1]; destruct c;
    try (intros H; injection H as H; exact H);
    destruct (SolverChecked.vectorAt (pruneCpSp t) (cp * kSP + sp)) as [h1|] eqn:E1;
    try discriminate;
    destruct (SolverChecked.vectorAt (pruneEpSp t) (ep * kSP + sp)) as [h2|] eqn:E2;
    try discriminate;
    rewrite (vectorAt_Some _ _ _ E1), (vectorAt_Some _ _ _ E2);
    match goal with |- context [if ?b then _ else _] => destruct b end;
    try (intros H; injection H as H; exact H).
  match goal with
  | |- match forUntil ?f ?xs ?s with _ => _ end = _ ->
       match forUntil ?g _ _ with _ => _ end = _ =>
      pose proof (forUntil_refines f g xs) as HL
  end.
  match type of HL with ?A -> _ => assert (Hb : A) end.
  { intros mi [p wl].
    destruct (negb (moveAllowedPrune (nth mi kPhase2Moves 0) lastMove));
      [reflexivity|].
    destruct (SolverChecked.tableAt (cpMove t) cp (Z.of_nat mi)) as [ncp|] eqn:T1;
      [|exact I].
    destruct (SolverChecked.tableAt (epMove t) ep (Z.of_nat mi)) as [nep|] eqn:T2;
      [|exact I].
    destruct (SolverChecked.tableAt (spMove t) sp (Z.of_nat mi)) as [nsp|] eqn:T3;
      [|exact I].
    rewrite (tableAt_Some _ _ _ _ T1), (tableAt_Some _ _ _ _ T2),
      (tableAt_Some _ _ _ _ T3).
    destruct (SolverChecked.searchPhase2 t ncp nep nsp depth
                (nth mi kPhase2Moves 0) (p ++ [nth mi kPhase2Moves 0]) wl)
      as [r'|] eqn:ER; [|exact I].
    rewrite (IH _ _ _ _ _ _ _ ER).
    destruct r' as [[found p'] w']. destruct found; reflexivity. }
  specialize (HL Hb (path, countNode w1)).
  match type of HL with match ?e with _ => _ end => destruct e as [[p' w']|[r'|]] end.
  - rewrite HL. intros H; injection H as H; exact H.
  - rewrite HL. intros H; injection H as H; exact H.
  - discriminate.
Qed.

Lemma searchPhase1_refines (depth : nat) :
  forall lastMove maxTotalDepth st r,
    SolverChecked.searchPhase1 t depth lastMove maxTotalDepth st = Some r ->
    searchPhase1 t depth lastMove maxTotalDepth st = r.
Proof.
  induction depth as [|depth IH];
    intros lastMove maxTotalDepth [cc path1 outPhase2 w] r;
    cbn [SolverChecked.searchPhase1 searchPhase1];
    destruct (cancelled w) as [c w1]; destruct c;
    try (intros H; injection H as H; exact H);
    destruct (SolverChecked.vectorAt (pruneCoSlice t)
                (cornerOriCoord (co cc) * kSLICE + sliceCoord (ep cc)))
      as [h1|] eqn:E1; try discriminate;
    destruct (SolverChecked.vectorAt (pruneEoSlice t)
                (edgeOriCoord (eo cc) * kSLICE + sliceCoord (ep cc)))
      as [h2|] eqn:E2; try discriminate;
    rewrite (vectorAt_Some _ _ _ E1), (vectorAt_Some _ _ _ E2);
    match goal with |- context [if ?b then _ else _] => destruct b end;
    try (intros H; injection H as H; exact H).
  - (* the leaf *)
    match goal with |- context [if ?b then _ else _] => destruct b end;
      try (intros H; injection H as H; exact H).
    match goal with
    | |- match forUntil ?f ?xs ?s with _ => _ end = _ ->
         match forUntil ?g _ _ with _ => _ end = _ =>
        pose proof (forUntil_refines f g xs) as HL
    end.
    match type of HL with ?A -> _ => assert (Hb : A) end.
    { intros d2 [o wl].
      match goal with
      | |- context [SolverChecked.searchPhase2 ?a ?b ?c ?d ?e ?f ?g ?h] =>
          destruct (SolverChecked.searchPhase2 a b c d e f g h) as [r'|] eqn:ER;
            [|exact I]
      end.
      rewrite (searchPhase2_refines _ _ _ _ _ _ _ _ ER).
      destruct r' as [[found p'] w']. destruct found; [reflexivity|].
      destruct (cancelled w') as [c2 w2]. destruct c2; reflexivity. }
    specialize (HL Hb (outPhase2, countNode w1)).
    match type of HL with match ?e with _ => _ end =>
      destruct e as [[o' w']|[[[r' o'] w']|]] end.
    + rewrite HL. intros H; injection H as H; exact H.
    + rewrite HL. intros H; injection H as H; exact H.
    + discriminate.
  - (* an inner node *)
    match goal with
    | |- match forUntil ?f ?xs ?s with _ => _ end = _ ->
         match forUntil ?g _ _ with _ => _ end = _ =>
        pose proof (forUntil_refines f g xs) as HL
    end.
    match type of HL with ?A -> _ => assert (Hb : A) end.
    { intros mi [cc' p1 o wl].
      destruct (negb (moveAllowedPrune (Z.of_nat mi) lastMove)); [reflexivity|].
      match goal with
      | |- context [SolverChecked.searchPhase1 ?a ?b ?c ?d ?e] =>
          destruct (SolverChecked.searchPhase1 a b c d e) as [r'|] eqn:ER;
            [|exact I]
      end.
      rewrite (IH _ _ _ _ ER).
      destruct r' as [found [cc2 p2 o2 w2]]. destruct found; reflexivity. }
    specialize (HL Hb (mkP1 cc path1 outPhase2 (countNode w1))).
    match type of HL with match ?e with _ => _ end =>
      destruct e as [st'|[r'|]] end.
    + rewrite HL. intros H; injection H as H; exact H.
    + rewrite HL. intros H; injection H as H; exact H.
    + discriminate.
Qed.

Lemma solve_refines (w : World) (r : list Move * World) :
  SolverChecked.solve t w = Some r -> solve t w = r.
Proof.
  unfold SolverChecked.solve, solve.
  destruct (Cube.isSolved (cube w)); [intros H; injection H as H; exact H|].
  destruct (negb (Cube.isSolvable (cube w)));
    [intros H; injection H as H; exact H|].
  destruct (cancelled w) as [c w1]. destruct c;
    [intros H; injection H as H; exact H|].
  match goal with
  | |- match forUntil ?f ?xs ?s with _ => _ end = _ ->
       match forUntil ?g _ _ with _ => _ end = _ =>
      pose proof (forUntil_refines f g xs) as HL
  end.
  match type of HL with ?A -> _ => assert (Hb : A) end.
  { intros d1 wl. destruct (cancelled wl) as [c2 w2]. destruct c2; [reflexivity|].
    match goal with
    | |- context [SolverChecked.searchPhase1 ?a ?b ?c ?d ?e] =>
        destruct (SolverChecked.searchPhase1 a b c d e) as [r'|] eqn:ER;
          [|exact I]
    end.
    rewrite (searchPhase1_refines _ _ _ _ _ ER).
    destruct r' as [found st]. destruct found; reflexivity. }
  specialize (HL Hb (storeDepth 0 (storeDepth (-1) (storeNodes 0 w1)))).
  match type of HL with match ?e with _ => _ end =>
    destruct e as [w'|[r'|]] end.
  - rewrite HL. intros H; injection H as H; exact H.
  - rewrite HL. intros H; injection H as H; exact H.
  - discriminate.
Qed.

End Refines.

Lemma searchPhase1_stops_past_pruneEoSlice
    (t : Solver.Tables) (depth : nat) (lastMove maxTotalDepth : Z)
    (cc : Solver.CubieCube) (path1 outPhase2 : list Z) (w : Solver.World) :
  Solver.cancel w = None ->
  Z.of_nat (length (Solver.pruneEoSlice t))
  <= Solver.edgeOriCoord (Solver.eo cc) * Solver.kSLICE
     + Solver.sliceCoord (Solver.ep cc) ->
  SolverChecked.searchPhase1 t depth lastMove maxTotalDepth
    (Solver.mkP1 cc path1 outPhase2 w) = None.
Proof.
  intros Hc Hlen.
  destruct depth; cbn [SolverChecked.searchPhase1];
    unfold Solver.cancelled; rewrite Hc;
    rewrite (vectorAt_past_end _ _ Hlen);
    match goal with |- match ?e with _ => _ end = _ => destruct e end;
    reflexivity.
Qed.

Lemma solve_stops_past_pruneEoSlice (t : Solver.Tables) (w : Solver.World) :
  Cube.isSolved (Solver.cube w) = false ->
  Cube.isSolvable (Solver.cube w) = true ->
  Solver.cancel w = None ->
  Z.of_nat (length (Solver.pruneEoSlice t))
  <= Solver.edgeOriCoord (Solver.eo (Solver.toCubie (Solver.cube w)))
     * Solver.kSLICE
     + Solver.sliceCoord (Solver.ep (Solver.toCubie (Solver.cube w))) ->
  SolverChecked.solve t w = None.
Proof.
  intros Hs Hv Hc Hlen. unfold SolverChecked.solve.
  rewrite Hs, Hv. cbn [negb].
  unfold Solver.cancelled at 1. rewrite Hc.
  change (range (S Solver.kMaxPhase1)) with (0%nat :: seq 1 12).
  cbn [Solver.forUntil].
  unfold Solver.cancelled at 1.
  cbn [Solver.cancel Solver.storeDepth Solver.storeNodes Solver.withProgress].
  rewrite Hc.
  rewrite searchPhase1_stops_past_pruneEoSlice; [reflexivity | exact Hc |].
  exact Hlen.
Qed.

(** C6. The three early returns of [solve] hold with every subscript
    checked: on a solved cube and on a cube that is not solvable [solve]
    returns the empty sequence and the world as it was, and when the
    first load of the cancel flag observes [true] it returns the empty
    sequence with the cube and the progress counters as they were; no
    table is read on these paths, whatever the tables are.  Past them the
    process is not safe.  The cube reached from the reset cube by
    [superflipLR] is solvable and not solved; its edge orientation
    coordinate is 2047 and its slice coordinate 785, so the first node of
    the first phase-1 search subscripts [pruneEoSlice] at 1014050, and
    [Tables::init] gives that vector [kEO * kSLICE] = 1013760 entries:
    with any such table the run reaches a subscript outside its
    vector. *)
Theorem solve_early_returns_and_pruning_overrun :
  (forall (t : Solver.Tables) (w : Solver.World),
     Cube.isSolved (Solver.cube w) = true ->
     SolverChecked.solve t w = Some ([], w))
  /\ (forall (t : Solver.Tables) (w : Solver.World),
     Cube.isSolvable (Solver.cube w) = false ->
     SolverChecked.solve t w = Some ([], w))
  /\ (forall (t : Solver.Tables) (w : Solver.World) (flag : nat -> bool),
     Solver.cancel w = Some flag -> flag (Solver.polls w) = true ->
     exists w', SolverChecked.solve t w = Some ([], w')
       /\ Solver.progress w' = Solver.progress w
       /\ Solver.cube w' = Solver.cube w)
  /\ (forall (t : Solver.Tables) (k : nat) (p : option Solver.SolverProgress),
     Z.of_nat (length (Solver.pruneEoSlice t)) = Solver.kEO * Solver.kSLICE ->
     let s := Cube.applyMoves superflipLR Cube.reset in
     Cube.isSolved s = false
     /\ Cube.isSolvable s = true
     /\ Solver.edgeOriCoord (Solver.eo (Solver.toCubie s)) * Solver.kSLICE
        + Solver.sliceCoord (Solver.ep (Solver.toCubie s)) = 1014050
     /\ SolverChecked.solve t (Solver.mkWorld s None k p) = None).
Proof.
  split; [|split; [|split]].
  - intros t w H. unfold SolverChecked.solve. rewrite H. reflexivity.
  - intros t w H. unfold SolverChecked.solve. rewrite H.
    destruct (Cube.isSolved (Solver.cube w)); reflexivity.
  - intros t w flag Hflag Hset. unfold SolverChecked.solve.
    destruct (Cube.isSolved (Solver.cube w)); [exists w; auto|].
    destruct (negb (Cube.isSolvable (Solver.cube w))); [exists w; auto|].
    unfold Solver.cancelled. rewrite Hflag, Hset.
    eexists. split; [reflexivity|]. split; reflexivity.
  - intros t k p Hlen s.
    assert (Hs : Cube.isSolved s = false) by (vm_compute; reflexivity).
    assert (Hv : Cube.isSolvable s = true) by (vm_compute; reflexivity).
    assert (Hi : Solver.edgeOriCoord (Solver.eo (Solver.toCubie s)) * Solver.kSLICE
                 + Solver.sliceCoord (Solver.ep (Solver.toCubie s)) = 1014050)
      by (vm_compute; reflexivity).
    split; [exact Hs|]. split; [exact Hv|]. split; [exact Hi|].
    apply solve_stops_past_pruneEoSlice; [exact Hs | exact Hv | reflexivity |].
    cbn [Solver.cube]. rewrite Hi, Hlen. vm_compute. discriminate.
Qed.

Lemma allocated_pruneEoSlice :
  Z.of_nat (length (Solver.pruneEoSlice allocatedTables))
  = Solver.kEO * Solver.kSLICE.
Proof.
  unfold allocatedTables. cbn [Solver.pruneEoSlice].
  rewrite repeat_length. apply Z2Nat.id. vm_compute. discriminate.
Qed.

Lemma solve_early_returns_and_pruning_overrun_witness :
  SolverChecked.solve effectsOnly
    (Solver.mkWorld Cube.reset None 0 (Some (Solver.mkProgress 7 3)))
  = Some ([], Solver.mkWorld Cube.reset None 0 (Some (Solver.mkProgress 7 3)))
  /\ SolverChecked.solve effectsOnly
       (Solver.mkWorld (upd 8 Red (upd 36 White Cube.reset)) None 0 None)
     = Some ([], Solver.mkWorld (upd 8 Red (upd 36 White Cube.reset)) None 0 None)
  /\ (exists w', SolverChecked.solve effectsOnly
            (Solver.mkWorld (Cube.applyMove R Cube.reset)
               (Some (fun _ => true)) 0 (Some (Solver.mkProgress 7 3)))
          = Some ([], w')
       /\ Solver.progress w' = Some (Solver.mkProgress 7 3)
       /\ Solver.cube w' = Cube.applyMove R Cube.reset)
  /\ SolverChecked.solve allocatedTables
       (Solver.mkWorld (Cube.applyMoves superflipLR Cube.reset) None 0 None)
     = None.
Proof.
  destruct solve_early_returns_and_pruning_overrun
    as (Hsolved & Hunsolvable & Hcancel & Hover).
  split; [|split; [|split]].
  - apply Hsolved. reflexivity.
  - apply Hunsolvable. reflexivity.
  - exact (Hcancel effectsOnly
             (Solver.mkWorld (Cube.applyMove R Cube.reset)
                (Some (fun _ => true)) 0 (Some (Solver.mkProgress 7 3)))
             (fun _ => true) eq_refl eq_refl).
  - exact (proj2 (proj2 (proj2
             (Hover allocatedTables 0%nat None allocated_pruneEoSlice)))).
Defined.
